(** * Recovery parser and pipeline orchestrator of the test-case generator

    A shallow embedding of [parse_util.py], the stage adapters of
    [generate_chain.py] and [api.py], and the streaming loop of
    [model_util.py], followed by the properties of the specification that
    are stated about them.

    Conventions.  A Python [str] is a sequence of Unicode code points and
    is modelled as [list N]; [py "..."] turns an ASCII literal into such a
    sequence.  A raised exception is a value of [exn]; a function that may
    raise returns an [outcome]. *)

From Stdlib Require Import String Ascii.
From Stdlib Require Import List NArith ZArith Bool Lia.
Import ListNotations.

Local Open Scope N_scope.
Local Open Scope list_scope.

(** ** Python strings *)

Module Str.

Abbreviation char := N (only parsing).
Abbreviation str := (list N) (only parsing).

Definition py (s : string) : str := map N_of_ascii (list_ascii_of_string s).
Definition chr (a : ascii) : char := N_of_ascii a.

Arguments py _%_string.
Arguments chr _%_char.

(** A literal in which ['] stands for the double quote, for JSON texts. *)
Definition js (s : string) : str :=
  map (fun c => if N.eqb c 39 then 34 else c) (py s).

Arguments js _%_string.

Fixpoint str_eqb (a b : str) : bool :=
  match a, b with
  | [], [] => true
  | x :: a', y :: b' => N.eqb x y && str_eqb a' b'
  | _, _ => false
  end.

(** [Py_UNICODE_ISSPACE]: the characters removed by [str.strip] and matched
    by [\s] in a [str] pattern of [re]. *)
Definition space_chars : list char :=
  [ 9; 10; 11; 12; 13; 28; 29; 30; 31; 32; 133; 160; 5760;
    8192; 8193; 8194; 8195; 8196; 8197; 8198; 8199; 8200; 8201; 8202;
    8232; 8233; 8239; 8287; 12288 ].

Definition is_space (c : char) : bool := existsb (N.eqb c) space_chars.

Fixpoint lstrip (s : str) : str :=
  match s with
  | c :: r => if is_space c then lstrip r else s
  | [] => []
  end.

Definition rstrip (s : str) : str := rev (lstrip (rev s)).

Definition strip (s : str) : str := rstrip (lstrip s).

(** [s.startswith(pat)] *)
Fixpoint starts_with (pat s : str) : bool :=
  match pat, s with
  | [], _ => true
  | p :: pat', c :: s' => N.eqb p c && starts_with pat' s'
  | _ :: _, [] => false
  end.

(** [s.endswith(c)] for a one-character [c] *)
Definition ends_with_char (c : char) (s : str) : bool :=
  match rev s with
  | d :: _ => N.eqb d c
  | [] => false
  end.

(** Splitting at the first occurrence of [pat]: [cut pat s = Some (a, b)]
    when [s = a ++ pat ++ b] and [pat] does not occur earlier. *)
Fixpoint cut (pat s : str) : option (str * str) :=
  if starts_with pat s then Some ([], skipn (length pat) s)
  else match s with
       | [] => None
       | c :: r =>
           match cut pat r with
           | Some (a, b) => Some (c :: a, b)
           | None => None
           end
       end.

Definition contains (pat s : str) : bool :=
  match cut pat s with Some _ => true | None => false end.

(** [s.find(c)] and [s.rfind(c)] for a one-character [c]; Python's [-1] is
    [None]. *)
Fixpoint find (c : char) (s : str) : option nat :=
  match s with
  | [] => None
  | d :: r => if N.eqb d c then Some O
              else match find c r with
                   | Some i => Some (S i)
                   | None => None
                   end
  end.

Fixpoint rfind (c : char) (s : str) : option nat :=
  match s with
  | [] => None
  | d :: r => match rfind c r with
              | Some i => Some (S i)
              | None => if N.eqb d c then Some O else None
              end
  end.

(** [s[i:j]] for [0 <= i], [0 <= j] *)
Definition slice (s : str) (i j : nat) : str := firstn (j - i) (skipn i s).

(** [s.split('\n')] and ['\n'.join(lines)] *)
Fixpoint split_lines (s : str) : list str :=
  match s with
  | [] => [[]]
  | c :: r =>
      if N.eqb c 10 then [] :: split_lines r
      else match split_lines r with
           | l :: ls => (c :: l) :: ls
           | [] => [[c]]
           end
  end.

Fixpoint join_lines (lines : list str) : str :=
  match lines with
  | [] => []
  | [l] => l
  | l :: rest => l ++ 10 :: join_lines rest
  end.

End Str.
Import Str.

(** ** Decoded JSON values and [json.loads]

    [json.loads] belongs to the Python library, not to the repository.  It
    is modelled on [json.decoder] and [json.scanner] (strict mode, default
    hooks): the grammar of RFC 8259, the literals [NaN], [Infinity] and
    [-Infinity], the whitespace [ \t\n\r], a repeated key keeping its
    last value.  The decoder is written as a pushdown machine that reads
    the text one code point at a time; it accepts exactly the texts the
    recursive-descent scanner accepts and builds the same value.  A float
    is kept as its literal, so that no rounding is modelled.  [None] stands
    for [json.JSONDecodeError], the only exception the decoder raises on a
    [str] within the interpreter's resource limits. *)

Module Json.

#[local] Set Warnings "-register-all".

Inductive json : Type :=
| JNull
| JBool (b : bool)
| JInt (z : Z)
| JFloat (lexeme : str)
| JNaN
| JInfinity (negative : bool)
| JString (s : str)
| JArray (items : list json)
| JObject (members : list (str * json)).

(** [d[k] = v] on a dict kept in insertion order *)
Fixpoint dict_set (d : list (str * json)) (k : str) (v : json)
  : list (str * json) :=
  match d with
  | [] => [(k, v)]
  | (k', v') :: r => if str_eqb k' k then (k', v) :: r
                     else (k', v') :: dict_set r k v
  end.

(** [d.get(k)] *)
Fixpoint dict_get (d : list (str * json)) (k : str) : option json :=
  match d with
  | [] => None
  | (k', v) :: r => if str_eqb k' k then Some v else dict_get r k
  end.

Inductive frame : Type :=
| InArray (items : list json)
| InObject (members : list (str * json)) (key : option str).

(** Position inside a string literal *)
Inductive strpos : Type :=
| Plain
| Esc
| Hex (todo : nat) (acc : N)
| High (h : N)
| HighEsc (h : N)
| HighHex (h : N) (todo : nat) (acc : N).

(** Position inside a number literal: an optional minus, then 0 or a
    non-zero digit with more digits, then an optional fraction (a dot and
    digits), then an optional exponent (e or E, an optional sign, digits). *)
Inductive numpos : Type :=
| NMinus | NZero | NInt | NDot | NFrac | NExp | NExpSign | NExpDigits.

(** The literals that are spelled out: [true], [false], [null], and the
    constants [NaN], [Infinity], [-Infinity] *)
Inductive literal : Type :=
| LTrue | LFalse | LNull | LNaN | LInfinity | LNegInfinity.

Definition literal_text (l : literal) : str :=
  match l with
  | LTrue => py "true"
  | LFalse => py "false"
  | LNull => py "null"
  | LNaN => py "NaN"
  | LInfinity => py "Infinity"
  | LNegInfinity => py "-Infinity"
  end.

Inductive mode : Type :=
| Value
| ValueOrEnd
| KeyOrEnd
| Key
| Colon
| After
| InStr (is_key : bool) (acc : str) (p : strpos)
| InNum (lexeme : str) (p : numpos) (is_float : bool)
| InLit (l : literal) (seen : nat).

Inductive state : Type :=
| Fail
| Run (m : mode) (stk : list frame)
| Done (v : json).

Definition json_ws (c : char) : bool :=
  N.eqb c 32 || N.eqb c 9 || N.eqb c 10 || N.eqb c 13.

Definition is_digit (c : char) : bool := (48 <=? c) && (c <=? 57).

Definition hex_value (c : char) : option N :=
  if (48 <=? c) && (c <=? 57) then Some (c - 48)
  else if (97 <=? c) && (c <=? 102) then Some (c - 87)
  else if (65 <=? c) && (c <=? 70) then Some (c - 55)
  else None.

Definition is_high_surrogate (c : N) : bool := (55296 <=? c) && (c <=? 56319).
Definition is_low_surrogate (c : N) : bool := (56320 <=? c) && (c <=? 57343).
Definition join_surrogates (h l : N) : N :=
  65536 + (h - 55296) * 1024 + (l - 56320).

(** A completed value is handed to the enclosing container. *)
Definition deliver (v : json) (stk : list frame) : state :=
  match stk with
  | [] => Done v
  | InArray items :: stk' => Run After (InArray (items ++ [v]) :: stk')
  | InObject members (Some k) :: stk' =>
      Run After (InObject (dict_set members k v) None :: stk')
  | InObject _ None :: _ => Fail
  end.

(** A completed string is a key or a value. *)
Definition deliver_string (is_key : bool) (s : str) (stk : list frame)
  : state :=
  if is_key then
    match stk with
    | InObject members None :: stk' =>
        Run Colon (InObject members (Some s) :: stk')
    | _ => Fail
    end
  else deliver (JString s) stk.

Fixpoint digits_value (acc : Z) (ds : str) : Z :=
  match ds with
  | [] => acc
  | d :: r => digits_value (10 * acc + Z.of_N (d - 48))%Z r
  end.

(** [int(lexeme)] for a lexeme matched by the integer part *)
Definition int_of_lexeme (lexeme : str) : Z :=
  match lexeme with
  | 45 :: ds => (- digits_value 0 ds)%Z
  | ds => digits_value 0 ds
  end.

Definition number_value (lexeme : str) (is_float : bool) : json :=
  if is_float then JFloat lexeme else JInt (int_of_lexeme lexeme).

Definition literal_value (l : literal) : json :=
  match l with
  | LTrue => JBool true
  | LFalse => JBool false
  | LNull => JNull
  | LNaN => JNaN
  | LInfinity => JInfinity false
  | LNegInfinity => JInfinity true
  end.

(** The first character of a value *)
Definition start_value (c : char) (stk : list frame) : state :=
  if N.eqb c 34 then Run (InStr false [] Plain) stk
  else if N.eqb c 123 then Run KeyOrEnd (InObject [] None :: stk)
  else if N.eqb c 91 then Run ValueOrEnd (InArray [] :: stk)
  else if N.eqb c 45 then Run (InNum [c] NMinus false) stk
  else if N.eqb c 48 then Run (InNum [c] NZero false) stk
  else if is_digit c then Run (InNum [c] NInt false) stk
  else if N.eqb c 116 then Run (InLit LTrue 1) stk
  else if N.eqb c 102 then Run (InLit LFalse 1) stk
  else if N.eqb c 110 then Run (InLit LNull 1) stk
  else if N.eqb c 78 then Run (InLit LNaN 1) stk
  else if N.eqb c 73 then Run (InLit LInfinity 1) stk
  else Fail.

(** After a value: a separator or the end of the container *)
Definition step_after (c : char) (stk : list frame) : state :=
  if json_ws c then Run After stk
  else match stk with
       | InArray items :: stk' =>
           if N.eqb c 44 then Run Value stk
           else if N.eqb c 93 then deliver (JArray items) stk'
           else Fail
       | InObject members None :: stk' =>
           if N.eqb c 44 then Run Key stk
           else if N.eqb c 125 then deliver (JObject members) stk'
           else Fail
       | _ => Fail
       end.

(** The character after a completed value, in the state [deliver] gave *)
Definition resume (st : state) (c : char) : state :=
  match st with
  | Done v => if json_ws c then Done v else Fail
  | Run After stk => step_after c stk
  | _ => Fail
  end.

Definition step_plain (is_key : bool) (acc : str) (c : char)
  (stk : list frame) : state :=
  if N.eqb c 34 then deliver_string is_key acc stk
  else if N.eqb c 92 then Run (InStr is_key acc Esc) stk
  else if c <? 32 then Fail
  else Run (InStr is_key (acc ++ [c]) Plain) stk.

(** A code point decoded from [\uXXXX] *)
Definition step_decoded (is_key : bool) (acc : str) (u : N)
  (stk : list frame) : state :=
  if is_high_surrogate u then Run (InStr is_key acc (High u)) stk
  else Run (InStr is_key (acc ++ [u]) Plain) stk.

Definition step_escape (is_key : bool) (acc : str) (c : char)
  (stk : list frame) : state :=
  if N.eqb c 34 || N.eqb c 92 || N.eqb c 47
  then Run (InStr is_key (acc ++ [c]) Plain) stk
  else if N.eqb c 98 then Run (InStr is_key (acc ++ [8]) Plain) stk
  else if N.eqb c 102 then Run (InStr is_key (acc ++ [12]) Plain) stk
  else if N.eqb c 110 then Run (InStr is_key (acc ++ [10]) Plain) stk
  else if N.eqb c 114 then Run (InStr is_key (acc ++ [13]) Plain) stk
  else if N.eqb c 116 then Run (InStr is_key (acc ++ [9]) Plain) stk
  else if N.eqb c 117 then Run (InStr is_key acc (Hex 4 0)) stk
  else Fail.

Definition step_string (is_key : bool) (acc : str) (p : strpos) (c : char)
  (stk : list frame) : state :=
  match p with
  | Plain => step_plain is_key acc c stk
  | Esc => step_escape is_key acc c stk
  | Hex todo u =>
      match hex_value c, todo with
      | Some d, S O => step_decoded is_key acc (16 * u + d) stk
      | Some d, S todo' => Run (InStr is_key acc (Hex todo' (16 * u + d))) stk
      | _, _ => Fail
      end
  | High h =>
      if N.eqb c 92 then Run (InStr is_key acc (HighEsc h)) stk
      else step_plain is_key (acc ++ [h]) c stk
  | HighEsc h =>
      if N.eqb c 117 then Run (InStr is_key acc (HighHex h 4 0)) stk
      else step_escape is_key (acc ++ [h]) c stk
  | HighHex h todo u =>
      match hex_value c, todo with
      | Some d, S O =>
          let l := 16 * u + d in
          if is_low_surrogate l
          then Run (InStr is_key (acc ++ [join_surrogates h l]) Plain) stk
          else step_decoded is_key (acc ++ [h]) l stk
      | Some d, S todo' =>
          Run (InStr is_key acc (HighHex h todo' (16 * u + d))) stk
      | _, _ => Fail
      end
  end.

Definition step_number (lexeme : str) (p : numpos) (is_float : bool)
  (c : char) (stk : list frame) : state :=
  let more p' f := Run (InNum (lexeme ++ [c]) p' f) stk in
  let finished := resume (deliver (number_value lexeme is_float) stk) c in
  match p with
  | NMinus =>
      if N.eqb c 48 then more NZero false
      else if is_digit c then more NInt false
      else if N.eqb c 73 then Run (InLit LNegInfinity 2) stk
      else Fail
  | NZero =>
      if N.eqb c 46 then more NDot true
      else if N.eqb c 101 || N.eqb c 69 then more NExp true
      else finished
  | NInt =>
      if is_digit c then more NInt false
      else if N.eqb c 46 then more NDot true
      else if N.eqb c 101 || N.eqb c 69 then more NExp true
      else finished
  | NDot => if is_digit c then more NFrac true else Fail
  | NFrac =>
      if is_digit c then more NFrac true
      else if N.eqb c 101 || N.eqb c 69 then more NExp true
      else finished
  | NExp =>
      if N.eqb c 43 || N.eqb c 45 then more NExpSign true
      else if is_digit c then more NExpDigits true
      else Fail
  | NExpSign => if is_digit c then more NExpDigits true else Fail
  | NExpDigits => if is_digit c then more NExpDigits true else finished
  end.

Definition step (st : state) (c : char) : state :=
  match st with
  | Fail => Fail
  | Done v => resume st c
  | Run m stk =>
      match m with
      | Value => if json_ws c then st else start_value c stk
      | ValueOrEnd =>
          if json_ws c then st
          else if N.eqb c 93 then
                 match stk with
                 | InArray items :: stk' => deliver (JArray items) stk'
                 | _ => Fail
                 end
          else start_value c stk
      | KeyOrEnd =>
          if json_ws c then st
          else if N.eqb c 125 then
                 match stk with
                 | InObject members None :: stk' =>
                     deliver (JObject members) stk'
                 | _ => Fail
                 end
          else if N.eqb c 34 then Run (InStr true [] Plain) stk
          else Fail
      | Key =>
          if json_ws c then st
          else if N.eqb c 34 then Run (InStr true [] Plain) stk
          else Fail
      | Colon =>
          if json_ws c then st
          else if N.eqb c 58 then Run Value stk
          else Fail
      | After => step_after c stk
      | InStr is_key acc p => step_string is_key acc p c stk
      | InNum lexeme p is_float => step_number lexeme p is_float c stk
      | InLit l seen =>
          match nth_error (literal_text l) seen with
          | Some d =>
              if N.eqb c d then
                if Nat.eqb (S seen) (length (literal_text l))
                then deliver (literal_value l) stk
                else Run (InLit l (S seen)) stk
              else Fail
          | None => Fail
          end
      end
  end.

(** The end of the text: a value must be complete, a number may end there. *)
Definition finish (st : state) : option json :=
  match st with
  | Done v => Some v
  | Run (InNum lexeme p is_float) [] =>
      match p with
      | NZero | NInt | NFrac | NExpDigits =>
          Some (number_value lexeme is_float)
      | _ => None
      end
  | _ => None
  end.

Definition start : state := Run Value [].

Definition feed (st : state) (s : str) : state := fold_left step s st.

Definition loads (s : str) : option json := finish (feed start s).

End Json.
Import Json.

(** ** Exceptions and outcomes *)

Inductive exn : Type :=
| ValueError (msg : str)
| JSONDecodeError (msg : str) (doc : str) (pos : nat)
| AttributeError
| TypeError
| KeyError (key : str)
| IndexError
| ValidationError
| HTTPException (status_code : nat)
| CollaboratorError (msg : str)
| RecursionError.


(** [type(e) is json.JSONDecodeError] *)
Definition is_JSONDecodeError (e : exn) : bool :=
  match e with
  | JSONDecodeError _ _ _ => true
  | _ => false
  end.

Inductive outcome (A : Type) : Type :=
| Return (v : A)
| Raise (e : exn).

Arguments Return {A} v.
Arguments Raise {A} e.

(** ** [parse_util.py]: the recovery parser *)

Module Parser.

Definition fence : str := py "```".

(** The opening of [r'```json'] under [re.IGNORECASE]: each letter matches
    its two cases, and [s] also matches U+017F. *)
Definition json_tag (s : str) : bool :=
  match s with
  | a :: b :: c :: j :: s' :: o :: n :: _ =>
      N.eqb a 96 && N.eqb b 96 && N.eqb c 96
      && (N.eqb j 106 || N.eqb j 74)
      && (N.eqb s' 115 || N.eqb s' 83 || N.eqb s' 383)
      && (N.eqb o 111 || N.eqb o 79)
      && (N.eqb n 110 || N.eqb n 78)
  | _ => false
  end.

(** The first position where [opener] holds; the text before it and the
    text [width] characters after it. *)
Fixpoint cut_at (opener : str -> bool) (width : nat) (s : str)
  : option (str * str) :=
  if opener s then Some ([], skipn width s)
  else match s with
       | [] => None
       | c :: r =>
           match cut_at opener width r with
           | Some (a, b) => Some (c :: a, b)
           | None => None
           end
       end.

(** [re.findall] for a pattern [opener \s* ([\s\S]*?) \s* ```]: the groups
    in order of appearance.  A match starts at the first opener that has a
    fence after it and ends with the first such fence; the group is what
    lies between, without the whitespace at its two ends; the search
    resumes after the closing fence.  Each match consumes characters, so
    [length text] rounds are enough. *)
Fixpoint fenced_groups (opener : str -> bool) (width : nat) (fuel : nat)
  (text : str) : list str :=
  match fuel with
  | O => []
  | S fuel' =>
      match cut_at opener width text with
      | None => []
      | Some (_, inner) =>
          match cut fence inner with
          | None => []
          | Some (body, rest) =>
              strip body :: fenced_groups opener width fuel' rest
          end
      end
  end.

(** [re.findall(r'```json\s*([\s\S]*?)\s*```', text, re.IGNORECASE)] *)
Definition tagged_blocks (text : str) : list str :=
  fenced_groups json_tag 7 (length text) text.

(** [re.findall(r'```\s*([\s\S]*?)\s*```', text)] *)
Definition untagged_blocks (text : str) : list str :=
  fenced_groups (starts_with fence) 3 (length text) text.

(** [re.sub(r'//.*?$', '', s, flags=re.MULTILINE)]: from [//] to the end
    of the line, the newline kept. *)
Fixpoint strip_line_comments_aux (in_comment : bool) (s : str) : str :=
  match s with
  | [] => []
  | c :: r =>
      if in_comment then
        if N.eqb c 10 then c :: strip_line_comments_aux false r
        else strip_line_comments_aux true r
      else if starts_with (py "//") s then strip_line_comments_aux true r
      else c :: strip_line_comments_aux false r
  end.

Definition strip_line_comments (s : str) : str :=
  strip_line_comments_aux false s.

(** [re.sub(r'/\*.*?\*/', '', s, flags=re.DOTALL)]: each [/*] with the
    first [*/] after it. *)
Fixpoint strip_block_comments_aux (fuel : nat) (s : str) : str :=
  match fuel with
  | O => s
  | S fuel' =>
      match cut (py "/*") s with
      | None => s
      | Some (before, inner) =>
          match cut (py "*/") inner with
          | None => s
          | Some (_, rest) => before ++ strip_block_comments_aux fuel' rest
          end
      end
  end.

Definition strip_block_comments (s : str) : str :=
  strip_block_comments_aux (length s) s.

(** [\s*[}\]]] matches at the start of [s]. *)
Definition closer_ahead (s : str) : bool :=
  match lstrip s with
  | c :: _ => N.eqb c 125 || N.eqb c 93
  | [] => false
  end.

(** [re.sub(r',(\s*[}\]])', r'\1', s)] *)
Fixpoint remove_trailing_commas (s : str) : str :=
  match s with
  | [] => []
  | c :: r =>
      if N.eqb c 44 && closer_ahead r then remove_trailing_commas r
      else c :: remove_trailing_commas r
  end.

Definition repair (json_str : str) : str :=
  remove_trailing_commas (strip_block_comments (strip_line_comments json_str)).

(** [f"...{text[:200]}..."], the message of the final error *)
Definition extraction_message (text : str) : str :=
  [26080; 27861; 20174; 25991; 26412; 20013; 25552; 21462; 26377; 25928;
   30340; 74; 83; 79; 78; 12290; 25991; 26412; 24320; 22836; 58; 32]
  ++ firstn 200 text ++ py "...".

Definition empty_message : str := [36755; 20837; 25991; 26412; 20026; 31354].

Section RecoveryParser.

(** [json.loads]; [None] is [json.JSONDecodeError]. *)
Variable loads : str -> option json.

(** [for match in matches: try: return ... except JSONDecodeError: continue] *)
Fixpoint first_success (attempt : str -> option json) (matches : list str)
  : option json :=
  match matches with
  | [] => None
  | m :: rest =>
      match attempt m with
      | Some v => Some v
      | None => first_success attempt rest
      end
  end.

(** Strategy 1 on one match *)
Definition try_tagged (m : str) : option json := loads (strip m).

(** Strategy 2 on one match: other content is skipped. *)
Definition try_untagged (m : str) : option json :=
  match strip m with
  | (c :: _) as cleaned =>
      if N.eqb c 123 || N.eqb c 91 then loads cleaned else None
  | [] => None
  end.

(** Strategy 5: [for i in range(len(lines), 0, -1)] *)
Fixpoint shrink (lines : list str) (i : nat) : option json :=
  match i with
  | O => None
  | S j =>
      let partial := join_lines (firstn i lines) in
      if ends_with_char 125 (rstrip partial) then
        match loads partial with
        | Some v => Some v
        | None => shrink lines j
        end
      else shrink lines j
  end.

(** Strategies 3 to 5 *)
Definition brace_strategies (text : str) : option json :=
  match find 123 text, rfind 125 text with
  | Some first_brace, Some last_brace =>
      if (first_brace <? last_brace)%nat then
        let json_str := slice text first_brace (last_brace + 1) in
        match loads json_str with
        | Some v => Some v
        | None =>
            let json_str := repair json_str in
            match loads json_str with
            | Some v => Some v
            | None =>
                let lines := split_lines json_str in
                shrink lines (length lines)
            end
        end
      else None
  | _, _ => None
  end.

(** Strategy 6 *)
Definition bracket_strategy (text : str) : option json :=
  match find 91 text, rfind 93 text with
  | Some first_bracket, Some last_bracket =>
      if (first_bracket <? last_bracket)%nat then
        loads (slice text first_bracket (last_bracket + 1))
      else None
  | _, _ => None
  end.

Definition robust_json_parse (text : str) : outcome json :=
  match strip text with
  | [] => Raise (ValueError empty_message)
  | _ :: _ =>
      match first_success try_tagged (tagged_blocks text) with
      | Some v => Return v
      | None =>
      match first_success try_untagged (untagged_blocks text) with
      | Some v => Return v
      | None =>
      match brace_strategies text with
      | Some v => Return v
      | None =>
      match bracket_strategy text with
      | Some v => Return v
      | None => Raise (JSONDecodeError (extraction_message text) text 0)
      end end end end
  end.

End RecoveryParser.

(** The parser with the library decoder *)
Definition parse (text : str) : outcome json :=
  robust_json_parse Json.loads text.

End Parser.
Import Parser.

(** ** [parse_util.py] with every exception of the decoder

    [Parser.robust_json_parse] takes the decoder as a function that gives a
    value or fails, the failure being [json.JSONDecodeError].  Here the
    decoder returns a value or raises any exception, and each
    [except json.JSONDecodeError] of the source catches that class only:
    what it does not catch ends the call.  The two parsers agree for a
    decoder that raises nothing else.

    [loads_within] is [json.loads] as the interpreter runs it: the scanner
    calls itself for each container that opens inside another one, and the
    interpreter ends the call with [RecursionError] when [depth] containers
    are open and one more opens ([depth] is what the recursion limit leaves
    when the decoder is called).  The message and the position of its
    [JSONDecodeError] are not modelled; the parser never reads them. *)

Module Raising.

(** The containers that are open *)
Definition nesting (st : state) : nat :=
  match st with
  | Run _ stk => length stk
  | _ => O
  end.

Fixpoint feed_within (depth : nat) (st : state) (s : str) : outcome state :=
  match s with
  | [] => Return st
  | c :: r =>
      let st' := step st c in
      if (depth <? nesting st')%nat then Raise RecursionError
      else feed_within depth st' r
  end.

Definition loads_within (depth : nat) (s : str) : outcome json :=
  match feed_within depth start s with
  | Raise e => Raise e
  | Return st =>
      match finish st with
      | Some v => Return v
      | None => Raise (JSONDecodeError [] s 0)
      end
  end.


Section RecoveryParser.

(** [json.loads], with what it raises *)
Variable loads : str -> outcome json.

(** [try: return json.loads(s)] under [except json.JSONDecodeError]: the
    value to return, [None] when the handler goes on, or the exception that
    is not caught *)
Definition attempt (s : str) : outcome (option json) :=
  match loads s with
  | Return v => Return (Some v)
  | Raise e => if is_JSONDecodeError e then Return None else Raise e
  end.

(** [for match in matches: try: return ... except JSONDecodeError: continue] *)
Fixpoint first_success (try : str -> outcome (option json))
  (matches : list str) : outcome (option json) :=
  match matches with
  | [] => Return None
  | m :: rest =>
      match try m with
      | Return None => first_success try rest
      | ended => ended
      end
  end.

(** Strategy 1 on one match *)
Definition try_tagged (m : str) : outcome (option json) := attempt (strip m).

(** Strategy 2 on one match: other content is skipped. *)
Definition try_untagged (m : str) : outcome (option json) :=
  match strip m with
  | (c :: _) as cleaned =>
      if N.eqb c 123 || N.eqb c 91 then attempt cleaned else Return None
  | [] => Return None
  end.

(** Strategy 5: [for i in range(len(lines), 0, -1)] *)
Fixpoint shrink (lines : list str) (i : nat) : outcome (option json) :=
  match i with
  | O => Return None
  | S j =>
      let partial := join_lines (firstn i lines) in
      if ends_with_char 125 (rstrip partial) then
        match attempt partial with
        | Return None => shrink lines j
        | ended => ended
        end
      else shrink lines j
  end.

(** Strategies 3 to 5: the handlers are nested, and each catches
    [json.JSONDecodeError] only. *)
Definition brace_strategies (text : str) : outcome (option json) :=
  match find 123 text, rfind 125 text with
  | Some first_brace, Some last_brace =>
      if (first_brace <? last_brace)%nat then
        let json_str := slice text first_brace (last_brace + 1) in
        match attempt json_str with
        | Return None =>
            let json_str := repair json_str in
            match attempt json_str with
            | Return None =>
                let lines := split_lines json_str in
                shrink lines (length lines)
            | ended => ended
            end
        | ended => ended
        end
      else Return None
  | _, _ => Return None
  end.

(** Strategy 6 *)
Definition bracket_strategy (text : str) : outcome (option json) :=
  match find 91 text, rfind 93 text with
  | Some first_bracket, Some last_bracket =>
      if (first_bracket <? last_bracket)%nat then
        attempt (slice text first_bracket (last_bracket + 1))
      else Return None
  | _, _ => Return None
  end.

Definition robust_json_parse (text : str) : outcome json :=
  match strip text with
  | [] => Raise (ValueError empty_message)
  | _ :: _ =>
      match first_success try_tagged (tagged_blocks text) with
      | Raise e => Raise e
      | Return (Some v) => Return v
      | Return None =>
      match first_success try_untagged (untagged_blocks text) with
      | Raise e => Raise e
      | Return (Some v) => Return v
      | Return None =>
      match brace_strategies text with
      | Raise e => Raise e
      | Return (Some v) => Return v
      | Return None =>
      match bracket_strategy text with
      | Raise e => Raise e
      | Return (Some v) => Return v
      | Return None => Raise (JSONDecodeError (extraction_message text) text 0)
      end end end end
  end.

End RecoveryParser.


End Raising.

(** ** Python operations on decoded values *)

Module Py.

Definition bind {A B : Type} (m : outcome A) (k : A -> outcome B)
  : outcome B :=
  match m with
  | Return v => k v
  | Raise e => Raise e
  end.

Notation "x <- m ;; k" := (bind m (fun x => k))
  (at level 61, m at next level, right associativity).
Notation "m ;;; k" := (bind m (fun _ => k))
  (at level 61, right associativity).

(** [for x in xs: body(x)] for a body that only may raise *)
Fixpoint for_each {A : Type} (body : A -> outcome unit) (xs : list A)
  : outcome unit :=
  match xs with
  | [] => Return tt
  | x :: rest => body x ;;; for_each body rest
  end.

Definition is_dict (v : json) : bool :=
  match v with JObject _ => true | _ => false end.

Definition is_list (v : json) : bool :=
  match v with JArray _ => true | _ => false end.

(** [len(v)] *)
Definition len (v : json) : outcome nat :=
  match v with
  | JString s => Return (length s)
  | JArray items => Return (length items)
  | JObject members => Return (length members)
  | _ => Raise TypeError
  end.

(** [iter(v)]: the elements of a list, the characters of a string, the
    keys of a dict. *)
Definition elements (v : json) : outcome (list json) :=
  match v with
  | JArray items => Return items
  | JString s => Return (map (fun c => JString [c]) s)
  | JObject members => Return (map (fun kv => JString (fst kv)) members)
  | _ => Raise TypeError
  end.

(** [v.get(...)]: only a dict has the method. *)
Definition get_method (v : json) : outcome unit :=
  match v with
  | JObject _ => Return tt
  | _ => Raise AttributeError
  end.

(** [v.get(key, default)] *)
Definition get (v : json) (key : str) (default : json) : outcome json :=
  match v with
  | JObject members =>
      match dict_get members key with
      | Some x => Return x
      | None => Return default
      end
  | _ => Raise AttributeError
  end.

(** [v[key]] for a string key *)
Definition subscript (v : json) (key : str) : outcome json :=
  match v with
  | JObject members =>
      match dict_get members key with
      | Some x => Return x
      | None => Raise (KeyError key)
      end
  | _ => Raise TypeError
  end.

(** [l[:n]] *)
Definition slice_to {A : Type} (l : list A) (n : Z) : list A :=
  if (0 <=? n)%Z then firstn (Z.to_nat n) l
  else firstn (length l - Z.to_nat (- n)) l.

Section Truth.

(** [bool(float(lexeme))]: floating point, kept abstract. *)
Variable float_nonzero : str -> bool.

(** [bool(v)] *)
Definition truthy (v : json) : bool :=
  match v with
  | JNull => false
  | JBool b => b
  | JInt z => negb (Z.eqb z 0)
  | JFloat lexeme => float_nonzero lexeme
  | JNaN | JInfinity _ => true
  | JString s => negb (Nat.eqb (length s) 0)
  | JArray items => negb (Nat.eqb (length items) 0)
  | JObject members => negb (Nat.eqb (length members) 0)
  end.

End Truth.

End Py.
Import Py.

(** ** [generate_chain.py]: the stage adapters behind the UI

    Each adapter returns the tuple [(output, thinking, records, ...)].  The
    rendered markdown [output] and the dropdown choices are text built
    from the records; building them is modelled by the exceptions it can
    raise, the text itself is not.  [thinking] is the status line: the
    completion mark, or [Error: ] followed by the exception's text. *)

Module Chain.

Inductive status : Type :=
| Complete
| Failed (e : exn).

Record stage_result : Type := {
  thinking : status;
  records : list json
}.

Definition succeeded (r : stage_result) : bool :=
  match thinking r with Complete => true | Failed _ => false end.

(** [except Exception as e: return error_msg, f"Error: {str(e)}", []] *)
Definition finish_stage (body : outcome (list json)) : stage_result :=
  match body with
  | Return items => {| thinking := Complete; records := items |}
  | Raise e => {| thinking := Failed e; records := [] |}
  end.

(** [isinstance(result, dict) and key in result], with the value
    [result.get(key, [])] then reads *)
Definition field (result : json) (key : str) : option json :=
  match result with
  | JObject members => dict_get members key
  | _ => None
  end.

Section Adapters.

Variable loads : str -> option json.
Variable float_nonzero : str -> bool.

Definition parse_features_body (response : str) : outcome (list json) :=
  result <- robust_json_parse loads response ;;
  match field result (py "features") with
  | None => Raise (ValueError (py "Parse error: missing 'features' field"))
  | Some features =>
      empty <- match features with
               | JNull => Return true
               | _ => n <- len features ;; Return (Nat.eqb n 0)
               end ;;
      if (empty : bool) then Raise (ValueError (py "No features generated"))
      else
        items <- elements features ;;
        for_each get_method items ;;;
        for_each (fun feature =>
                    subscript feature (py "id") ;;;
                    subscript feature (py "name") ;;;
                    Return tt) items ;;;
        Return items
  end.

Definition parse_features (response : str) : stage_result :=
  finish_stage (parse_features_body response).

Definition parse_test_points_body (feature : json) (response : str)
  : outcome (list json) :=
  result <- robust_json_parse loads response ;;
  match field result (py "test_points") with
  | None => Raise (ValueError (py "Parse error: missing 'test_points' field"))
  | Some test_points =>
      if negb (truthy float_nonzero test_points)
      then Raise (ValueError (py "No test points generated"))
      else
        subscript feature (py "name") ;;;
        items <- elements test_points ;;
        for_each get_method items ;;;
        Return items
  end.

Definition parse_test_points (feature : json) (response : str)
  : stage_result :=
  finish_stage (parse_test_points_body feature response).

(** The steps of one test case: [tc.get('test_steps', [])], then the loop
    over them when the value is truthy. *)
Definition render_test_case (tc : json) : outcome unit :=
  get_method tc ;;;
  test_steps <- get tc (py "test_steps") (JArray []) ;;
  if truthy float_nonzero test_steps then
    steps <- elements test_steps ;;
    for_each get_method steps
  else Return tt.

Definition parse_test_cases_body (response : str) (feature test_point : json)
  : outcome (list json) :=
  result <- robust_json_parse loads response ;;
  match field result (py "test_cases") with
  | None => Raise (ValueError (py "Parse error: missing 'test_cases' field"))
  | Some test_cases =>
      if negb (truthy float_nonzero test_cases)
      then Raise (ValueError (py "No test cases generated"))
      else
        subscript feature (py "name") ;;;
        subscript test_point (py "name") ;;;
        items <- elements test_cases ;;
        for_each render_test_case items ;;;
        Return items
  end.

Definition parse_test_cases (response : str) (feature test_point : json)
  : stage_result :=
  finish_stage (parse_test_cases_body response feature test_point).

End Adapters.

End Chain.

(** ** [model_util.py]: the streaming collaborator

    [chunks] are the values of [chunk.choices[0].delta.content] in the
    order received, [None] where a chunk carries no content. *)

Module Model.

Fixpoint stream_from (content : str) (chunks : list (option str))
  : list str :=
  match chunks with
  | [] => []
  | None :: rest => stream_from content rest
  | Some chunk_content :: rest =>
      let content := content ++ chunk_content in
      content :: stream_from content rest
  end.

(** The snapshots [generate_response_vllm_stream] yields *)
Definition generate_response_vllm_stream (chunks : list (option str))
  : list str :=
  stream_from [] chunks.

End Model.

(** ** [generate_chain.py]: a stage that consumes a stream

    A generator is modelled by the events it produces in order; a consumer
    that abandons it sees a prefix.  The call of the recovery parser (inside
    [parse_features]) is recorded as an event of its own. *)

Module Stream.

Inductive shown : Type :=
| Warning
| Progress (partial_response : str)
| Result (r : Chain.stage_result).

Inductive event : Type :=
| Yield (s : shown)
| CallParser (text : str).

Section Stage.

Variable loads : str -> option json.

(** The loop over the snapshots, then the parse of [response_text] *)
Fixpoint stream_loop (response_text : str) (partials : list str)
  : list event :=
  match partials with
  | [] => [CallParser response_text;
           Yield (Result (Chain.parse_features loads response_text))]
  | partial_response :: rest =>
      Yield (Progress partial_response) :: stream_loop partial_response rest
  end.

Definition generate_features_for_gradio_stream (prd_text : str)
  (chunks : list (option str)) : list event :=
  match strip prd_text with
  | [] => [Yield Warning]
  | _ :: _ => stream_loop [] (Model.generate_response_vllm_stream chunks)
  end.

End Stage.

Definition parser_calls (trace : list event) : list str :=
  flat_map (fun e => match e with CallParser t => [t] | Yield _ => [] end)
           trace.

Definition snapshots_shown (trace : list event) : list str :=
  flat_map (fun e => match e with
                     | Yield (Progress p) => [p]
                     | _ => []
                     end) trace.

End Stream.

(** ** [api.py]: the stage endpoints and the full pipeline

    [reply] is what the collaborators give inside the [try]: the reply
    text of [generate_response_vllm], or the exception raised while the
    prompt is loaded, formatted or sent.  [ready] says whether the global
    client is set. *)

Module Api.

Record stage_response : Type := {
  success : bool;
  records : list json;
  raw_response : option str;
  error : option exn
}.

(** [error]: the text built from the failure of the feature stage, or
    the text of an exception caught by the pipeline itself *)
Inductive pipeline_error : Type :=
| FeatureExtractionFailed (cause : option exn)
| Unexpected (e : exn).

Record pipeline_response : Type := {
  p_success : bool;
  p_features : list json;
  p_test_points : list (nat * list json);
  p_test_cases : list ((nat * nat) * list json);
  p_error : option pipeline_error
}.

(** The field [List[dict]] of a response model: a list whose elements are
    all dicts. *)
Definition list_of_dict (v : json) : outcome (list json) :=
  match v with
  | JArray items =>
      if forallb is_dict items then Return items else Raise ValidationError
  | _ => Raise ValidationError
  end.

Section Endpoints.

Variable loads : str -> option json.

(** The [try] block shared by the three endpoints, which differ in the
    prompt and in the key; [except Exception] turns every exception into a
    failure response. *)
Definition respond (key : str) (reply : outcome str) : stage_response :=
  let body :=
    response <- reply ;;
    result <- robust_json_parse loads response ;;
    value <- get result key (JArray []) ;;
    items <- list_of_dict value ;;
    Return {| success := true; records := items;
              raw_response := Some response; error := None |} in
  match body with
  | Return r => r
  | Raise e => {| success := false; records := [];
                  raw_response := None; error := Some e |}
  end.

(** An endpoint: the check of the global client, then the [try] block. *)
Definition stage (key : str) (ready : bool) (reply : outcome str)
  : outcome stage_response :=
  if negb ready then Raise (HTTPException 400)
  else Return (respond key reply).

Definition extract_features := stage (py "features").
Definition generate_test_points := stage (py "test_points").
Definition generate_test_cases := stage (py "test_cases").

Record request : Type := {
  max_features : option Z;
  max_test_points_per_feature : option Z
}.

(** [if limit: l = l[:limit]] *)
Definition cap {A : Type} (limit : option Z) (l : list A) : list A :=
  match limit with
  | Some n => if Z.eqb n 0 then l else slice_to l n
  | None => l
  end.

(** The replies of the sub-calls, by stage position *)
Record replies : Type := {
  features_reply : outcome str;
  test_points_reply : nat -> outcome str;
  test_cases_reply : nat -> nat -> outcome str
}.

Variable req : request.
Variable env : replies.
Variable ready : bool.

Definition failure (e : pipeline_error) : pipeline_response :=
  {| p_success := false; p_features := []; p_test_points := [];
     p_test_cases := []; p_error := Some e |}.

(** Step 2: [for i, feature in enumerate(features)] *)
Fixpoint test_points_loop (i : nat) (features : list json)
  : outcome (list (nat * list json)) :=
  match features with
  | [] => Return []
  | feature :: rest =>
      tp_response <- generate_test_points ready (test_points_reply env i) ;;
      others <- test_points_loop (S i) rest ;;
      if success tp_response
      then Return ((i, cap (max_test_points_per_feature req)
                          (records tp_response)) :: others)
      else Return others
  end.

(** Step 3, inner loop: [for tp_idx, test_point in enumerate(test_points)] *)
Fixpoint test_cases_inner (feature_idx tp_idx : nat) (test_points : list json)
  : outcome (list ((nat * nat) * list json)) :=
  match test_points with
  | [] => Return []
  | test_point :: rest =>
      tc_response <-
        generate_test_cases ready (test_cases_reply env feature_idx tp_idx) ;;
      others <- test_cases_inner feature_idx (S tp_idx) rest ;;
      if success tc_response
      then Return (((feature_idx, tp_idx), records tc_response) :: others)
      else Return others
  end.

(** Step 3, outer loop: [for feature_idx, test_points in
    all_test_points.items()], with [features[int(feature_idx)]] *)
Fixpoint test_cases_loop (features : list json)
  (all_test_points : list (nat * list json))
  : outcome (list ((nat * nat) * list json)) :=
  match all_test_points with
  | [] => Return []
  | (feature_idx, test_points) :: rest =>
      match nth_error features feature_idx with
      | None => Raise IndexError
      | Some _ =>
          here <- test_cases_inner feature_idx 0 test_points ;;
          others <- test_cases_loop features rest ;;
          Return (here ++ others)
      end
  end.

Definition run_full_pipeline : outcome pipeline_response :=
  if negb ready then Raise (HTTPException 400)
  else
    let body :=
      features_response <- extract_features ready (features_reply env) ;;
      if negb (success features_response)
      then Return (failure
                     (FeatureExtractionFailed (error features_response)))
      else
        let features := cap (max_features req) (records features_response) in
        all_test_points <- test_points_loop 0 features ;;
        all_test_cases <- test_cases_loop features all_test_points ;;
        Return {| p_success := true; p_features := features;
                  p_test_points := all_test_points;
                  p_test_cases := all_test_cases; p_error := None |} in
    match body with
    | Return r => Return r
    | Raise e => Return (failure (Unexpected e))
    end.

End Endpoints.

End Api.

(** ** [str] and [int] on integers, and the text of a value

    [str(k)], [int(s)] and [format] belong to the interpreter.  [int] is
    modelled on [PyLong_FromUnicodeObject]: the text is brought to ASCII
    (a space above ASCII becomes a blank, a decimal digit above ASCII its
    ASCII digit, anything else above ASCII ends the text with a question
    mark), then read as blanks, an optional sign, digits with single
    underscores between them, blanks.  [None] stands for the [ValueError]
    it raises.  The interpreter's limit on the number of digits of a
    conversion is not modelled. *)

Module Num.

(** The decimal digits of [n], the most significant first *)
Fixpoint digits_of (fuel : nat) (n : N) (acc : str) : str :=
  match fuel with
  | O => acc
  | S fuel' =>
      let acc' := (48 + n mod 10) :: acc in
      if n / 10 =? 0 then acc' else digits_of fuel' (n / 10) acc'
  end.

Definition str_of_N (n : N) : str :=
  digits_of (S (N.to_nat (N.size n))) n [].

(** [str(k)] *)
Definition str_of_int (k : Z) : str :=
  match k with
  | Z0 => [48]
  | Zpos p => str_of_N (Npos p)
  | Zneg p => 45 :: str_of_N (Npos p)
  end.

(** [Py_ISSPACE] *)
Definition ascii_space (c : char) : bool :=
  ((9 <=? c) && (c <=? 13)) || N.eqb c 32.

Fixpoint skip_spaces (s : str) : str :=
  match s with
  | c :: r => if ascii_space c then skip_spaces r else s
  | [] => []
  end.

(** Digits with single underscores between them, at the start of [s]: their
    value after [acc], and the rest of the text.  [prev] is the character
    read last; a doubled underscore, or one that no digit follows, is an
    error. *)
Fixpoint scan_digits (acc : Z) (prev : char) (s : str) : option (Z * str) :=
  match s with
  | c :: r =>
      if is_digit c then scan_digits (10 * acc + Z.of_N (c - 48))%Z c r
      else if N.eqb c 95 then
             if N.eqb prev 95 then None else scan_digits acc c r
           else if N.eqb prev 95 then None else Some (acc, s)
  | [] => if N.eqb prev 95 then None else Some (acc, [])
  end.

(** [PyLong_FromString(s, &end, 10)] with the check that [end] is the end
    of the text *)
Definition int_of_ascii (s : str) : option Z :=
  let s := skip_spaces s in
  let signed :=
    match s with
    | 43 :: r => (false, r)
    | 45 :: r => (true, r)
    | _ => (false, s)
    end in
  match snd signed with
  | c :: _ =>
      if is_digit c then
        match scan_digits 0 0 (snd signed) with
        | Some (v, rest) =>
            match skip_spaces rest with
            | [] => Some (if fst signed then (- v)%Z else v)
            | _ :: _ => None
            end
        | None => None
        end
      else None
  | [] => None
  end.

Section Int.

(** [Py_UNICODE_TODECIMAL] above ASCII: the digit value the Unicode
    database gives a code point, if it is a decimal digit *)
Variable unicode_decimal : char -> option N.

(** [_PyUnicode_TransformDecimalAndSpaceToASCII] on a text that is not all
    ASCII *)
Fixpoint transform (s : str) : str :=
  match s with
  | [] => []
  | c :: r =>
      if c <? 127 then c :: transform r
      else if is_space c then 32 :: transform r
      else match unicode_decimal c with
           | Some d => (48 + d) :: transform r
           | None => [63]
           end
  end.

Definition to_ascii (s : str) : str :=
  if forallb (fun c => c <? 128) s then s else transform s.

(** [int(s)] for a [str] *)
Definition int (s : str) : option Z := int_of_ascii (to_ascii s).

End Int.

Section Text.

(** [repr(v)] for a float, a list, a dict or a string: not modelled *)
Variable repr_of : json -> str.

(** [f"{v}"], which is [str(v)] for the values the decoder builds *)
Definition text_of (v : json) : str :=
  match v with
  | JNull => py "None"
  | JBool b => if b then py "True" else py "False"
  | JInt k => str_of_int k
  | JString s => s
  | JNaN => py "nan"
  | JInfinity negative => if negative then py "-inf" else py "inf"
  | JFloat _ | JArray _ | JObject _ => repr_of v
  end.

(** The message of the [ValueError] of [int(s)]: the repr is cut at 200
    characters *)
Definition invalid_literal (s : str) : str :=
  py "invalid literal for int() with base 10: "
  ++ firstn 200 (repr_of (JString s)).

End Text.

End Num.
Import Num.

(** ** [generate_chain.py]: the stages behind the UI and the session data

    [global_data] is the dict that [app.py] creates with all its keys and
    hands to every stage; the stages of [generate_chain.py] read and write
    the four entries kept here.  A dict is kept as an association list in
    insertion order.  A choice is the value of a dropdown: [None], or a
    text.  The streaming stages are generators: a run is the list of its
    events, the exception that ended it (if one did) and the session data it
    leaves.  Loading and filling the prompt templates is taken to succeed
    once the fields the prompt names have been read. *)

Module Ui.

Record global_data : Type := {
  prd_text : str;
  features : list json;
  test_points : list (Z * list json);
  test_cases : list ((Z * Z) * list json)
}.

Section Dict.

Context {K V : Type}.
Variable eqb : K -> K -> bool.

(** [d.get(k)], and with it [k in d] *)
Fixpoint getitem (d : list (K * V)) (k : K) : option V :=
  match d with
  | [] => None
  | (k', v) :: rest => if eqb k' k then Some v else getitem rest k
  end.

(** [d[k] = v] *)
Fixpoint setitem (d : list (K * V)) (k : K) (v : V) : list (K * V) :=
  match d with
  | [] => [(k, v)]
  | (k', v') :: rest =>
      if eqb k' k then (k', v) :: rest else (k', v') :: setitem rest k v
  end.

End Dict.

Definition pair_eqb (a b : Z * Z) : bool :=
  Z.eqb (fst a) (fst b) && Z.eqb (snd a) (snd b).

(** [l[i]] for a list: a negative index counts from the end. *)
Definition item {A : Type} (l : list A) (i : Z) : outcome A :=
  let n := Z.of_nat (length l) in
  let j := if (i <? 0)%Z then (i + n)%Z else i in
  if (j <? 0)%Z || (n <=? j)%Z then Raise IndexError
  else match nth_error l (Z.to_nat j) with
       | Some x => Return x
       | None => Raise IndexError
       end.

(** [[f(x) for x in l]] *)
Fixpoint collect {A B : Type} (f : A -> outcome B) (l : list A)
  : outcome (list B) :=
  match l with
  | [] => Return []
  | x :: rest => y <- f x ;; ys <- collect f rest ;; Return (y :: ys)
  end.

(** [current and current == choice] *)
Definition same_choice (current : option str) (choice : str) : bool :=
  match current with
  | Some ((_ :: _) as c) => str_eqb c choice
  | _ => false
  end.

(** [s.split(".")[0]] *)
Definition before_dot (s : str) : str :=
  match cut [46] s with
  | Some (head, _) => head
  | None => s
  end.

Inductive warning : Type :=
| PleaseInputPrd
| PleaseSelectFeature
| InvalidFeatureIndex
| PleaseSelectFeatureAndTestPoint
| TestPointsNotGenerated
| InvalidTestPointIndex.

(** What a stage yields or returns: a tuple with one entry for each output
    of the stage (four for the features stage, three for the test-point
    stage, two for the test-case stage).  It is a warning, the text
    generated so far, or the result of the stage with the choices for the
    dropdown, if it sets them.  [WarnPair] is the warning as a pair, with
    no entry for the dropdown: the test-point stage without streaming
    returns it for a feature number out of range, where the streaming stage
    yields the triple. *)
Inductive shown : Type :=
| Warn (w : warning)
| WarnPair (w : warning)
| Progress (partial_response : str)
| Result (r : Chain.stage_result) (choices : option (list str)).

Inductive event : Type :=
| Yield (s : shown)
| CallParser (text : str).

Record run : Type := {
  trace : list event;
  raised : option exn;
  after : global_data
}.

(** A call of a stage that is not a generator: what it returns or raises,
    and the session data it leaves *)
Record call : Type := {
  returns : outcome shown;
  leaves : global_data
}.

Definition warned (w : warning) (gd : global_data) : run :=
  {| trace := [Yield (Warn w)]; raised := None; after := gd |}.

Definition crashed (e : exn) (gd : global_data) : run :=
  {| trace := []; raised := Some e; after := gd |}.

(** [for partial_response in ...: response_text = partial_response; yield
    ...]: the events, and [response_text] after the loop *)
Fixpoint stream_loop (response_text : str) (partials : list str)
  : list event * str :=
  match partials with
  | [] => ([], response_text)
  | partial_response :: rest =>
      let later := stream_loop partial_response rest in
      (Yield (Progress partial_response) :: fst later, snd later)
  end.

Definition parser_calls (t : list event) : list str :=
  flat_map (fun e => match e with CallParser x => [x] | Yield _ => [] end) t.

Definition snapshots_shown (t : list event) : list str :=
  flat_map (fun e => match e with
                     | Yield (Progress p) => [p]
                     | _ => []
                     end) t.

Definition warnings_shown (t : list event) : list warning :=
  flat_map (fun e => match e with
                     | Yield (Warn w) => [w]
                     | _ => []
                     end) t.

Section Stages.

Variable loads : str -> option json.
Variable float_nonzero : str -> bool.
Variable unicode_decimal : char -> option N.
Variable repr_of : json -> str.

(** [int(choice.split(".")[0])] *)
Definition leading_int (choice : str) : outcome Z :=
  let head := before_dot choice in
  match Num.int unicode_decimal head with
  | Some k => Return k
  | None => Raise (ValueError (Num.invalid_literal repr_of head))
  end.

(** [f"{record['id']}. {record['name']}"] *)
Definition choice_text (record : json) : outcome str :=
  id <- subscript record (py "id") ;;
  name <- subscript record (py "name") ;;
  Return (Num.text_of repr_of id ++ py ". " ++ Num.text_of repr_of name).

(** The choices [parse_features] returns beside its records: one text for
    each record, none for a failed stage. *)
Definition features_choices (r : Chain.stage_result) : list str :=
  match collect choice_text (Chain.records r) with
  | Return choices => choices
  | Raise _ => []
  end.

Definition get_test_point_choices (gd : global_data)
  (feature_choice : option str) : outcome (list str) :=
  match feature_choice with
  | Some ((_ :: _) as choice) =>
      feature_id <- leading_int choice ;;
      let feature_idx := (feature_id - 1)%Z in
      match getitem Z.eqb (test_points gd) feature_idx with
      | None => Return []
      | Some stored => collect choice_text stored
      end
  | _ => Return []
  end.

Definition generate_features_for_gradio_stream (gd : global_data)
  (prd_text : str) (chunks : list (option str)) : run :=
  match strip prd_text with
  | [] => warned PleaseInputPrd gd
  | _ :: _ =>
      let streamed :=
        stream_loop [] (Model.generate_response_vllm_stream chunks) in
      let response_text := snd streamed in
      let r := Chain.parse_features loads response_text in
      {| trace := fst streamed
                  ++ [CallParser response_text;
                      Yield (Result r (Some (features_choices r)))];
         raised := None;
         after := {| prd_text := prd_text;
                     features := Chain.records r;
                     test_points := test_points gd;
                     test_cases := test_cases gd |} |}
  end.

Definition generate_test_points_for_gradio_stream (gd : global_data)
  (feature_choice current_feature_choice_step3 : option str)
  (chunks : list (option str)) : run :=
  match feature_choice with
  | Some ((_ :: _) as choice) =>
      match leading_int choice with
      | Raise e => crashed e gd
      | Return feature_id =>
          let feature_idx := (feature_id - 1)%Z in
          if (feature_idx <? 0)%Z
             || (Z.of_nat (length (features gd)) <=? feature_idx)%Z
          then warned InvalidFeatureIndex gd
          else
            let prompt :=
              feature <- item (features gd) feature_idx ;;
              subscript feature (py "name") ;;;
              subscript feature (py "description") ;;;
              Return feature in
            match prompt with
            | Raise e => crashed e gd
            | Return feature =>
                let streamed :=
                  stream_loop []
                    (Model.generate_response_vllm_stream chunks) in
                let response_text := snd streamed in
                let r := Chain.parse_test_points loads float_nonzero
                           feature response_text in
                let gd' :=
                  {| prd_text := prd_text gd;
                     features := features gd;
                     test_points := setitem Z.eqb (test_points gd)
                                      feature_idx (Chain.records r);
                     test_cases := test_cases gd |} in
                let parsed := fst streamed ++ [CallParser response_text] in
                if same_choice current_feature_choice_step3 choice then
                  match get_test_point_choices gd' feature_choice with
                  | Return choices =>
                      {| trace := parsed ++ [Yield (Result r (Some choices))];
                         raised := None; after := gd' |}
                  | Raise e =>
                      {| trace := parsed; raised := Some e; after := gd' |}
                  end
                else
                  {| trace := parsed ++ [Yield (Result r None)];
                     raised := None; after := gd' |}
            end
      end
  | _ => warned PleaseSelectFeature gd
  end.

Definition generate_test_cases_for_gradio_stream (gd : global_data)
  (feature_choice tp_choice : option str) (chunks : list (option str))
  : run :=
  match feature_choice, tp_choice with
  | Some ((_ :: _) as fc), Some ((_ :: _) as tc) =>
      match (feature_index <- leading_int fc ;;
             test_point_index <- leading_int tc ;;
             Return (feature_index, test_point_index)) with
      | Raise e => crashed e gd
      | Return (feature_index, test_point_index) =>
          let feature_idx := (feature_index - 1)%Z in
          let test_point_idx := (test_point_index - 1)%Z in
          match getitem Z.eqb (test_points gd) feature_idx with
          | None => warned TestPointsNotGenerated gd
          | Some stored =>
              if (test_point_idx <? 0)%Z
                 || (Z.of_nat (length stored) <=? test_point_idx)%Z
              then warned InvalidTestPointIndex gd
              else
                let prompt :=
                  feature <- item (features gd) feature_idx ;;
                  test_point <- item stored test_point_idx ;;
                  subscript feature (py "name") ;;;
                  subscript test_point (py "name") ;;;
                  subscript test_point (py "description") ;;;
                  subscript test_point (py "type") ;;;
                  subscript test_point (py "priority") ;;;
                  subscript test_point (py "precondition") ;;;
                  subscript test_point (py "expected_result") ;;;
                  Return (feature, test_point) in
                match prompt with
                | Raise e => crashed e gd
                | Return (feature, test_point) =>
                    let streamed :=
                      stream_loop []
                        (Model.generate_response_vllm_stream chunks) in
                    let response_text := snd streamed in
                    let r := Chain.parse_test_cases loads float_nonzero
                               response_text feature test_point in
                    {| trace := fst streamed
                                ++ [CallParser response_text;
                                    Yield (Result r None)];
                       raised := None;
                       after :=
                         {| prd_text := prd_text gd;
                            features := features gd;
                            test_points := test_points gd;
                            test_cases :=
                              setitem pair_eqb (test_cases gd)
                                (feature_idx, test_point_idx)
                                (Chain.records r) |} |}
                end
          end
      end
  | _, _ => warned PleaseSelectFeatureAndTestPoint gd
  end.

(** The stages without streaming: [response] is the reply of the model,
    which [generate_features], [generate_test_points] and
    [generate_test_cases] hand to the adapter once the prompt is built. *)

Definition generate_features_for_gradio (gd : global_data) (prd_text : str)
  (response : str) : call :=
  let r := Chain.parse_features loads response in
  {| returns := Return (Result r (Some (features_choices r)));
     leaves := {| prd_text := prd_text;
                  features := Chain.records r;
                  test_points := test_points gd;
                  test_cases := test_cases gd |} |}.

(** [generate_test_points]: the prompt reads the two fields of the feature,
    then the reply is parsed. *)
Definition generate_test_points (feature : json) (response : str)
  : outcome Chain.stage_result :=
  subscript feature (py "name") ;;;
  subscript feature (py "description") ;;;
  Return (Chain.parse_test_points loads float_nonzero feature response).

Definition generate_test_points_for_gradio (gd : global_data)
  (feature_choice current_feature_choice_step3 : option str)
  (response : str) : call :=
  match feature_choice with
  | None => {| returns := Raise AttributeError; leaves := gd |}
  | Some choice =>
      match leading_int choice with
      | Raise e => {| returns := Raise e; leaves := gd |}
      | Return feature_id =>
          let feature_idx := (feature_id - 1)%Z in
          if (feature_idx <? 0)%Z
             || (Z.of_nat (length (features gd)) <=? feature_idx)%Z
          then {| returns := Return (WarnPair InvalidFeatureIndex);
                  leaves := gd |}
          else
            match (feature <- item (features gd) feature_idx ;;
                   r <- generate_test_points feature response ;;
                   Return r) with
            | Raise e => {| returns := Raise e; leaves := gd |}
            | Return r =>
                let gd' :=
                  {| prd_text := prd_text gd;
                     features := features gd;
                     test_points := setitem Z.eqb (test_points gd)
                                      feature_idx (Chain.records r);
                     test_cases := test_cases gd |} in
                if same_choice current_feature_choice_step3 choice then
                  match get_test_point_choices gd' feature_choice with
                  | Return choices =>
                      {| returns := Return (Result r (Some choices));
                         leaves := gd' |}
                  | Raise e => {| returns := Raise e; leaves := gd' |}
                  end
                else {| returns := Return (Result r None); leaves := gd' |}
            end
      end
  end.

(** [generate_test_cases]: the prompt reads the name of the feature and
    six fields of the test point, then the reply is parsed. *)
Definition generate_test_cases (feature test_point : json) (response : str)
  : outcome Chain.stage_result :=
  subscript feature (py "name") ;;;
  subscript test_point (py "name") ;;;
  subscript test_point (py "description") ;;;
  subscript test_point (py "type") ;;;
  subscript test_point (py "priority") ;;;
  subscript test_point (py "precondition") ;;;
  subscript test_point (py "expected_result") ;;;
  Return (Chain.parse_test_cases loads float_nonzero response feature
            test_point).

Definition generate_test_cases_for_gradio (gd : global_data)
  (feature_choice tp_choice : option str) (response : str) : call :=
  match feature_choice, tp_choice with
  | Some ((_ :: _) as fc), Some ((_ :: _) as tc) =>
      match (feature_index <- leading_int fc ;;
             test_point_index <- leading_int tc ;;
             Return (feature_index, test_point_index)) with
      | Raise e => {| returns := Raise e; leaves := gd |}
      | Return (feature_index, test_point_index) =>
          let feature_idx := (feature_index - 1)%Z in
          let test_point_idx := (test_point_index - 1)%Z in
          match getitem Z.eqb (test_points gd) feature_idx with
          | None => {| returns := Return (Warn TestPointsNotGenerated);
                       leaves := gd |}
          | Some stored =>
              if (test_point_idx <? 0)%Z
                 || (Z.of_nat (length stored) <=? test_point_idx)%Z
              then {| returns := Return (Warn InvalidTestPointIndex);
                      leaves := gd |}
              else
                match (feature <- item (features gd) feature_idx ;;
                       test_point <- item stored test_point_idx ;;
                       r <- generate_test_cases feature test_point
                              response ;;
                       Return r) with
                | Raise e => {| returns := Raise e; leaves := gd |}
                | Return r =>
                    {| returns := Return (Result r None);
                       leaves :=
                         {| prd_text := prd_text gd;
                            features := features gd;
                            test_points := test_points gd;
                            test_cases :=
                              setitem pair_eqb (test_cases gd)
                                (feature_idx, test_point_idx)
                                (Chain.records r) |} |}
                end
          end
      end
  | _, _ => {| returns := Return (Warn PleaseSelectFeatureAndTestPoint);
               leaves := gd |}
  end.

End Stages.

End Ui.

(** ** [export_util.py] and [app.py]: the keys of an exported file

    An exported file holds JSON objects, whose keys are texts:
    [export_data_to_dict] writes the keys of the session's two mappings as
    texts, and [load_export_handler] reads the keys of the file's mappings
    back.  Writing the file and reading it belong to [json]; the entries
    are taken in the order of the mapping. *)

Module ExportUtil.

(** [f"{key[0]},{key[1]}"] *)
Definition pair_key (key : Z * Z) : str :=
  str_of_int (fst key) ++ [44] ++ str_of_int (snd key).

(** [export_data["test_points"]], filled by the first loop *)
Definition export_test_points (d : list (Z * list json))
  : list (str * list json) :=
  fold_left
    (fun out entry =>
       Ui.setitem str_eqb out (str_of_int (fst entry)) (snd entry))
    d [].

(** [export_data["test_cases"]], filled by the second loop; the keys of the
    session are pairs. *)
Definition export_test_cases (d : list ((Z * Z) * list json))
  : list (str * list json) :=
  fold_left
    (fun out entry => Ui.setitem str_eqb out (pair_key (fst entry)) (snd entry))
    d [].

(** [k.split(",")] *)
Fixpoint split_commas (s : str) : list str :=
  match s with
  | [] => [[]]
  | c :: r =>
      if N.eqb c 44 then [] :: split_commas r
      else match split_commas r with
           | p :: ps => (c :: p) :: ps
           | [] => [[c]]
           end
  end.

Section Load.

Variable unicode_decimal : char -> option N.
Variable repr_of : json -> str.

(** [int(s)], with its error *)
Definition to_int (s : str) : outcome Z :=
  match Num.int unicode_decimal s with
  | Some k => Return k
  | None => Raise (ValueError (Num.invalid_literal repr_of s))
  end.

(** [{int(k): v for k, v in d.items()}], continued from [out] *)
Fixpoint load_test_points_from (out : list (Z * list json))
  (d : list (str * list json)) : outcome (list (Z * list json)) :=
  match d with
  | [] => Return out
  | (k, v) :: rest =>
      i <- to_int k ;;
      load_test_points_from (Ui.setitem Z.eqb out i v) rest
  end.

Definition load_test_points (d : list (str * list json))
  : outcome (list (Z * list json)) :=
  load_test_points_from [] d.

(** The loop over the file's [test_cases]: a key that does not have two
    parts is passed over. *)
Fixpoint load_test_cases_from (out : list ((Z * Z) * list json))
  (d : list (str * list json)) : outcome (list ((Z * Z) * list json)) :=
  match d with
  | [] => Return out
  | (k, v) :: rest =>
      match split_commas k with
      | [a; b] =>
          i <- to_int a ;;
          j <- to_int b ;;
          load_test_cases_from (Ui.setitem Ui.pair_eqb out (i, j) v) rest
      | _ => load_test_cases_from out rest
      end
  end.

Definition load_test_cases (d : list (str * list json))
  : outcome (list ((Z * Z) * list json)) :=
  load_test_cases_from [] d.

End Load.

End ExportUtil.

(** ** Notions used in the statements *)

Module Notions.

(** The frame at the bottom of the stack: the container the text opened
    with *)
Fixpoint bottom (stk : list frame) : option frame :=
  match stk with
  | [] => None
  | [f] => Some f
  | _ :: rest => bottom rest
  end.

Definition frame_is_object (f : frame) : bool :=
  match f with InObject _ _ => true | InArray _ => false end.

Definition kind_is (object : bool) (v : json) : bool :=
  if object then is_dict v else is_list v.

(** The decoder is inside, or has completed, a top-level object
    ([object = true]) or array ([object = false]). *)
Definition rooted (object : bool) (st : state) : Prop :=
  match st with
  | Fail => True
  | Done v => kind_is object v = true
  | Run _ stk =>
      match bottom stk with
      | Some f => frame_is_object f = object
      | None => False
      end
  end.

(** A mapping or an array *)
Definition is_container (v : json) : bool := is_dict v || is_list v.

(** [b] is [a] with something appended; strictly so when that is not
    empty. *)
Definition extends (a b : str) : Prop := exists d, b = a ++ d.

Definition strictly_extends (a b : str) : Prop :=
  exists d, d <> [] /\ b = a ++ d.

(** [R] holds between each element and the next. *)
Fixpoint consecutive {A : Type} (R : A -> A -> Prop) (l : list A) : Prop :=
  match l with
  | a :: (b :: _) as rest => R a b /\ consecutive R rest
  | _ => True
  end.

(** The contents the chunks carry, in order *)
Definition contents (chunks : list (option str)) : list str :=
  flat_map (fun c => match c with Some x => [x] | None => [] end) chunks.

(** The snapshot that comes before snapshot number [k] (counted from 0):
    the empty text before the first one *)
Definition previous (snapshots : list str) (k : nat) : str :=
  match k with
  | O => []
  | S j => nth j snapshots []
  end.

(** [d.get(key)] for the two result maps of the pipeline *)
Fixpoint lookup_feature (i : nat) (d : list (nat * list json))
  : option (list json) :=
  match d with
  | [] => None
  | (k, v) :: rest => if Nat.eqb k i then Some v else lookup_feature i rest
  end.

Fixpoint lookup_pair (i j : nat) (d : list ((nat * nat) * list json))
  : option (list json) :=
  match d with
  | [] => None
  | ((k, l), v) :: rest =>
      if Nat.eqb k i && Nat.eqb l j then Some v else lookup_pair i j rest
  end.

(** What one sub-call of the pipeline leaves in its slot: the records of a
    successful response, nothing for a failed one. *)
Definition test_points_slot (loads : str -> option json) (req : Api.request)
  (env : Api.replies) (i : nat) : option (list json) :=
  let tp_response :=
    Api.respond loads (py "test_points") (Api.test_points_reply env i) in
  if Api.success tp_response
  then Some (Api.cap (Api.max_test_points_per_feature req)
               (Api.records tp_response))
  else None.

Definition test_cases_slot (loads : str -> option json) (env : Api.replies)
  (i j : nat) : option (list json) :=
  let tc_response :=
    Api.respond loads (py "test_cases") (Api.test_cases_reply env i j) in
  if Api.success tc_response then Some (Api.records tc_response) else None.

(** A text that runs from an opening brace to a closing brace, or from an
    opening bracket to a closing bracket *)
Definition object_text (s : str) : bool :=
  starts_with [123] s && ends_with_char 125 s.

Definition array_text (s : str) : bool :=
  starts_with [91] s && ends_with_char 93 s.

(** Some comma of [s] is followed, after optional whitespace, by a closing
    brace or bracket. *)
Fixpoint has_trailing_comma (s : str) : bool :=
  match s with
  | [] => false
  | c :: r => (N.eqb c 44 && closer_ahead r) || has_trailing_comma r
  end.

(** [text] is [whole] cut after one of its line boundaries, with something
    left out. *)
Definition truncated_after_line (whole text : str) : Prop :=
  exists rest,
    whole = text ++ rest /\ rest <> [] /\ ends_with_char 10 text = true.

(** The value of the longest prefix of whole lines of [text] that ends,
    trailing whitespace apart, with a closing brace and decodes *)
Definition longest_closed_prefix (loads : str -> option json) (text : str)
  : option json :=
  let lines := split_lines text in
  shrink loads lines (length lines).

(** The text from the first opening brace to the last closing brace, when
    the first comes before the last: what strategies 3 to 5 work on *)
Definition brace_slice (text : str) : option str :=
  match find 123 text, rfind 125 text with
  | Some first_brace, Some last_brace =>
      if (first_brace <? last_brace)%nat
      then Some (slice text first_brace (last_brace + 1))
      else None
  | _, _ => None
  end.

(** The first [k] lines of [s] *)
Definition first_lines (s : str) (k : nat) : str :=
  join_lines (firstn k (split_lines s)).

(** [s] ends, trailing whitespace apart, with a closing brace. *)
Definition closed (s : str) : bool := ends_with_char 125 (rstrip s).

End Notions.
Import Notions.

(** ** Shapes of replies and texts, used in the statements *)

Module Shapes.

(** [v] is a mapping that has [key]. *)
Definition has_key (key : str) (v : json) : bool :=
  match v with
  | JObject members =>
      match dict_get members key with
      | Some _ => true
      | None => false
      end
  | _ => false
  end.

(** A mapping with the keys [id] and [name] *)
Definition feature_record (v : json) : bool :=
  has_key (py "id") v && has_key (py "name") v.

(** A mapping whose [test_steps], when present and not empty (or
    otherwise false), is an array of mappings *)
Definition steps_renderable (float_nonzero : str -> bool) (tc : json)
  : bool :=
  match tc with
  | JObject members =>
      match dict_get members (py "test_steps") with
      | None => true
      | Some steps =>
          if truthy float_nonzero steps then
            match steps with
            | JArray items => forallb is_dict items
            | _ => false
            end
          else true
      end
  | _ => false
  end.

(** [result.get(key, [])] on the members of a mapping *)
Definition entry_or_empty (members : list (str * json)) (key : str) : json :=
  match dict_get members key with
  | Some v => v
  | None => JArray []
  end.

(** The errors of reading a choice or a field: [ValueError], [KeyError],
    [TypeError] *)
Definition is_lookup_error (e : exn) : bool :=
  match e with
  | ValueError _ | KeyError _ | TypeError => true
  | _ => false
  end.

(** A mapping that has each of [keys] *)
Definition has_keys (keys : list str) (v : json) : bool :=
  forallb (fun key => has_key key v) keys.

(** A generator run and a plain call end alike: the same session data, and
    the value returned is the last one yielded, or the same exception. *)
Definition ends_like (c : Ui.call) (r : Ui.run) : Prop :=
  Ui.leaves c = Ui.after r /\
  match Ui.returns c with
  | Return s => Ui.raised r = None /\
                exists before, Ui.trace r = before ++ [Ui.Yield s]
  | Raise e => Ui.raised r = Some e
  end.

(** A character of plain prose: no backtick, brace or bracket *)
Definition prose_char (c : char) : bool :=
  negb (existsb (N.eqb c) [96; 123; 125; 91; 93]).

(** The value the strategies find in a text that is not blank: the first
    tagged block that decodes, else the first untagged one, else the brace
    slice (as it is, repaired, or cut back to whole lines), else the
    bracket slice *)
Definition strategies (loads : str -> option json) (text : str)
  : option json :=
  match first_success (try_tagged loads) (tagged_blocks text) with
  | Some v => Some v
  | None =>
      match first_success (try_untagged loads) (untagged_blocks text) with
      | Some v => Some v
      | None =>
          match brace_strategies loads text with
          | Some v => Some v
          | None => bracket_strategy loads text
          end
      end
  end.

(** No [opener] of the text comes before its last [closer]. *)
Definition no_pair (opener closer : char) (text : str) : bool :=
  match find opener text, rfind closer text with
  | Some i, Some j => negb (i <? j)%nat
  | _, _ => true
  end.

(** [a] is [b] with some characters left out. *)
Inductive subsequence : str -> str -> Prop :=
| sub_nil : subsequence [] []
| sub_keep (c : char) (a b : str) :
    subsequence a b -> subsequence (c :: a) (c :: b)
| sub_drop (c : char) (a b : str) :
    subsequence a b -> subsequence a (c :: b).

(** The snapshot after [k] chunks with content *)
Definition snapshot (chunks : list (option str)) (k : nat) : str :=
  concat (firstn k (contents chunks)).

(** [a] is the beginning of [b]. *)
Definition prefix_of {A : Type} (a b : list A) : Prop :=
  exists rest, b = a ++ rest.

End Shapes.
Import Shapes.

Ltac split_cases :=
  repeat match goal with
         | |- context [match ?x with _ => _ end] => is_var x; destruct x
         | |- context [if ?b then _ else _] => destruct b eqn:?
         | |- context [match ?x with _ => _ end] => destruct x eqn:?
         end.


(** * Properties *)

(** ** Facts about strings *)

Section StrFacts.

Lemma is_space_in (c : char) : is_space c = true -> In c space_chars.
Proof.
  unfold is_space. intros H. apply existsb_exists in H.
  destruct H as [x [Hin Heq]]. apply N.eqb_eq in Heq. now subst.
Qed.

Lemma lstrip_spaces (w s : str) :
  Forall (fun c => is_space c = true) w -> lstrip (w ++ s) = lstrip s.
Proof.
  induction 1 as [|c w Hc _ IH]; simpl; [reflexivity|].
  now rewrite Hc.
Qed.

Lemma lstrip_split (s : str) :
  exists w, s = w ++ lstrip s /\ Forall (fun c => is_space c = true) w.
Proof.
  induction s as [|c r IH]; simpl.
  - exists []. split; [reflexivity | constructor].
  - destruct (is_space c) eqn:Hc.
    + destruct IH as [w [Hw Hall]]. exists (c :: w). split.
      * simpl. now rewrite <- Hw.
      * now constructor.
    + exists []. split; [reflexivity | constructor].
Qed.

Lemma lstrip_head (s r : str) (c : char) :
  lstrip s = c :: r -> is_space c = false.
Proof.
  induction s as [|d s IH]; simpl; [discriminate|].
  destruct (is_space d) eqn:Hd; [exact IH|].
  intros H. injection H as -> _. exact Hd.
Qed.

Lemma lstrip_fixed (c : char) (r : str) :
  is_space c = false -> lstrip (c :: r) = c :: r.
Proof. intros H. simpl. now rewrite H. Qed.

Lemma lstrip_nil (s : str) :
  lstrip s = [] -> Forall (fun c => is_space c = true) s.
Proof.
  destruct (lstrip_split s) as [w [Hw Hall]]. intros H.
  rewrite H, app_nil_r in Hw. now subst.
Qed.

Lemma lstrip_all_spaces (s : str) :
  Forall (fun c => is_space c = true) s -> lstrip s = [].
Proof.
  intros H. rewrite <- (app_nil_r s). now rewrite lstrip_spaces.
Qed.

Lemma rstrip_split (s : str) :
  exists w, s = rstrip s ++ w /\ Forall (fun c => is_space c = true) w.
Proof.
  unfold rstrip. destruct (lstrip_split (rev s)) as [w [Hw Hall]].
  exists (rev w). split.
  - rewrite <- rev_app_distr, <- Hw. now rewrite rev_involutive.
  - apply Forall_rev. exact Hall.
Qed.

Lemma rstrip_last (s r : str) (c : char) :
  rstrip s = r ++ [c] -> is_space c = false.
Proof.
  unfold rstrip. intros H.
  apply (f_equal (@rev char)) in H.
  rewrite rev_involutive, rev_app_distr in H. simpl in H.
  eapply lstrip_head. exact H.
Qed.

Lemma rstrip_fixed (s : str) (c : char) :
  is_space c = false -> rstrip (s ++ [c]) = s ++ [c].
Proof.
  intros H. unfold rstrip. rewrite rev_app_distr. simpl.
  rewrite H. simpl. rewrite rev_involutive. reflexivity.
Qed.

Lemma rstrip_spaces (s w : str) :
  Forall (fun c => is_space c = true) w -> rstrip (s ++ w) = rstrip s.
Proof.
  intros H. unfold rstrip. rewrite rev_app_distr.
  rewrite lstrip_spaces; [reflexivity|]. now apply Forall_rev.
Qed.

Lemma rstrip_nil : rstrip [] = [].
Proof. reflexivity. Qed.

Lemma rstrip_idem (s : str) : rstrip (rstrip s) = rstrip s.
Proof.
  destruct (rstrip s) as [|c r] eqn:E using rev_ind; [reflexivity|].
  apply rstrip_fixed. eapply rstrip_last. exact E.
Qed.

(** Stripping on the right keeps what the left has settled. *)
Lemma rstrip_head (c : char) (r : str) :
  is_space c = false -> exists r', rstrip (c :: r) = c :: r'.
Proof.
  intros Hc. destruct (rstrip_split (c :: r)) as [w [Hw Hall]].
  destruct (rstrip (c :: r)) as [|d r'] eqn:E.
  - simpl in Hw. subst w. inversion Hall; subst. congruence.
  - injection Hw as <- _. now exists r'.
Qed.

Lemma lstrip_rstrip (s : str) : lstrip (rstrip s) = rstrip (lstrip s).
Proof.
  destruct (lstrip_split s) as [w [Hw Hall]].
  destruct (lstrip s) as [|c r] eqn:E.
  - rewrite app_nil_r in Hw. subst w.
    rewrite <- (app_nil_l s) at 1. rewrite rstrip_spaces by assumption.
    reflexivity.
  - pose proof (lstrip_head _ _ _ E) as Hc.
    destruct (rstrip_head c r Hc) as [r' Hr'].
    destruct (rstrip_split (c :: r)) as [w' [Hw' Hall']].
    assert (Hs : rstrip s = w ++ rstrip (c :: r)).
    { rewrite Hw at 1. rewrite Hw' at 1. rewrite app_assoc.
      rewrite rstrip_spaces by assumption.
      rewrite Hr'. 
      destruct r' as [|d r''] using rev_ind.
      - change (w ++ [c]) with (w ++ [c]). apply rstrip_fixed. exact Hc.
      - rewrite app_comm_cons, app_assoc. apply rstrip_fixed.
        eapply rstrip_last. rewrite Hr'. rewrite app_comm_cons. reflexivity. }
    rewrite Hs, lstrip_spaces by assumption. rewrite Hr'.
    apply lstrip_fixed. exact Hc.
Qed.

Lemma lstrip_idem (s : str) : lstrip (lstrip s) = lstrip s.
Proof.
  destruct (lstrip s) as [|c r] eqn:E; [reflexivity|].
  apply lstrip_fixed. eapply lstrip_head. exact E.
Qed.

Lemma strip_idem (s : str) : strip (strip s) = strip s.
Proof.
  unfold strip. rewrite (lstrip_rstrip (lstrip s)).
  now rewrite rstrip_idem, lstrip_idem.
Qed.

Lemma strip_nil (s : str) :
  strip s = [] <-> Forall (fun c => is_space c = true) s.
Proof.
  unfold strip. split.
  - intros H. destruct (lstrip_split s) as [w [Hw Hall]].
    destruct (rstrip_split (lstrip s)) as [w' [Hw' Hall']].
    rewrite H in Hw'. simpl in Hw'. rewrite Hw, Hw'.
    apply Forall_app. now split.
  - intros H. rewrite lstrip_all_spaces; [reflexivity | assumption].
Qed.

Lemma find_app_first (c : char) (a b : str) :
  find c a = None -> find c (a ++ c :: b) = Some (length a).
Proof.
  induction a as [|d a IH]; simpl.
  - now rewrite N.eqb_refl.
  - destruct (N.eqb d c); [discriminate|].
    destruct (find c a); [discriminate|].
    intros _. now rewrite IH.
Qed.

Lemma find_none_app (c : char) (a b : str) :
  find c (a ++ b) = None -> find c a = None /\ find c b = None.
Proof.
  induction a as [|d a IH]; simpl; [now split|].
  destruct (N.eqb d c); [discriminate|].
  destruct (find c (a ++ b)); [discriminate|].
  intros _. destruct (IH eq_refl) as [-> ->]. now split.
Qed.

Lemma find_none_forall (c : char) (s : str) :
  Forall (fun d => d <> c) s -> find c s = None.
Proof.
  induction 1 as [|d s Hd _ IH]; simpl; [reflexivity|].
  apply N.eqb_neq in Hd. now rewrite Hd, IH.
Qed.

Lemma rfind_none_forall (c : char) (s : str) :
  Forall (fun d => d <> c) s -> rfind c s = None.
Proof.
  induction 1 as [|d s Hd _ IH]; simpl; [reflexivity|].
  apply N.eqb_neq in Hd. now rewrite Hd, IH.
Qed.

Lemma rfind_app_last (c : char) (a b : str) :
  rfind c b = None -> rfind c (a ++ c :: b) = Some (length a).
Proof.
  intros Hb. induction a as [|d a IH]; simpl.
  - now rewrite Hb, N.eqb_refl.
  - now rewrite IH.
Qed.

Lemma slice_middle (a b c : str) :
  slice (a ++ b ++ c) (length a) (length a + length b) = b.
Proof.
  unfold slice. rewrite skipn_app, skipn_all, Nat.sub_diag. simpl.
  replace (length a + length b - length a)%nat with (length b) by lia.
  rewrite firstn_app, firstn_all, Nat.sub_diag. simpl. apply app_nil_r.
Qed.

Lemma starts_with_app (pat s : str) : starts_with pat (pat ++ s) = true.
Proof.
  induction pat as [|p pat IH]; simpl; [reflexivity|].
  now rewrite N.eqb_refl.
Qed.

Lemma starts_with_split (pat s : str) :
  starts_with pat s = true -> s = pat ++ skipn (length pat) s.
Proof.
  revert s. induction pat as [|p pat IH]; intros s; simpl; [reflexivity|].
  destruct s as [|c s]; [discriminate|].
  intros H. apply andb_true_iff in H. destruct H as [Hc Hs].
  apply N.eqb_eq in Hc. subst. f_equal. now apply IH.
Qed.

(** Only the first [length pat] characters are looked at. *)
Lemma starts_with_long (pat u y : str) :
  (length pat <= length u)%nat ->
  starts_with pat (u ++ y) = starts_with pat u.
Proof.
  revert u. induction pat as [|p pat IH]; intros u Hlen; simpl;
    [reflexivity|].
  destruct u as [|c u]; simpl in *; [lia|].
  rewrite IH by lia. reflexivity.
Qed.

Lemma cut_here (pat b : str) :
  cut pat (pat ++ b) = Some ([], b).
Proof.
  assert (E : cut pat (pat ++ b) = Some ([], skipn (length pat) (pat ++ b))).
  { destruct (pat ++ b) eqn:Eb; unfold cut; fold cut;
      rewrite <- Eb, starts_with_app; reflexivity. }
  rewrite E, skipn_app, skipn_all, Nat.sub_diag. reflexivity.
Qed.

(** The pattern [q ++ [z]] is found right after [a] when it does not begin
    inside [a]. *)
Lemma cut_app (q : str) (z : char) (a b : str) :
  contains (q ++ [z]) (a ++ q) = false ->
  cut (q ++ [z]) (a ++ (q ++ [z]) ++ b) = Some (a, b).
Proof.
  unfold contains. induction a as [|c a IH]; intros H.
  - exact (cut_here (q ++ [z]) b).
  - change ((c :: a) ++ (q ++ [z]) ++ b) with (c :: (a ++ (q ++ [z]) ++ b)).
    change ((c :: a) ++ q) with (c :: (a ++ q)) in H.
    unfold cut in H; fold cut in H. unfold cut; fold cut.
    assert (Hsw : starts_with (q ++ [z]) (c :: a ++ (q ++ [z]) ++ b)
                  = starts_with (q ++ [z]) (c :: a ++ q)).
    { replace (c :: a ++ (q ++ [z]) ++ b) with ((c :: a ++ q) ++ (z :: b)).
      - apply starts_with_long. simpl. rewrite !length_app. simpl. lia.
      - simpl. now rewrite <- !app_assoc. }
    rewrite Hsw.
    destruct (starts_with (q ++ [z]) (c :: a ++ q)); [discriminate|].
    destruct (cut (q ++ [z]) (a ++ q)) as [[? ?]|] eqn:E; [discriminate|].
    now rewrite IH.
Qed.

Lemma cut_sound (pat s a b : str) :
  cut pat s = Some (a, b) -> s = a ++ pat ++ b.
Proof.
  revert a b. induction s as [|c s IH]; intros a b; simpl.
  - destruct (starts_with pat []) eqn:E.
    + intros H. injection H as <- <-. destruct pat; [reflexivity|].
      discriminate.
    + discriminate.
  - destruct (starts_with pat (c :: s)) eqn:E.
    + intros H. injection H as <- <-. simpl.
      now apply starts_with_split.
    + destruct (cut pat s) as [[a' b']|]; [|discriminate].
      intros H. injection H as <- <-. simpl. f_equal. now apply IH.
Qed.

Lemma cut_shorter (pat s a b : str) :
  cut pat s = Some (a, b) -> (length b + length pat <= length s)%nat.
Proof.
  intros H. apply cut_sound in H. subst.
  rewrite !length_app. lia.
Qed.

Lemma contains_false_cut (pat s : str) :
  contains pat s = false -> cut pat s = None.
Proof. unfold contains. destruct (cut pat s); [discriminate | reflexivity]. Qed.

Lemma contains_false_app (pat a b : str) :
  contains pat (a ++ b) = false -> contains pat b = false.
Proof.
  unfold contains. induction a as [|c a IH]; [trivial|].
  change ((c :: a) ++ b) with (c :: (a ++ b)).
  unfold cut at 1; fold cut.
  destruct (starts_with pat (c :: a ++ b)); [discriminate|].
  destruct (cut pat (a ++ b)) as [[? ?]|] eqn:E; [discriminate|].
  intros _. apply IH. reflexivity.
Qed.

End StrFacts.

(** ** Facts about the decoder *)

Section JsonFacts.

Lemma feed_app (st : state) (a b : str) :
  feed st (a ++ b) = feed (feed st a) b.
Proof. unfold feed. apply fold_left_app. Qed.

Lemma feed_fail (s : str) : feed Fail s = Fail.
Proof. induction s as [|c s IH]; simpl; [reflexivity | exact IH]. Qed.

Lemma feed_done (v : json) (s : str) (w : json) :
  finish (feed (Done v) s) = Some w ->
  Forall (fun c => json_ws c = true) s /\ w = v.
Proof.
  induction s as [|c s IH]; simpl.
  - intros H. injection H as <-. now split.
  - destruct (json_ws c) eqn:Hc.
    + intros H. destruct (IH H) as [Hall ->]. split; [|reflexivity].
      now constructor.
    + rewrite (feed_fail s). discriminate.
Qed.

Lemma feed_done_ws (v : json) (s : str) :
  Forall (fun c => json_ws c = true) s -> feed (Done v) s = Done v.
Proof.
  induction 1 as [|c s Hc _ IH]; simpl; [reflexivity|].
  now rewrite Hc.
Qed.

(** What a whitespace character is not *)
Lemma space_plain (c : char) :
  is_space c = true ->
  N.eqb c 34 = false /\ N.eqb c 92 = false /\ N.eqb c 123 = false /\
  N.eqb c 125 = false /\ N.eqb c 91 = false /\ N.eqb c 93 = false /\
  N.eqb c 44 = false /\ N.eqb c 58 = false /\ N.eqb c 45 = false /\
  N.eqb c 43 = false /\ N.eqb c 46 = false /\ N.eqb c 47 = false /\
  N.eqb c 48 = false /\ N.eqb c 101 = false /\ N.eqb c 69 = false /\
  N.eqb c 73 = false /\ N.eqb c 78 = false /\ N.eqb c 96 = false /\
  N.eqb c 98 = false /\ N.eqb c 102 = false /\ N.eqb c 110 = false /\
  N.eqb c 114 = false /\ N.eqb c 116 = false /\ N.eqb c 117 = false /\
  is_digit c = false /\ hex_value c = None.
Proof.
  intros H. apply is_space_in in H. simpl in H.
  repeat (destruct H as [<-|H]; [vm_compute; repeat split|]).
  contradiction.
Qed.

Lemma space_not_in_literal (c d : char) (l : literal) (n : nat) :
  is_space c = true -> nth_error (literal_text l) n = Some d ->
  N.eqb c d = false.
Proof.
  intros H Hn. apply nth_error_In in Hn. apply is_space_in in H.
  assert (Hd : In d (py "truefalsnNIity-")).
  { destruct l; simpl in Hn; simpl; intuition. }
  clear Hn. simpl in H, Hd.
  repeat (destruct H as [<-|H];
          [repeat (destruct Hd as [<-|Hd]; [reflexivity|]); contradiction|]).
  contradiction.
Qed.

(** A whitespace character does not complete a value. *)
Lemma step_space_accept (q : state) (c : char) (v : json) :
  is_space c = true -> finish (step q c) = Some v -> finish q = Some v.
Proof.
  intros Hs.
  pose proof (space_plain c Hs)
    as (H34&H92&H123&H125&H91&H93&H44&H58&H45&H43&H46&H47&H48&H101&H69&H73
        &H78&H96&H98&H102&H110&H114&H116&H117&Hdig&Hhex).
  destruct q as [|m stk|w]; [discriminate| |].
  - destruct m; unfold step, start_value, step_after, step_string, step_plain,
      step_escape, step_decoded, step_number, resume, deliver, deliver_string.
    all: try (destruct p).
    all: rewrite ?H34, ?H92, ?H123, ?H125, ?H91, ?H93, ?H44, ?H58, ?H45,
         ?H43, ?H46, ?H47, ?H48, ?H101, ?H69, ?H73, ?H78, ?H96, ?H98, ?H102,
         ?H110, ?H114, ?H116, ?H117, ?Hdig, ?Hhex; cbn [orb andb].
    all: try (destruct (nth_error (literal_text l) seen) as [d|] eqn:En;
              [rewrite (space_not_in_literal c d l seen Hs En)|]).
    all: split_cases; simpl; try discriminate; try congruence; auto.
    all: unfold step_after, deliver; rewrite ?H44, ?H93, ?H125;
      split_cases; simpl; try discriminate; try congruence; auto.
  - simpl. destruct (json_ws c); [auto | discriminate].
Qed.

Lemma feed_spaces_accept (q : state) (w : str) (v : json) :
  Forall (fun c => is_space c = true) w ->
  finish (feed q w) = Some v -> finish q = Some v.
Proof.
  intros Hw. revert q. induction Hw as [|c w Hc _ IH]; intros q; simpl;
    [trivial|].
  intros H. apply IH in H. eapply step_space_accept; eauto.
Qed.

(** After a closing brace or bracket only a completed value is accepted. *)
Lemma step_closer_done (q : state) (c : char) (v : json) :
  c = 125 \/ c = 93 ->
  finish (step q c) = Some v -> step q c = Done v.
Proof.
  intros Hc.
  assert (Hnum : forall lexeme p f stk, step q c <> Run (InNum lexeme p f) stk).
  { intros lexeme p f stk.
    destruct q as [|m stk0|w]; [discriminate| |];
      destruct Hc as [-> | ->].
    1,2: destruct m; try destruct p0;
      unfold step, start_value, step_after, step_string, step_plain,
        step_escape, step_decoded, step_number, resume, deliver,
        deliver_string; cbn [N.eqb Pos.eqb json_ws orb andb is_digit hex_value
                               N.leb N.compare Pos.compare Pos.compare_cont
                               N.ltb];
      split_cases; try discriminate;
      unfold step_after, deliver; cbn [N.eqb Pos.eqb json_ws orb andb];
      split_cases; discriminate.
    all: simpl; discriminate. }
  destruct (step q c) as [|m stk|w] eqn:E; simpl; try discriminate.
  - destruct m; try discriminate. destruct stk; try discriminate.
    exfalso. eapply Hnum. reflexivity.
  - congruence.
Qed.

Lemma bottom_push (f g : frame) (stk : list frame) :
  bottom (g :: f :: stk) = bottom (f :: stk).
Proof. reflexivity. Qed.

Lemma rooted_top (o : bool) (m m' : mode) (f f' : frame)
  (stk : list frame) :
  frame_is_object f' = frame_is_object f ->
  rooted o (Run m (f :: stk)) -> rooted o (Run m' (f' :: stk)).
Proof.
  unfold rooted. destruct stk as [|g stk]; simpl; [|trivial].
  now intros ->.
Qed.

Lemma rooted_deliver (o : bool) (m : mode) (v : json) (stk : list frame) :
  rooted o (Run m stk) -> rooted o (deliver v stk).
Proof.
  destruct stk as [|[items|members [k|]] stk]; simpl; trivial.
  - contradiction.
  - intros H. eapply (rooted_top o m After); [|exact H]. reflexivity.
  - intros H. eapply (rooted_top o m After); [|exact H]. reflexivity.
Qed.

Lemma rooted_deliver_string (o : bool) (m : mode) (k : bool) (s : str)
  (stk : list frame) :
  rooted o (Run m stk) -> rooted o (deliver_string k s stk).
Proof.
  unfold deliver_string. destruct k; [|apply rooted_deliver].
  destruct stk as [|[items|members [k|]] stk]; simpl; trivial.
  intros H. eapply (rooted_top o m Colon); [|exact H]. reflexivity.
Qed.

Lemma rooted_pop (o : bool) (m : mode) (f : frame) (v : json)
  (stk : list frame) :
  kind_is (frame_is_object f) v = true ->
  rooted o (Run m (f :: stk)) -> rooted o (deliver v stk).
Proof.
  intros Hk H. destruct stk as [|g stk].
  - simpl in *. now rewrite <- H.
  - apply (rooted_deliver o m). exact H.
Qed.

Lemma rooted_mode (o : bool) (m m' : mode) (stk : list frame) :
  rooted o (Run m stk) -> rooted o (Run m' stk).
Proof. trivial. Qed.

Lemma rooted_push (o : bool) (m m' : mode) (f : frame) (stk : list frame) :
  rooted o (Run m stk) -> rooted o (Run m' (f :: stk)).
Proof.
  destruct stk as [|g stk]; simpl; [contradiction | trivial].
Qed.

Lemma rooted_start_value (o : bool) (m : mode) (c : char)
  (stk : list frame) :
  rooted o (Run m stk) -> rooted o (start_value c stk).
Proof.
  intros H. unfold start_value. split_cases;
    first [ exact I | eapply rooted_push; exact H
          | eapply rooted_mode; exact H ].
Qed.

Lemma rooted_step_after (o : bool) (m : mode) (c : char)
  (stk : list frame) :
  rooted o (Run m stk) -> rooted o (step_after c stk).
Proof.
  intros H. unfold step_after.
  destruct (json_ws c); [eapply rooted_mode; exact H|].
  destruct stk as [|[items|members [k|]] stk]; try exact I.
  - split_cases; try exact I; try (eapply rooted_mode; exact H).
    eapply rooted_pop; [|exact H]. reflexivity.
  - split_cases; try exact I; try (eapply rooted_mode; exact H).
    eapply rooted_pop; [|exact H]. reflexivity.
Qed.

Lemma rooted_resume (o : bool) (st : state) (c : char) :
  rooted o st -> rooted o (resume st c).
Proof.
  intros H. destruct st as [|m stk|v]; [exact I| |].
  - destruct m; try exact I.
    exact (rooted_step_after o After c stk H).
  - unfold resume. destruct (json_ws c); [exact H | exact I].
Qed.

Lemma rooted_step (o : bool) (st : state) (c : char) :
  rooted o st -> rooted o (step st c).
Proof.
  destruct st as [|m stk|v]; [trivial| |apply rooted_resume].
  intros H. destruct m; unfold step.
  - destruct (json_ws c); [exact H | eapply rooted_start_value; exact H].
  - destruct (json_ws c); [exact H|].
    destruct (N.eqb c 93); [|eapply rooted_start_value; exact H].
    destruct stk as [|[items|members k] stk]; try exact I.
    eapply rooted_pop; [|exact H]. reflexivity.
  - destruct (json_ws c); [exact H|].
    destruct (N.eqb c 125).
    + destruct stk as [|[items|members [k|]] stk]; try exact I.
      eapply rooted_pop; [|exact H]. reflexivity.
    + destruct (N.eqb c 34); [eapply rooted_mode; exact H | exact I].
  - destruct (json_ws c); [exact H|].
    destruct (N.eqb c 34); [eapply rooted_mode; exact H | exact I].
  - destruct (json_ws c); [exact H|].
    destruct (N.eqb c 58); [eapply rooted_mode; exact H | exact I].
  - eapply rooted_step_after; exact H.
  - unfold step_string, step_plain, step_escape, step_decoded.
    split_cases;
      first [ exact I | eapply rooted_mode; exact H
            | eapply rooted_deliver_string; exact H ].
  - unfold step_number.
    split_cases;
      first [ exact I | eapply rooted_mode; exact H
            | apply rooted_resume; eapply rooted_deliver; exact H ].
  - split_cases;
      first [ exact I | eapply rooted_mode; exact H
            | eapply rooted_deliver; exact H ].
Qed.

Lemma rooted_feed (o : bool) (st : state) (s : str) :
  rooted o st -> rooted o (feed st s).
Proof.
  revert st. induction s as [|c s IH]; intros st H; simpl; [exact H|].
  apply IH. now apply rooted_step.
Qed.

(** A text that opens with a brace decodes to a mapping, one that opens
    with a bracket to an array. *)
Lemma loads_kind (c : char) (s : str) (v : json) :
  loads (c :: s) = Some v ->
  (c = 123 -> is_dict v = true) /\ (c = 91 -> is_list v = true).
Proof.
  unfold loads.
  change (feed start (c :: s)) with (feed (step start c) s). intros H.
  assert (R : forall o, rooted o (step start c) ->
                        kind_is o v = true).
  { intros o Ho. pose proof (rooted_feed o _ s Ho) as Hr.
    destruct (feed (step start c) s) as [|m stk|w]; simpl in H;
      [discriminate| |].
    - destruct m; try discriminate. destruct stk; try discriminate.
      simpl in Hr. contradiction.
    - injection H as ->. exact Hr. }
  split; intros ->.
  - apply (R true). reflexivity.
  - apply (R false). reflexivity.
Qed.

End JsonFacts.

(** ** Facts about the strategies *)

Section ParserFacts.

Variable loads : str -> option json.

Lemma first_success_some (attempt : str -> option json) (ms : list str)
  (v : json) :
  first_success attempt ms = Some v ->
  exists before m after,
    ms = before ++ m :: after /\ attempt m = Some v /\
    Forall (fun x => attempt x = None) before.
Proof.
  induction ms as [|m ms IH]; simpl; [discriminate|].
  destruct (attempt m) as [w|] eqn:E.
  - intros H. injection H as ->. exists [], m, ms. repeat split; auto.
  - intros H. destruct (IH H) as (before & m' & after & -> & Hm & Hall).
    exists (m :: before), m', after. repeat split; auto.
Qed.

Lemma first_success_first (attempt : str -> option json)
  (before after : list str) (m : str) (v : json) :
  Forall (fun x => attempt x = None) before -> attempt m = Some v ->
  first_success attempt (before ++ m :: after) = Some v.
Proof.
  induction 1 as [|x before Hx _ IH]; simpl; intros Hm.
  - now rewrite Hm.
  - rewrite Hx. now apply IH.
Qed.

Lemma shrink_some (lines : list str) (i : nat) (v : json) :
  shrink loads lines i = Some v ->
  exists k, (1 <= k <= i)%nat /\
    ends_with_char 125 (rstrip (join_lines (firstn k lines))) = true /\
    loads (join_lines (firstn k lines)) = Some v.
Proof.
  induction i as [|j IH]; [discriminate|].
  unfold shrink; fold (shrink loads).
  destruct (ends_with_char 125 (rstrip (join_lines (firstn (S j) lines))))
    eqn:He.
  - destruct (loads (join_lines (firstn (S j) lines))) as [w|] eqn:El.
    + intros H. injection H as ->. exists (S j). repeat split; auto; lia.
    + intros H. destruct (IH H) as (k & Hk & H1 & H2).
      exists k. repeat split; auto; lia.
  - intros H. destruct (IH H) as (k & Hk & H1 & H2).
    exists k. repeat split; auto; lia.
Qed.

(** The slice from the first occurrence of [c] starts with [c]. *)
Lemma slice_from_find (c : char) (text : str) (i j : nat) :
  find c text = Some i -> (i < j)%nat ->
  exists r, slice text i j = c :: r.
Proof.
  unfold slice. revert i j. induction text as [|d text IH]; intros i j;
    simpl; [discriminate|].
  destruct (N.eqb d c) eqn:E.
  - intros H Hij. injection H as <-. apply N.eqb_eq in E. subst.
    simpl. destruct j as [|j]; [lia|]. simpl. eauto.
  - destruct (find c text) as [i'|]; [|discriminate].
    intros H Hij. injection H as <-.
    destruct j as [|j]; [lia|]. simpl.
    apply (IH i' j eq_refl). lia.
Qed.

Lemma cut_keeps_head (pat r a b : str) (c : char) :
  starts_with pat (c :: r) = false ->
  cut pat (c :: r) = Some (a, b) -> exists a', a = c :: a'.
Proof.
  intros Hs. unfold cut; fold cut. rewrite Hs.
  destruct (cut pat r) as [[a' b']|]; [|discriminate].
  intros H. injection H as <- <-. eauto.
Qed.

Lemma strip_block_comments_head (fuel : nat) (r : str) :
  exists r', strip_block_comments_aux fuel (123 :: r) = 123 :: r'.
Proof.
  destruct fuel as [|fuel].
  { exists r. reflexivity. }
  unfold strip_block_comments_aux; fold strip_block_comments_aux.
  destruct (cut (py "/*") (123 :: r)) as [[before inner]|] eqn:E.
  2: { exists r. reflexivity. }
  destruct (cut (py "*/") inner) as [[x rest]|].
  2: { exists r. reflexivity. }
  destruct (cut_keeps_head (py "/*") r before inner 123 eq_refl E)
    as [a' ->].
  exists (a' ++ strip_block_comments_aux fuel rest). reflexivity.
Qed.

Lemma repair_head (r : str) : exists r', repair (123 :: r) = 123 :: r'.
Proof.
  destruct (strip_block_comments_head
              (length (123 :: strip_line_comments_aux false r))
              (strip_line_comments_aux false r)) as [r' E2].
  exists (remove_trailing_commas r').
  transitivity (remove_trailing_commas (123 :: r')); [|reflexivity].
  unfold repair. f_equal. exact E2.
Qed.

Lemma split_lines_head (c : char) (r : str) :
  N.eqb c 10 = false ->
  exists l ls, split_lines (c :: r) = (c :: l) :: ls.
Proof.
  intros H. simpl. rewrite H. destruct (split_lines r); eauto.
Qed.

Lemma join_firstn_head (c : char) (l : str) (ls : list str) (k : nat) :
  (1 <= k)%nat ->
  exists r, join_lines (firstn k ((c :: l) :: ls)) = c :: r.
Proof.
  destruct k as [|k]; [lia|]. intros _.
  change (firstn (S k) ((c :: l) :: ls)) with ((c :: l) :: firstn k ls).
  destruct (firstn k ls) as [|x xs].
  - exists l. reflexivity.
  - exists (l ++ 10 :: join_lines (x :: xs)). reflexivity.
Qed.

(** What the three kinds of attempt return, given that a text opening with
    a brace decodes to a mapping and one opening with a bracket to an
    array. *)
Hypothesis loads_kind_of :
  forall c s v, loads (c :: s) = Some v ->
    (c = 123 -> is_dict v = true) /\ (c = 91 -> is_list v = true).

Lemma try_untagged_container (m : str) (v : json) :
  try_untagged loads m = Some v -> is_container v = true.
Proof.
  unfold try_untagged, is_container. destruct (strip m) as [|c r];
    [discriminate|].
  destruct (N.eqb c 123) eqn:E1; simpl.
  - apply N.eqb_eq in E1. intros H.
    apply loads_kind_of in H. destruct H as [H _]. now rewrite (H E1).
  - destruct (N.eqb c 91) eqn:E2; [|discriminate].
    apply N.eqb_eq in E2. intros H.
    apply loads_kind_of in H. destruct H as [_ H]. rewrite (H E2).
    apply orb_true_r.
Qed.

Lemma brace_strategies_dict (text : str) (v : json) :
  brace_strategies loads text = Some v -> is_dict v = true.
Proof.
  unfold brace_strategies. cbv zeta.
  destruct (find 123 text) as [i|] eqn:Ef; [|discriminate].
  destruct (rfind 125 text) as [j|] eqn:Er; [|discriminate].
  destruct (i <? j)%nat eqn:Hij; [|discriminate].
  apply Nat.ltb_lt in Hij.
  destruct (slice_from_find 123 text i (j + 1) Ef ltac:(lia)) as [r ->].
  destruct (loads (123 :: r)) as [w|] eqn:E1.
  { intros H. injection H as ->. now apply (loads_kind_of _ _ _ E1). }
  destruct (repair_head r) as [r' ->].
  destruct (loads (123 :: r')) as [w|] eqn:E2.
  { intros H. injection H as ->. now apply (loads_kind_of _ _ _ E2). }
  intros H. apply shrink_some in H. destruct H as (k & Hk & _ & H).
  destruct (split_lines_head 123 r' eq_refl) as (l & ls & E).
  rewrite E in H.
  destruct (join_firstn_head 123 l ls k ltac:(lia)) as [x Hx].
  rewrite Hx in H. now apply (loads_kind_of _ _ _ H).
Qed.

Lemma bracket_strategy_list (text : str) (v : json) :
  bracket_strategy loads text = Some v -> is_list v = true.
Proof.
  unfold bracket_strategy.
  destruct (find 91 text) as [i|] eqn:Ef; [|discriminate].
  destruct (rfind 93 text) as [j|] eqn:Er; [|discriminate].
  destruct (i <? j)%nat eqn:Hij; [|discriminate].
  apply Nat.ltb_lt in Hij.
  destruct (slice_from_find 91 text i (j + 1) Ef ltac:(lia)) as [r ->].
  intros H. now apply (loads_kind_of _ _ _ H).
Qed.

Lemma untagged_result_container (text : str) (v : json) :
  first_success (try_tagged loads) (tagged_blocks text) = None ->
  robust_json_parse loads text = Return v -> is_container v = true.
Proof.
  unfold robust_json_parse. intros Ht.
  destruct (strip text); [discriminate|]. rewrite Ht.
  destruct (first_success (try_untagged loads) (untagged_blocks text))
    as [w|] eqn:E2.
  { intros H. injection H as ->.
    apply first_success_some in E2.
    destruct E2 as (_ & m & _ & _ & Hm & _).
    now apply try_untagged_container in Hm. }
  destruct (brace_strategies loads text) as [w|] eqn:E3.
  { intros H. injection H as ->. unfold is_container.
    now rewrite (brace_strategies_dict _ _ E3). }
  destruct (bracket_strategy loads text) as [w|] eqn:E4; [|discriminate].
  intros H. injection H as ->. unfold is_container.
  rewrite (bracket_strategy_list _ _ E4). apply orb_true_r.
Qed.

End ParserFacts.

(** ** The recovery parser: its errors and the kind of its result *)

(** C7.  An input that is empty or holds only whitespace fails at once with
    the empty-input error, a plain [ValueError]: the decoder is never
    consulted, since the result is the same for every decoder.  That error
    is told apart from the failure of all strategies, which is a
    [json.JSONDecodeError] and is raised only for inputs that are not
    blank. *)
Theorem blank_input_fails_fast (text : str) :
  strip text = [] ->
  (forall loads, robust_json_parse loads text = Raise (ValueError empty_message))
  /\ is_JSONDecodeError (ValueError empty_message) = false
  /\ (forall loads text' e,
        strip text' <> [] -> robust_json_parse loads text' = Raise e ->
        is_JSONDecodeError e = true).
Proof.
  intros Hblank. split; [|split].
  - intros loads. unfold robust_json_parse. now rewrite Hblank.
  - reflexivity.
  - intros loads text' e Hne. unfold robust_json_parse.
    destruct (strip text'); [congruence|].
    destruct (first_success _ _); [discriminate|].
    destruct (first_success _ _); [discriminate|].
    destruct (brace_strategies _ _); [discriminate|].
    destruct (bracket_strategy _ _); [discriminate|].
    intros H. injection H as <-. reflexivity.
Qed.

Lemma blank_input_fails_fast_witness :
  strip (py "   ") = [] /\
  parse (py "   ") = Raise (ValueError empty_message).
Proof.
  split; [reflexivity|].
  apply (blank_input_fails_fast (py "   ")). reflexivity.
Defined.

(** ** The exceptions of the recovery parser *)

Section RaisingFacts.

Variable loads : str -> outcome json.

Lemma feed_within_cases (depth : nat) (s : str) (st : state) :
  Raising.feed_within depth st s = Raise RecursionError \/
  Raising.feed_within depth st s = Return (feed st s).
Proof.
  revert st. induction s as [|c r IH]; intros st; [now right|].
  cbn [Raising.feed_within]. cbv zeta.
  destruct (depth <? Raising.nesting (step st c))%nat; [now left|].
  apply IH.
Qed.

(** Within the limit the decoder is [Json.loads]. *)
Lemma loads_within_cases (depth : nat) (s : str) :
  Raising.loads_within depth s = Raise RecursionError \/
  Raising.loads_within depth s
  = match Json.loads s with
    | Some v => Return v
    | None => Raise (JSONDecodeError [] s 0)
    end.
Proof.
  unfold Raising.loads_within, Json.loads.
  destruct (feed_within_cases depth s start) as [-> | ->]; [now left|].
  now right.
Qed.








(** For a decoder that raises [JSONDecodeError] only, the parser is the one
    of [Parser]. *)
Hypothesis decode_errors_only :
  forall s e, loads s = Raise e -> is_JSONDecodeError e = true.








End RaisingFacts.




(** C3, as stated, fails: a block tagged [json] is decoded and returned
    whatever it holds, here the number 42. *)
Lemma tagged_block_returns_scalar :
  ~ (forall text v, parse text = Return v -> is_container v = true).
Proof.
  intros H.
  assert (E : parse (py "```json 42 ```") = Return (JInt 42))
    by (vm_compute; reflexivity).
  apply H in E. discriminate E.
Qed.

(** C3, amended.  When no block tagged [json] decodes, the value the parser
    returns is a mapping or an array: the untagged blocks are decoded only
    when they open with a brace or a bracket, and the slices of strategies 3
    to 6 open with one. *)
Theorem result_is_container_without_tagged_block (text : str) (v : json) :
  first_success (try_tagged Json.loads) (tagged_blocks text) = None ->
  parse text = Return v -> is_container v = true.
Proof.
  intros Ht Hp.
  exact (untagged_result_container Json.loads loads_kind text v Ht Hp).
Qed.

Lemma result_is_container_without_tagged_block_witness :
  first_success (try_tagged Json.loads)
    (tagged_blocks (js "Sure: {'features': []} done")) = None /\
  is_container (JObject [(py "features", JArray [])]) = true.
Proof.
  split; [reflexivity|].
  apply (result_is_container_without_tagged_block
           (js "Sure: {'features': []} done")); reflexivity.
Defined.

(** ** The streaming stage *)

Section StreamFacts.

Lemma stream_from_extends (content : str) (chunks : list (option str)) :
  Forall (extends content) (Model.stream_from content chunks).
Proof.
  revert content. induction chunks as [|[c|] chunks IH]; intros content;
    simpl; [constructor| |apply IH].
  constructor.
  - now exists c.
  - eapply Forall_impl; [|apply IH].
    intros s [d ->]. exists (c ++ d). now rewrite app_assoc.
Qed.

Lemma stream_from_consecutive (content : str) (chunks : list (option str)) :
  consecutive extends (Model.stream_from content chunks).
Proof.
  revert content. induction chunks as [|[c|] chunks IH]; intros content;
    simpl; [exact I| |apply IH].
  pose proof (IH (content ++ c)) as Hrest.
  pose proof (stream_from_extends (content ++ c) chunks) as Hall.
  destruct (Model.stream_from (content ++ c) chunks) as [|b rest];
    [exact I|].
  split; [|exact Hrest]. now inversion Hall.
Qed.

Lemma stream_from_strict (content : str) (chunks : list (option str)) :
  Forall (fun c => c <> []) (contents chunks) ->
  Forall (strictly_extends content) (Model.stream_from content chunks) /\
  consecutive strictly_extends (Model.stream_from content chunks).
Proof.
  revert content. induction chunks as [|[c|] chunks IH]; intros content;
    simpl; [split; [constructor | exact I]| |apply IH].
  intros H. inversion H as [|x xs Hc Hrest]; subst.
  destruct (IH (content ++ c) Hrest) as [Hall Hcons]. split.
  - constructor.
    + now exists c.
    + eapply Forall_impl; [|exact Hall].
      intros s (d & Hd & ->). exists (c ++ d). split.
      * destruct c; [congruence | discriminate].
      * now rewrite app_assoc.
  - destruct (Model.stream_from (content ++ c) chunks) as [|b rest];
      [exact I|].
    split; [|exact Hcons]. now inversion Hall.
Qed.

Lemma stream_from_length (content : str) (chunks : list (option str)) :
  length (Model.stream_from content chunks) = length (contents chunks).
Proof.
  revert content. induction chunks as [|[c|] chunks IH]; intros content;
    [reflexivity| |apply IH].
  change (Model.stream_from content (Some c :: chunks))
    with ((content ++ c) :: Model.stream_from (content ++ c) chunks).
  change (contents (Some c :: chunks)) with (c :: contents chunks).
  cbn [length]. now rewrite IH.
Qed.

(** Snapshot number [k] is the one before it with content number [k]
    appended. *)
Lemma stream_from_nth (content : str) (chunks : list (option str))
  (k : nat) (c : str) :
  nth_error (contents chunks) k = Some c ->
  nth_error (Model.stream_from content chunks) k
  = Some (match k with
          | O => content
          | S j => nth j (Model.stream_from content chunks) []
          end ++ c).
Proof.
  revert content k. induction chunks as [|[c0|] chunks IH]; intros content k.
  - destruct k; discriminate.
  - change (Model.stream_from content (Some c0 :: chunks))
      with ((content ++ c0) :: Model.stream_from (content ++ c0) chunks).
    change (contents (Some c0 :: chunks)) with (c0 :: contents chunks).
    destruct k as [|j]; cbn [nth_error nth].
    + intros H. injection H as <-. reflexivity.
    + intros H. rewrite (IH (content ++ c0) j H).
      destruct j; reflexivity.
  - apply IH.
Qed.

Lemma last_default {A : Type} (l : list A) (d d' : A) :
  l <> [] -> last l d = last l d'.
Proof.
  induction l as [|a l IH]; [congruence|]. intros _.
  destruct l as [|b l]; [reflexivity|].
  change (last (b :: l) d = last (b :: l) d'). apply IH. discriminate.
Qed.

Lemma last_cons {A : Type} (a : A) (l : list A) (d : A) :
  last (a :: l) d = last l a.
Proof.
  destruct l as [|b l]; [reflexivity|].
  change (last (b :: l) d = last (b :: l) a). apply last_default.
  discriminate.
Qed.

Lemma stream_from_last (content : str) (chunks : list (option str)) :
  last (Model.stream_from content chunks) content
  = content ++ concat (contents chunks).
Proof.
  revert content. induction chunks as [|[c|] chunks IH]; intros content.
  - simpl. now rewrite app_nil_r.
  - change (Model.stream_from content (Some c :: chunks))
      with ((content ++ c) :: Model.stream_from (content ++ c) chunks).
    rewrite last_cons, IH. simpl. now rewrite app_assoc.
  - apply IH.
Qed.

Lemma stream_from_prefix_of_final (content : str)
  (chunks : list (option str)) :
  Forall (fun s => extends s (content ++ concat (contents chunks)))
         (Model.stream_from content chunks).
Proof.
  revert content. induction chunks as [|[c|] chunks IH]; intros content;
    [constructor| |apply IH].
  change (Model.stream_from content (Some c :: chunks))
    with ((content ++ c) :: Model.stream_from (content ++ c) chunks).
  change (concat (contents (Some c :: chunks)))
    with (c ++ concat (contents chunks)).
  rewrite app_assoc. constructor; [|apply IH].
  now exists (concat (contents chunks)).
Qed.

Lemma stream_loop_trace (loads : str -> option json) (response_text : str)
  (partials : list str) :
  Stream.stream_loop loads response_text partials
  = map (fun p => Stream.Yield (Stream.Progress p)) partials
    ++ [Stream.CallParser (last partials response_text);
        Stream.Yield
          (Stream.Result
             (Chain.parse_features loads (last partials response_text)))].
Proof.
  revert response_text. induction partials as [|p rest IH];
    intros response_text; [reflexivity|].
  simpl Stream.stream_loop. rewrite IH, last_cons. reflexivity.
Qed.

Lemma parser_calls_app (a b : list Stream.event) :
  Stream.parser_calls (a ++ b) = Stream.parser_calls a ++ Stream.parser_calls b.
Proof. unfold Stream.parser_calls. apply flat_map_app. Qed.

Lemma snapshots_shown_app (a b : list Stream.event) :
  Stream.snapshots_shown (a ++ b)
  = Stream.snapshots_shown a ++ Stream.snapshots_shown b.
Proof. unfold Stream.snapshots_shown. apply flat_map_app. Qed.

Lemma progress_only (partials : list str) :
  Stream.parser_calls
    (map (fun p => Stream.Yield (Stream.Progress p)) partials) = [] /\
  Stream.snapshots_shown
    (map (fun p => Stream.Yield (Stream.Progress p)) partials) = partials.
Proof.
  induction partials as [|p rest [IH1 IH2]]; [split; reflexivity|].
  split; simpl; [exact IH1 | now rewrite IH2].
Qed.

End StreamFacts.

(** C9, as stated, fails: a chunk whose content is the empty string is not
    [None], so the snapshot is yielded again unchanged. *)
Lemma empty_chunk_repeats_snapshot :
  ~ (forall chunks,
       consecutive strictly_extends
         (Model.generate_response_vllm_stream chunks)).
Proof.
  intros H. specialize (H [Some (py "T"); Some []; Some (py "h")]).
  destruct H as [(d & Hd & E) _].
  simpl in E. injection E as E. symmetry in E. contradiction.
Qed.

(** C9, amended.  A stage that consumes a stream surfaces the snapshots in
    the order received, one for each chunk that carries content; each
    snapshot is the one before it (the empty text, for the first) with the
    content of its chunk appended, so it is strictly longer when that
    content is not empty and unchanged when it is; each is a prefix of the
    final text; the recovery parser is called exactly once, after the last
    snapshot, on the final text. *)
Theorem stream_surfaces_prefixes_and_parses_once
  (loads : str -> option json) (prd_text : str)
  (chunks : list (option str)) :
  strip prd_text <> [] ->
  let trace := Stream.generate_features_for_gradio_stream loads prd_text chunks in
  let snapshots := Model.generate_response_vllm_stream chunks in
  let final := concat (contents chunks) in
  Stream.snapshots_shown trace = snapshots
  /\ length snapshots = length (contents chunks)
  /\ (forall k c,
        nth_error (contents chunks) k = Some c ->
        let before := previous snapshots k in
        nth_error snapshots k = Some (before ++ c)
        /\ (c <> [] -> strictly_extends before (before ++ c))
        /\ (c = [] -> before ++ c = before))
  /\ Forall (fun s => extends s final) snapshots
  /\ Stream.parser_calls trace = [final]
  /\ trace = map (fun p => Stream.Yield (Stream.Progress p)) snapshots
             ++ [Stream.CallParser final;
                 Stream.Yield (Stream.Result (Chain.parse_features loads final))].
Proof.
  intros Hprd trace snapshots final.
  assert (Hlast : last snapshots [] = final).
  { apply (stream_from_last [] chunks). }
  assert (Htrace : trace
            = map (fun p => Stream.Yield (Stream.Progress p)) snapshots
              ++ [Stream.CallParser final;
                  Stream.Yield
                    (Stream.Result (Chain.parse_features loads final))]).
  { unfold trace, Stream.generate_features_for_gradio_stream.
    destruct (strip prd_text); [congruence|].
    fold snapshots. rewrite stream_loop_trace, Hlast. reflexivity. }
  destruct (progress_only snapshots) as [Hcalls Hshown].
  split; [|split; [|split; [|split; [|split]]]].
  - rewrite Htrace, snapshots_shown_app, Hshown. simpl. apply app_nil_r.
  - apply (stream_from_length [] chunks).
  - intros k c Hc before. split; [|split].
    + unfold before, previous, snapshots,
        Model.generate_response_vllm_stream.
      rewrite (stream_from_nth [] chunks k c Hc). now destruct k.
    + intros Hne. now exists c.
    + intros ->. apply app_nil_r.
  - apply (stream_from_prefix_of_final [] chunks).
  - rewrite Htrace, parser_calls_app, Hcalls. reflexivity.
  - exact Htrace.
Qed.

Lemma stream_surfaces_prefixes_and_parses_once_witness :
  strip (py "doc") <> [] /\
  Stream.parser_calls
    (Stream.generate_features_for_gradio_stream Json.loads (py "doc")
       [Some (py "T"); Some (py "h"); Some (py "e")]) = [py "The"].
Proof.
  assert (H : strip (py "doc") <> []) by (vm_compute; discriminate).
  split; [exact H|].
  pose proof (stream_surfaces_prefixes_and_parses_once Json.loads (py "doc")
                [Some (py "T"); Some (py "h"); Some (py "e")] H)
    as (_ & _ & _ & _ & Hcalls & _).
  exact Hcalls.
Defined.

(** ** The stage adapters *)

Section ChainFacts.

Variable loads : str -> option json.
Variable float_nonzero : str -> bool.

Lemma for_each_get_method (items : list json) :
  for_each get_method items = Return tt \/
  exists e, for_each get_method items = Raise e.
Proof.
  induction items as [|x items IH]; [now left|].
  simpl. destruct x; simpl; eauto.
Qed.

(** The records of a failed stage are empty. *)
Lemma finish_stage_failed (body : outcome (list json)) :
  Chain.succeeded (Chain.finish_stage body) = false ->
  Chain.records (Chain.finish_stage body) = [].
Proof. destruct body; [discriminate | reflexivity]. Qed.

Lemma finish_stage_succeeded (body : outcome (list json)) :
  Chain.succeeded (Chain.finish_stage body) = true ->
  body = Return (Chain.records (Chain.finish_stage body)).
Proof. destruct body; [reflexivity | discriminate]. Qed.

Lemma parse_features_body_returns (response : str) (recs : list json) :
  Chain.parse_features_body loads response = Return recs ->
  exists members,
    robust_json_parse loads response = Return (JObject members) /\
    dict_get members (py "features") = Some (JArray recs) /\ recs <> [].
Proof.
  unfold Chain.parse_features_body. intros Hs.
  destruct (robust_json_parse loads response) as [result|e];
    [|discriminate].
  cbn -[for_each py] in Hs. unfold Chain.field in Hs.
  destruct result; try discriminate.
  exists members. split; [reflexivity|].
  destruct (dict_get members (py "features")) as [features|];
    [|discriminate].
  destruct features; cbn -[for_each py] in Hs; try discriminate.
  - destruct s as [|c s]; cbn -[py] in Hs; discriminate.
  - destruct items as [|x items]; [discriminate|].
    cbn -[for_each py] in Hs.
    destruct (for_each get_method (x :: items)); [|discriminate].
    cbn -[for_each py] in Hs.
    destruct (for_each _ (x :: items)); [|discriminate].
    cbn -[for_each py] in Hs. injection Hs as <-.
    split; [reflexivity | discriminate].
  - destruct members0 as [|[k x] ms]; cbn -[py] in Hs; discriminate.
Qed.

Lemma parse_test_points_body_returns (feature : json) (response : str)
  (recs : list json) :
  Chain.parse_test_points_body loads float_nonzero feature response
  = Return recs ->
  exists members,
    robust_json_parse loads response = Return (JObject members) /\
    dict_get members (py "test_points") = Some (JArray recs) /\ recs <> [].
Proof.
  unfold Chain.parse_test_points_body. intros Hs.
  destruct (robust_json_parse loads response) as [result|e];
    [|discriminate].
  cbn -[for_each py truthy] in Hs. unfold Chain.field in Hs.
  destruct result; try discriminate.
  exists members. split; [reflexivity|].
  destruct (dict_get members (py "test_points")) as [test_points|];
    [|discriminate].
  destruct (negb (truthy float_nonzero test_points)) eqn:Et;
    [discriminate|].
  destruct (subscript feature (py "name")); [|discriminate].
  cbn -[for_each py] in Hs.
  destruct test_points; cbn -[for_each py] in Hs, Et; try discriminate.
  - destruct s as [|c s]; cbn -[py] in Hs; discriminate.
  - destruct items as [|x items]; [discriminate|].
    destruct (for_each get_method (x :: items)); [|discriminate].
    cbn -[for_each py] in Hs. injection Hs as <-.
    split; [reflexivity | discriminate].
  - destruct members0 as [|[k x] ms]; cbn -[py] in Hs; discriminate.
Qed.

Lemma parse_test_cases_body_returns (feature test_point : json)
  (response : str) (recs : list json) :
  Chain.parse_test_cases_body loads float_nonzero response feature test_point
  = Return recs ->
  exists members,
    robust_json_parse loads response = Return (JObject members) /\
    dict_get members (py "test_cases") = Some (JArray recs) /\ recs <> [].
Proof.
  unfold Chain.parse_test_cases_body. intros Hs.
  destruct (robust_json_parse loads response) as [result|e];
    [|discriminate].
  cbn -[for_each py truthy] in Hs. unfold Chain.field in Hs.
  destruct result; try discriminate.
  exists members. split; [reflexivity|].
  destruct (dict_get members (py "test_cases")) as [test_cases|];
    [|discriminate].
  destruct (negb (truthy float_nonzero test_cases)) eqn:Et;
    [discriminate|].
  destruct (subscript feature (py "name")); [|discriminate].
  cbn -[for_each py] in Hs.
  destruct (subscript test_point (py "name")); [|discriminate].
  cbn -[for_each py] in Hs.
  destruct test_cases; cbn -[for_each py] in Hs, Et; try discriminate.
  - destruct s as [|c s]; cbn -[py] in Hs; discriminate.
  - destruct items as [|x items]; [discriminate|].
    destruct (for_each _ (x :: items)); [|discriminate].
    cbn -[for_each py] in Hs. injection Hs as <-.
    split; [reflexivity | discriminate].
  - destruct members0 as [|[k x] ms]; cbn -[py] in Hs; discriminate.
Qed.

(** The adapters of [generate_chain.py] succeed only on a mapping whose
    entry at the stage's key is a non-empty array, which they return; a
    failed stage has no records. *)
Lemma chain_adapters_validate (feature test_point : json) (response : str) :
  let validated key r :=
    (Chain.succeeded r = true ->
     exists members,
       robust_json_parse loads response = Return (JObject members) /\
       dict_get members key = Some (JArray (Chain.records r)) /\
       Chain.records r <> [])
    /\ (Chain.succeeded r = false -> Chain.records r = []) in
  validated (py "features") (Chain.parse_features loads response)
  /\ validated (py "test_points")
       (Chain.parse_test_points loads float_nonzero feature response)
  /\ validated (py "test_cases")
       (Chain.parse_test_cases loads float_nonzero response feature
          test_point).
Proof.
  cbv zeta. repeat split; try apply finish_stage_failed; intros Hs;
    apply finish_stage_succeeded in Hs.
  - now apply parse_features_body_returns.
  - now apply parse_test_points_body_returns in Hs.
  - now apply parse_test_cases_body_returns in Hs.
Qed.

End ChainFacts.

(** C2 fails on the endpoints of [api.py].  The adapters of
    [generate_chain.py] make the three checks (lemma
    [chain_adapters_validate]); the endpoints read the key with a default
    and so report success, with no records, for a mapping without the key
    and for an empty array. *)
Lemma api_stage_accepts_missing_key :
  Api.extract_features Json.loads true (Return (js "{'x': 1}"))
  = Return {| Api.success := true; Api.records := [];
              Api.raw_response := Some (js "{'x': 1}");
              Api.error := None |}
  /\ Api.generate_test_points Json.loads true
       (Return (js "{'test_points': []}"))
     = Return {| Api.success := true; Api.records := [];
                 Api.raw_response := Some (js "{'test_points': []}");
                 Api.error := None |}
  /\ Chain.succeeded (Chain.parse_features Json.loads (js "{'x': 1}")) = false.
Proof. repeat split; vm_compute; reflexivity. Qed.

(** ** The full pipeline *)

Section ApiFacts.

Variable loads : str -> option json.
Variable req : Api.request.
Variable env : Api.replies.

Lemma test_points_loop_spec (features : list json) (start : nat) :
  exists all,
    Api.test_points_loop loads req env true start features = Return all /\
    (forall i, lookup_feature i all =
               if (start <=? i)%nat && (i <? start + length features)%nat
               then test_points_slot loads req env i else None) /\
    Forall (fun kv => (start <= fst kv < start + length features)%nat) all /\
    NoDup (map fst all).
Proof.
  revert start. induction features as [|f features IH]; intros start.
  - exists []. repeat split; [|constructor|constructor].
    intros i. simpl. rewrite Nat.add_0_r.
    destruct (start <=? i)%nat eqn:E1, (i <? start)%nat eqn:E2; try reflexivity.
    apply Nat.leb_le in E1. apply Nat.ltb_lt in E2. lia.
  - destruct (IH (S start)) as (others & Hl & Hlook & Hkeys & Hnd).
    simpl Api.test_points_loop. unfold Api.generate_test_points, Api.stage.
    simpl negb. cbv iota. simpl bind. rewrite Hl. simpl bind.
    assert (Hothers : lookup_feature start others = None).
    { rewrite Hlook.
      destruct (S start <=? start)%nat eqn:E; [|reflexivity].
      apply Nat.leb_le in E. lia. }
    assert (Hrange : forall i, i <> start ->
              lookup_feature i others =
              if (start <=? i)%nat && (i <? start + length (f :: features))%nat
              then test_points_slot loads req env i else None).
    { intros i Hi. rewrite Hlook. simpl length.
      replace (S start + length features)%nat
        with (start + S (length features))%nat by lia.
      destruct (i <? start + S (length features))%nat;
        rewrite ?andb_false_r, ?andb_true_r; [|reflexivity].
      destruct (S start <=? i)%nat eqn:E1, (start <=? i)%nat eqn:E2;
        try reflexivity.
      - apply Nat.leb_le in E1. apply Nat.leb_nle in E2. lia.
      - apply Nat.leb_nle in E1. apply Nat.leb_le in E2. lia. }
    assert (Hkeys' : Forall (fun kv => (start <= fst kv
                       < start + length (f :: features))%nat) others).
    { eapply Forall_impl; [|exact Hkeys]. simpl. intros kv Hkv. lia. }
    assert (Hfresh : ~ In start (map fst others)).
    { intros Hin. apply in_map_iff in Hin. destruct Hin as (kv & Hk & Hin).
      rewrite Forall_forall in Hkeys. apply Hkeys in Hin. lia. }
    assert (Hhere : (start <=? start)%nat
                    && (start <? start + length (f :: features))%nat = true).
    { apply andb_true_iff. split; [apply Nat.leb_le | apply Nat.ltb_lt];
        simpl; lia. }
    pose proof (eq_refl (test_points_slot loads req env start)) as Hslot.
    unfold test_points_slot at 1 in Hslot. cbv zeta in Hslot.
    destruct (Api.success (Api.respond loads (py "test_points")
                             (Api.test_points_reply env start))) eqn:Es.
    + eexists. split; [reflexivity|]. split; [|split].
      * intros i. simpl lookup_feature.
        destruct (Nat.eqb start i) eqn:E.
        -- apply Nat.eqb_eq in E. subst i. now rewrite Hhere, <- Hslot.
        -- apply Nat.eqb_neq in E. apply Hrange. congruence.
      * constructor; [simpl; lia | exact Hkeys'].
      * simpl. now constructor.
    + eexists. split; [reflexivity|]. split; [|split];
        [|exact Hkeys'|exact Hnd].
      intros i. destruct (Nat.eq_dec i start) as [->|Hi].
      * now rewrite Hothers, Hhere, <- Hslot.
      * now apply Hrange.
Qed.

Lemma test_cases_inner_spec (fi : nat) (test_points : list json)
  (start : nat) :
  exists here,
    Api.test_cases_inner loads env true fi start test_points = Return here /\
    forall i j, lookup_pair i j here =
                if Nat.eqb fi i && (start <=? j)%nat
                   && (j <? start + length test_points)%nat
                then test_cases_slot loads env fi j else None.
Proof.
  revert start. induction test_points as [|tp tps IH]; intros start.
  - exists []. split; [reflexivity|]. intros i j. simpl.
    rewrite Nat.add_0_r.
    destruct (Nat.eqb fi i); [|reflexivity]. simpl.
    destruct (start <=? j)%nat eqn:E1, (j <? start)%nat eqn:E2;
      try reflexivity.
    apply Nat.leb_le in E1. apply Nat.ltb_lt in E2. lia.
  - destruct (IH (S start)) as (others & Hl & Hlook).
    simpl Api.test_cases_inner. unfold Api.generate_test_cases, Api.stage.
    simpl negb. cbv iota. simpl bind. rewrite Hl. simpl bind.
    assert (Hrange : forall i j, (i, j) <> (fi, start) ->
              lookup_pair i j others =
              if Nat.eqb fi i && (start <=? j)%nat
                 && (j <? start + length (tp :: tps))%nat
              then test_cases_slot loads env fi j else None).
    { intros i j Hij. rewrite Hlook. simpl length.
      replace (S start + length tps)%nat
        with (start + S (length tps))%nat by lia.
      destruct (Nat.eqb fi i) eqn:Ei; [|reflexivity].
      apply Nat.eqb_eq in Ei. subst i. cbn [andb].
      destruct (j <? start + S (length tps))%nat;
        rewrite ?andb_false_r, ?andb_true_r; [|reflexivity].
      destruct (Nat.leb_spec (S start) j), (Nat.leb_spec start j);
        try reflexivity; try lia.
      assert (j = start) by lia. congruence. }
    assert (Hhere : Nat.eqb fi fi && (start <=? start)%nat
                    && (start <? start + length (tp :: tps))%nat = true).
    { rewrite Nat.eqb_refl. apply andb_true_iff.
      split; [apply Nat.leb_le | apply Nat.ltb_lt]; simpl; lia. }
    assert (Hothers : lookup_pair fi start others = None).
    { rewrite Hlook. rewrite Nat.eqb_refl. cbn [andb].
      destruct (Nat.leb_spec (S start) start); [lia | reflexivity]. }
    pose proof (eq_refl (test_cases_slot loads env fi start)) as Hslot.
    unfold test_cases_slot at 1 in Hslot. cbv zeta in Hslot.
    destruct (Api.success (Api.respond loads (py "test_cases")
                             (Api.test_cases_reply env fi start))) eqn:Es.
    + eexists. split; [reflexivity|].
      intros i j. simpl lookup_pair.
      destruct (Nat.eqb fi i && Nat.eqb start j) eqn:E.
      * apply andb_true_iff in E. destruct E as [E1 E2].
        apply Nat.eqb_eq in E1, E2. subst i j. now rewrite Hhere, <- Hslot.
      * apply Hrange. intros Heq. injection Heq as -> ->.
        now rewrite !Nat.eqb_refl in E.
    + eexists. split; [reflexivity|].
      intros i j.
      destruct (Nat.eq_dec i fi) as [->|Hi];
        [destruct (Nat.eq_dec j start) as [->|Hj]|].
      * now rewrite Hothers, Hhere, <- Hslot.
      * apply Hrange. congruence.
      * apply Hrange. congruence.
Qed.

Lemma lookup_pair_app (i j : nat) (a b : list ((nat * nat) * list json)) :
  lookup_pair i j (a ++ b) =
  match lookup_pair i j a with
  | Some v => Some v
  | None => lookup_pair i j b
  end.
Proof.
  induction a as [|[[k l] v] a IH]; simpl; [reflexivity|].
  destruct (Nat.eqb k i && Nat.eqb l j); [reflexivity | exact IH].
Qed.

Lemma lookup_feature_fresh (i : nat) (d : list (nat * list json)) :
  ~ In i (map fst d) -> lookup_feature i d = None.
Proof.
  induction d as [|[k v] d IH]; simpl; [reflexivity|].
  intros H. destruct (Nat.eqb k i) eqn:E.
  - apply Nat.eqb_eq in E. tauto.
  - apply IH. tauto.
Qed.

Lemma test_cases_loop_spec (features : list json)
  (all_test_points : list (nat * list json)) :
  Forall (fun kv => (fst kv < length features)%nat) all_test_points ->
  NoDup (map fst all_test_points) ->
  exists all,
    Api.test_cases_loop loads env true features all_test_points
    = Return all /\
    forall i j, lookup_pair i j all =
                match lookup_feature i all_test_points with
                | Some test_points =>
                    if (j <? length test_points)%nat
                    then test_cases_slot loads env i j else None
                | None => None
                end.
Proof.
  induction all_test_points as [|[fi tps] rest IH]; intros Hkeys Hnd.
  - exists []. split; reflexivity.
  - inversion Hkeys as [|? ? Hfi Hrest]; subst.
    inversion Hnd as [|? ? Hfresh Hnd']; subst.
    destruct (IH Hrest Hnd') as (others & Hl & Hlook).
    destruct (test_cases_inner_spec fi tps 0) as (here & Hh & Hhere).
    simpl Api.test_cases_loop. simpl in Hfi.
    destruct (nth_error features fi) as [feature|] eqn:En.
    2: { apply nth_error_None in En. lia. }
    rewrite Hh. simpl bind. rewrite Hl. simpl bind.
    eexists. split; [reflexivity|].
    intros i j. rewrite lookup_pair_app, Hhere, Hlook. simpl lookup_feature.
    destruct (Nat.eqb fi i) eqn:E.
    + apply Nat.eqb_eq in E. subst i. simpl.
      rewrite (lookup_feature_fresh fi rest Hfresh).
      destruct (j <? length tps)%nat; [|reflexivity].
      destruct (test_cases_slot loads env fi j); reflexivity.
    + reflexivity.
Qed.

End ApiFacts.

(** C8.  In full-pipeline mode the response reports success exactly when the
    feature stage succeeded, whatever the later sub-calls do.  Each slot is
    decided by its own sub-call alone: feature [i] has its test points when
    its test-point call succeeded and no entry otherwise; the pair [(i, j)]
    has its test cases when feature [i] has test points, [j] is one of them
    and the test-case call for [(i, j)] succeeded, and no entry otherwise.  So
    a failed sub-call empties its own slot and leaves its siblings' results
    in place. *)
Theorem pipeline_isolates_failures (loads : str -> option json)
  (req : Api.request) (env : Api.replies) :
  let features_response :=
    Api.respond loads (py "features") (Api.features_reply env) in
  exists r,
    Api.run_full_pipeline loads req env true = Return r /\
    Api.p_success r = Api.success features_response /\
    (Api.success features_response = true ->
     let features :=
       Api.cap (Api.max_features req) (Api.records features_response) in
     Api.p_features r = features /\
     (forall i,
        lookup_feature i (Api.p_test_points r) =
        if (i <? length features)%nat
        then test_points_slot loads req env i else None) /\
     (forall i j,
        lookup_pair i j (Api.p_test_cases r) =
        match lookup_feature i (Api.p_test_points r) with
        | Some test_points =>
            if (j <? length test_points)%nat
            then test_cases_slot loads env i j else None
        | None => None
        end)).
Proof.
  intros features_response.
  unfold Api.run_full_pipeline, Api.extract_features, Api.stage.
  simpl negb. cbv iota. simpl bind. fold features_response.
  destruct (Api.success features_response) eqn:Es; simpl negb; cbv iota.
  2: { eexists. split; [reflexivity|]. split; [reflexivity|]. discriminate. }
  set (features := Api.cap (Api.max_features req)
                     (Api.records features_response)).
  destruct (test_points_loop_spec loads req env features 0)
    as (all_tp & Htp & Hlook_tp & Hkeys & Hnd).
  assert (Hkeys' : Forall (fun kv => (fst kv < length features)%nat) all_tp).
  { eapply Forall_impl; [|exact Hkeys]. simpl. intros kv Hkv. lia. }
  destruct (test_cases_loop_spec loads env features all_tp Hkeys' Hnd)
    as (all_tc & Htc & Hlook_tc).
  rewrite Htp. simpl bind. rewrite Htc. simpl bind.
  eexists. split; [reflexivity|]. split; [reflexivity|]. intros _.
  cbv zeta. simpl. split; [reflexivity|]. split.
  - intros i. rewrite Hlook_tp. reflexivity.
  - exact Hlook_tc.
Qed.

(** A run with two features in which the test-point call of the first and
    the test-case call of the pair (1, 0) fail: the run succeeds, feature 1
    keeps its test points and the pair (1, 1) its test cases. *)
Example pipeline_partial_run :
  let env :=
    {| Api.features_reply :=
         Return (js "{'features': [{'id': 1}, {'id': 2}]}");
       Api.test_points_reply := fun i =>
         if Nat.eqb i 0 then Return (py "no json here")
         else Return (js "{'test_points': [{'id': 1}, {'id': 2}]}");
       Api.test_cases_reply := fun i j =>
         if Nat.eqb j 0 then Raise (CollaboratorError (py "timeout"))
         else Return (js "{'test_cases': [{'case_id': 'TC1'}]}") |} in
  let req := {| Api.max_features := None;
                Api.max_test_points_per_feature := None |} in
  exists r,
    Api.run_full_pipeline Json.loads req env true = Return r /\
    Api.p_success r = true /\
    map fst (Api.p_test_points r) = [1%nat] /\
    map fst (Api.p_test_cases r) = [(1%nat, 1%nat)].
Proof. eexists. vm_compute. repeat split. Qed.

(** ** Texts without fences, and slices *)

Section RecoveryFacts.

Variable loads : str -> option json.

Lemma json_tag_fence (s : str) :
  json_tag s = true -> starts_with fence s = true.
Proof.
  destruct s as [|a [|b [|c [|j [|s' [|o [|n s]]]]]]]; try discriminate.
  unfold json_tag.
  destruct (N.eqb_spec a 96), (N.eqb_spec b 96), (N.eqb_spec c 96);
    simpl; try discriminate.
  intros _. subst. reflexivity.
Qed.

Lemma cut_none_starts (pat s : str) :
  cut pat s = None -> starts_with pat s = false.
Proof.
  destruct s as [|c r]; simpl; destruct (starts_with pat _); congruence.
Qed.

Lemma cut_at_none (opener : str -> bool) (width : nat) (pat s : str) :
  (forall x, opener x = true -> starts_with pat x = true) ->
  cut pat s = None -> cut_at opener width s = None.
Proof.
  intros Hop. induction s as [|c r IH]; intros H.
  - pose proof (cut_none_starts _ _ H) as Hs. simpl.
    destruct (opener []) eqn:E; [|reflexivity].
    apply Hop in E. congruence.
  - pose proof (cut_none_starts _ _ H) as Hs.
    unfold cut in H; fold cut in H. rewrite Hs in H.
    unfold cut_at; fold cut_at.
    destruct (opener (c :: r)) eqn:E.
    { apply Hop in E. congruence. }
    destruct (cut pat r) as [[? ?]|]; [discriminate|].
    now rewrite IH.
Qed.

Lemma no_fence_no_blocks (text : str) :
  contains fence text = false ->
  tagged_blocks text = [] /\ untagged_blocks text = [].
Proof.
  intros H. apply contains_false_cut in H.
  unfold tagged_blocks, untagged_blocks. split.
  - destruct (length text); [reflexivity|]. cbn [fenced_groups].
    now rewrite (cut_at_none json_tag 7 fence text json_tag_fence H).
  - destruct (length text); [reflexivity|]. cbn [fenced_groups].
    now rewrite (cut_at_none (starts_with fence) 3 fence text
                   (fun x Hx => Hx) H).
Qed.

Lemma strip_not_blank (text : str) (c : char) :
  In c text -> is_space c = false -> strip text <> [].
Proof.
  intros Hin Hc H. apply strip_nil in H.
  rewrite Forall_forall in H. apply H in Hin. congruence.
Qed.

(** Without a fence the parser goes straight to the slices. *)
Lemma parse_without_fence (text : str) (c : char) :
  contains fence text = false -> In c text -> is_space c = false ->
  robust_json_parse loads text =
  match brace_strategies loads text with
  | Some v => Return v
  | None =>
      match bracket_strategy loads text with
      | Some v => Return v
      | None => Raise (JSONDecodeError (extraction_message text) text 0)
      end
  end.
Proof.
  intros Hf Hin Hc. unfold robust_json_parse.
  destruct (strip text) eqn:E.
  { exfalso. eapply strip_not_blank; eauto. }
  destruct (no_fence_no_blocks text Hf) as [-> ->]. reflexivity.
Qed.

Lemma ends_with_char_split (c : char) (s : str) :
  ends_with_char c s = true -> exists m, s = m ++ [c].
Proof.
  unfold ends_with_char. destruct (rev s) as [|d r] eqn:E; [discriminate|].
  intros H. apply N.eqb_eq in H. subst d.
  exists (rev r). apply (f_equal (@rev N)) in E.
  rewrite rev_involutive in E. exact E.
Qed.

Lemma starts_with_one (c : char) (s : str) :
  starts_with [c] s = true -> exists r, s = c :: r.
Proof.
  destruct s as [|d r]; simpl; [discriminate|].
  rewrite andb_true_r. intros H. apply N.eqb_eq in H. subst. eauto.
Qed.

(** The slice between the first [c] and the last [d] of a text of the form
    [pre ++ body ++ post] is [body], when [body] runs from a [c] to a [d],
    [pre] holds no [c] and [post] no [d]. *)
Lemma slice_is_body (c d : char) (pre body post : str) :
  c <> d ->
  starts_with [c] body = true -> ends_with_char d body = true ->
  find c pre = None -> rfind d post = None ->
  exists i j,
    find c (pre ++ body ++ post) = Some i /\
    rfind d (pre ++ body ++ post) = Some j /\
    (i <? j)%nat = true /\
    slice (pre ++ body ++ post) i (j + 1) = body.
Proof.
  intros Hcd Hs He Hpre Hpost.
  destruct (starts_with_one _ _ Hs) as [r Hr].
  destruct (ends_with_char_split _ _ He) as [m Hm].
  assert (Hm' : exists m', m = c :: m').
  { destruct m as [|x m'].
    - rewrite Hr in Hm. simpl in Hm. injection Hm as Hc _. congruence.
    - rewrite Hr in Hm. simpl in Hm. injection Hm as <- _. eauto. }
  destruct Hm' as [m' ->].
  exists (length pre), (length pre + length (c :: m'))%nat.
  repeat split.
  - rewrite Hm. simpl. rewrite <- app_assoc. simpl.
    now apply find_app_first.
  - rewrite Hm.
    replace (pre ++ ((c :: m') ++ [d]) ++ post)
      with ((pre ++ c :: m') ++ d :: post)
      by (rewrite <- !app_assoc; reflexivity).
    rewrite rfind_app_last by assumption.
    rewrite length_app. reflexivity.
  - apply Nat.ltb_lt. simpl. lia.
  - replace (length pre + length (c :: m') + 1)%nat
      with (length pre + length body)%nat.
    + apply slice_middle.
    + rewrite Hm, length_app. simpl. lia.
Qed.

Lemma brace_strategies_body (pre body post : str) (v : json) :
  loads body = Some v -> object_text body = true ->
  find 123 pre = None -> rfind 125 post = None ->
  brace_strategies loads (pre ++ body ++ post) = Some v.
Proof.
  intros Hl Ho Hpre Hpost. unfold object_text in Ho.
  apply andb_true_iff in Ho. destruct Ho as [Hs He].
  destruct (slice_is_body 123 125 pre body post ltac:(discriminate)
              Hs He Hpre Hpost) as (i & j & Hf & Hr & Hij & Hslice).
  unfold brace_strategies. cbv zeta.
  now rewrite Hf, Hr, Hij, Hslice, Hl.
Qed.

Lemma bracket_strategy_body (pre body post : str) (v : json) :
  loads body = Some v -> array_text body = true ->
  find 91 pre = None -> rfind 93 post = None ->
  bracket_strategy loads (pre ++ body ++ post) = Some v.
Proof.
  intros Hl Ho Hpre Hpost. unfold array_text in Ho.
  apply andb_true_iff in Ho. destruct Ho as [Hs He].
  destruct (slice_is_body 91 93 pre body post ltac:(discriminate)
              Hs He Hpre Hpost) as (i & j & Hf & Hr & Hij & Hslice).
  unfold bracket_strategy.
  now rewrite Hf, Hr, Hij, Hslice, Hl.
Qed.

End RecoveryFacts.

(** ** Recovering an embedded value *)

(** C1, as stated, fails: for an array that holds one object the slice from
    the first brace to the last brace is tried before the brackets and is
    itself a valid object, which is returned in place of the array (here
    with no prose at all).  Prose that holds a brace defeats the brace slice
    in the same way. *)
Lemma array_of_one_object_returns_object :
  ~ (forall pre body post v,
       object_text body || array_text body = true ->
       Json.loads body = Some v ->
       parse (pre ++ body ++ post) = Return v).
Proof.
  intros H.
  specialize (H [] (js "[{'a': 1}]") [] (JArray [JObject [(py "a", JInt 1)]])
                eq_refl eq_refl).
  vm_compute in H. discriminate H.
Qed.

(** C1, amended.  A well-formed object embedded in a text that holds no
    code fence is recovered when the prose before it holds no opening brace
    and the prose after it no closing brace; a well-formed array is
    recovered when the prose before it holds no opening bracket, the prose
    after it no closing bracket, and the text no opening brace. *)
Theorem embedded_value_recovered (pre body post : str) (v : json) :
  Json.loads body = Some v ->
  contains fence (pre ++ body ++ post) = false ->
  (object_text body = true /\
   find 123 pre = None /\ rfind 125 post = None)
  \/ (array_text body = true /\
      find 91 pre = None /\ rfind 93 post = None /\
      find 123 (pre ++ body ++ post) = None) ->
  parse (pre ++ body ++ post) = Return v.
Proof.
  intros Hl Hf [(Ho & Hpre & Hpost) | (Ho & Hpre & Hpost & Hnb)].
  - assert (Hin : In 123 (pre ++ body ++ post)).
    { unfold object_text in Ho. apply andb_true_iff in Ho.
      destruct Ho as [Hs _]. destruct (starts_with_one _ _ Hs) as [r ->].
      apply in_or_app. right. now left. }
    unfold parse.
    rewrite (parse_without_fence Json.loads _ 123 Hf Hin eq_refl).
    now rewrite (brace_strategies_body Json.loads pre body post v).
  - assert (Hin : In 91 (pre ++ body ++ post)).
    { unfold array_text in Ho. apply andb_true_iff in Ho.
      destruct Ho as [Hs _]. destruct (starts_with_one _ _ Hs) as [r ->].
      apply in_or_app. right. now left. }
    unfold parse.
    rewrite (parse_without_fence Json.loads _ 91 Hf Hin eq_refl).
    unfold brace_strategies. rewrite Hnb.
    now rewrite (bracket_strategy_body Json.loads pre body post v).
Qed.

Lemma embedded_value_recovered_witness :
  parse (py "Sure, here it is: " ++ js "{'features': [{'id': 1}]}"
         ++ py " Hope that helps!")
  = Return (JObject [(py "features", JArray [JObject [(py "id", JInt 1)]])]).
Proof.
  apply embedded_value_recovered.
  - reflexivity.
  - reflexivity.
  - left. repeat split; reflexivity.
Defined.

(** ** Repairing a trailing comma *)

Section RepairFacts.

Lemma no_trailing_comma_fixed (s : str) :
  has_trailing_comma s = false -> remove_trailing_commas s = s.
Proof.
  induction s as [|c r IH]; [reflexivity|]. simpl.
  intros H. apply orb_false_iff in H. destruct H as [H1 H2].
  rewrite H1. f_equal. now apply IH.
Qed.

Lemma closer_ahead_here (ws rest : str) (closer : char) :
  closer = 125 \/ closer = 93 ->
  Forall (fun c => is_space c = true) ws ->
  closer_ahead (ws ++ closer :: rest) = true.
Proof.
  intros Hc Hws. unfold closer_ahead. rewrite lstrip_spaces by assumption.
  destruct Hc as [-> | ->]; reflexivity.
Qed.

(** A closer seen past a comma is seen without the comma too. *)
Lemma closer_ahead_past_comma (a x y : str) :
  closer_ahead (a ++ 44 :: x) = true -> closer_ahead (a ++ y) = true.
Proof.
  unfold closer_ahead. induction a as [|c a IH]; simpl.
  - discriminate.
  - destruct (is_space c); [exact IH | trivial].
Qed.

Lemma remove_the_trailing_comma (a ws rest : str) (closer : char) :
  closer = 125 \/ closer = 93 ->
  Forall (fun c => is_space c = true) ws ->
  has_trailing_comma (a ++ ws ++ closer :: rest) = false ->
  remove_trailing_commas (a ++ 44 :: ws ++ closer :: rest)
  = a ++ ws ++ closer :: rest.
Proof.
  intros Hc Hws. induction a as [|c a IH]; intros H.
  - simpl. rewrite (closer_ahead_here ws rest closer Hc Hws).
    now apply no_trailing_comma_fixed.
  - simpl in H. apply orb_false_iff in H. destruct H as [H1 H2].
    simpl.
    destruct (N.eqb c 44 && closer_ahead (a ++ 44 :: ws ++ closer :: rest))
      eqn:E.
    + apply andb_true_iff in E. destruct E as [E1 E2].
      apply closer_ahead_past_comma with (y := ws ++ closer :: rest) in E2.
      rewrite E1, E2 in H1. discriminate.
    + f_equal. now apply IH.
Qed.

Lemma ends_with_char_app (c : char) (x y : str) :
  y <> [] -> ends_with_char c (x ++ y) = ends_with_char c y.
Proof.
  intros Hy. unfold ends_with_char. rewrite rev_app_distr.
  destruct (rev y) as [|d l] eqn:E; [|reflexivity].
  apply (f_equal (@rev N)) in E. rewrite rev_involutive in E. contradiction.
Qed.

Lemma strip_line_comments_fixed (s : str) :
  contains (py "//") s = false -> strip_line_comments s = s.
Proof.
  unfold contains, strip_line_comments.
  induction s as [|c r IH]; [reflexivity|].
  unfold cut; fold cut. cbn [strip_line_comments_aux].
  destruct (starts_with (py "//") (c :: r)); [discriminate|].
  destruct (cut (py "//") r) as [[? ?]|] eqn:E; [discriminate|].
  intros _. f_equal. now apply IH.
Qed.

Lemma strip_block_comments_fixed (s : str) :
  contains (py "/*") s = false -> strip_block_comments s = s.
Proof.
  intros H. apply contains_false_cut in H.
  unfold strip_block_comments. destruct (length s); [reflexivity|].
  cbn [strip_block_comments_aux]. now rewrite H.
Qed.

End RepairFacts.

(** C5, as stated, fails: the repair passes do not know about strings, and
    the pass that strips line comments cuts a value that holds two slashes,
    such as a URL, so that nothing decodes any more. *)
Lemma url_value_defeats_comma_repair :
  ~ (forall a ws rest closer v,
       closer = 125 \/ closer = 93 ->
       Forall (fun c => is_space c = true) ws ->
       object_text (a ++ ws ++ closer :: rest) = true ->
       Json.loads (a ++ ws ++ closer :: rest) = Some v ->
       Json.loads (a ++ 44 :: ws ++ closer :: rest) = None ->
       parse (a ++ 44 :: ws ++ closer :: rest) = Return v).
Proof.
  intros H.
  specialize (H (js "{'u': 'http://x'") [] [] 125
                (JObject [(py "u", JString (py "http://x"))])
                (or_introl eq_refl) (Forall_nil _) eq_refl eq_refl eq_refl).
  vm_compute in H. discriminate H.
Qed.

(** C5, amended.  Take an object text that decodes, and put a comma before
    one of its closing braces or brackets (whitespace may follow the comma)
    so that it decodes no more.  When the input holds no code fence, no
    [//] and no [/*], and the object text itself holds no comma followed by
    a closing brace or bracket (inside a string, say), the parser returns
    what the comma-free text decodes to. *)
Theorem trailing_comma_repaired (a ws rest : str) (closer : char) (v : json) :
  let fixed := a ++ ws ++ closer :: rest in
  let text := a ++ 44 :: ws ++ closer :: rest in
  closer = 125 \/ closer = 93 ->
  Forall (fun c => is_space c = true) ws ->
  object_text fixed = true ->
  Json.loads fixed = Some v -> Json.loads text = None ->
  contains fence text = false ->
  contains (py "//") text = false -> contains (py "/*") text = false ->
  has_trailing_comma fixed = false ->
  parse text = Return v.
Proof.
  intros fixed text Hc Hws Ho Hfixed Htext Hf Hl Hb Hcomma.
  assert (Hrepair : repair text = fixed).
  { unfold repair. rewrite (strip_line_comments_fixed text Hl).
    rewrite (strip_block_comments_fixed text Hb).
    now apply remove_the_trailing_comma. }
  unfold object_text in Ho. apply andb_true_iff in Ho.
  destruct Ho as [Hs He].
  destruct (starts_with_one _ _ Hs) as [r Hr].
  assert (Hs' : starts_with [123] text = true).
  { unfold text, fixed in *. destruct a as [|x a'].
    - simpl in Hr. destruct ws as [|w ws'].
      + simpl in Hr. injection Hr as -> _. destruct Hc; discriminate.
      + simpl in Hr. injection Hr as -> _. inversion Hws; discriminate.
    - simpl in Hr. injection Hr as -> _. simpl. reflexivity. }
  assert (He' : ends_with_char 125 text = true).
  { unfold text, fixed in *.
    replace (a ++ 44 :: ws ++ closer :: rest)
      with ((a ++ 44 :: ws) ++ closer :: rest)
      by (rewrite <- app_assoc; reflexivity).
    rewrite app_assoc in He.
    rewrite ends_with_char_app in He by discriminate.
    rewrite ends_with_char_app by discriminate. exact He. }
  assert (Ho' : object_text text = true).
  { unfold object_text. now rewrite Hs', He'. }
  assert (Hin : In 123 text).
  { destruct (starts_with_one _ _ Hs') as [r' ->]. now left. }
  unfold parse.
  rewrite (parse_without_fence Json.loads text 123 Hf Hin eq_refl).
  assert (Hslice : exists i j,
             find 123 text = Some i /\ rfind 125 text = Some j /\
             (i <? j)%nat = true /\ slice text i (j + 1) = text).
  { destruct (slice_is_body 123 125 [] text [] ltac:(discriminate)
                Hs' He' eq_refl eq_refl) as (i & j & H1 & H2 & H3 & H4).
    simpl in H1, H2, H4. rewrite app_nil_r in H1, H2, H4.
    exists i, j. repeat split; assumption. }
  destruct Hslice as (i & j & H1 & H2 & H3 & H4).
  unfold brace_strategies. cbv zeta.
  now rewrite H1, H2, H3, H4, Htext, Hrepair, Hfixed.
Qed.

Lemma trailing_comma_repaired_witness :
  parse (js "{'test_points': [ {'id':1,'name':'Valid login'}, ]}")
  = Return (JObject [(py "test_points",
                      JArray [JObject [(py "id", JInt 1);
                                       (py "name",
                                        JString (py "Valid login"))]])]).
Proof.
  apply (trailing_comma_repaired
           (js "{'test_points': [ {'id':1,'name':'Valid login'}")
           (py " ") (js "}") 93).
  - now right.
  - repeat constructor.
  - reflexivity.
  - reflexivity.
  - reflexivity.
  - reflexivity.
  - reflexivity.
  - reflexivity.
  - reflexivity.
Defined.

(** ** Fenced blocks *)

Section FenceFacts.

Lemma contains_cons_false (pat : str) (c : char) (s : str) :
  contains pat (c :: s) = false ->
  starts_with pat (c :: s) = false /\ contains pat s = false.
Proof.
  unfold contains, cut; fold cut.
  destruct (starts_with pat (c :: s)); [discriminate|].
  destruct (cut pat s) as [[? ?]|]; [discriminate|]. now split.
Qed.

(** The tag is found right after a prefix that holds no fence. *)
Lemma cut_at_tag (pre rest : str) :
  contains fence pre = false ->
  cut_at json_tag 7 (pre ++ py "```json" ++ rest) = Some (pre, rest).
Proof.
  induction pre as [|c pre IH]; intros H; [reflexivity|].
  apply contains_cons_false in H. destruct H as [Hsw Hpre].
  assert (Htag : json_tag ((c :: pre) ++ py "```json" ++ rest) = false).
  { destruct pre as [|c2 [|c3 pre]].
    - simpl. destruct (N.eqb c 96); reflexivity.
    - simpl. destruct (N.eqb c 96), (N.eqb c2 96); reflexivity.
    - destruct (json_tag ((c :: c2 :: c3 :: pre) ++ py "```json" ++ rest))
        eqn:E; [|reflexivity].
      apply json_tag_fence in E. simpl in E, Hsw. congruence. }
  change ((c :: pre) ++ py "```json" ++ rest)
    with (c :: (pre ++ py "```json" ++ rest)) in *.
  unfold cut_at; fold cut_at. rewrite Htag, (IH Hpre). reflexivity.
Qed.

Lemma tagged_blocks_first (pre body post : str) :
  contains fence pre = false ->
  contains fence (body ++ py "``") = false ->
  exists others,
    tagged_blocks (pre ++ py "```json" ++ body ++ fence ++ post)
    = strip body :: others.
Proof.
  intros Hpre Hbody. unfold tagged_blocks.
  destruct (length (pre ++ py "```json" ++ body ++ fence ++ post))
    as [|fuel] eqn:El.
  { rewrite !length_app in El. simpl in El. lia. }
  cbn [fenced_groups]. rewrite (cut_at_tag pre _ Hpre).
  change fence with (py "``" ++ [96]).
  rewrite (cut_app (py "``") 96 body post Hbody).
  eexists. reflexivity.
Qed.

Lemma spaces_no_fence (s : str) :
  Forall (fun c => is_space c = true) s -> contains fence s = false.
Proof.
  unfold contains. induction 1 as [|c s Hc _ IH]; [reflexivity|].
  unfold cut; fold cut.
  assert (Hsw : starts_with fence (c :: s) = false).
  { change (starts_with fence (c :: s))
      with (N.eqb 96 c && starts_with (py "``") s).
    rewrite N.eqb_sym.
    destruct (space_plain c Hc)
      as (_&_&_&_&_&_&_&_&_&_&_&_&_&_&_&_&_&H96&_).
    now rewrite H96. }
  rewrite Hsw. destruct (cut fence s) as [[? ?]|]; [discriminate|].
  reflexivity.
Qed.

Variable loads : str -> option json.

(** The first tagged block, in order of appearance, that decodes is the
    result. *)
Lemma first_decoding_block (text : str) (before after : list str) (m : str)
  (v : json) :
  tagged_blocks text = before ++ m :: after ->
  Forall (fun x => loads (strip x) = None) before ->
  loads (strip m) = Some v ->
  robust_json_parse loads text = Return v.
Proof.
  intros Hb Hbefore Hm. unfold robust_json_parse.
  destruct (strip text) eqn:E.
  { apply strip_nil, spaces_no_fence, no_fence_no_blocks in E.
    destruct E as [E _]. rewrite E in Hb. destruct before; discriminate. }
  rewrite Hb.
  now rewrite (first_success_first (try_tagged loads) before after m v).
Qed.

Lemma fenced_payload (pre body post : str) (v : json) :
  loads (strip body) = Some v ->
  contains fence pre = false ->
  contains fence (body ++ py "``") = false ->
  robust_json_parse loads (pre ++ py "```json" ++ body ++ fence ++ post)
  = Return v.
Proof.
  intros Hl Hpre Hbody.
  destruct (tagged_blocks_first pre body post Hpre Hbody) as [others Hb].
  apply (first_decoding_block _ [] others (strip body) v Hb).
  - constructor.
  - now rewrite strip_idem.
Qed.

End FenceFacts.

(** C6, as stated, fails: the block ends at the first fence after the tag,
    here inside a string of the payload; what lies before it does not
    decode, and the prose holds a brace that defeats the later strategies. *)
Lemma fence_inside_payload_defeats_block :
  ~ (forall pre body post v,
       Json.loads (strip body) = Some v ->
       parse (pre ++ py "```json" ++ body ++ fence ++ post) = Return v).
Proof.
  intros H.
  specialize (H (py "see {x} ") (10 :: js "{'a': '```'}" ++ [10])
                (py " done") (JObject [(py "a", JString fence)]) eq_refl).
  vm_compute in H. discriminate H.
Qed.

(** C6, amended.  For an input [prefix ```json body ``` suffix] whose body,
    without the whitespace at its ends, decodes, the parser returns the
    decoded body when the prefix holds no fence and no fence begins inside
    the body (the closing fence is the first one after the tag).  In
    general the first tagged block, in order of appearance, that decodes is
    the result. *)
Theorem fenced_payload_returned (pre body post : str) (v : json) :
  Json.loads (strip body) = Some v ->
  contains fence pre = false ->
  contains fence (body ++ py "``") = false ->
  parse (pre ++ py "```json" ++ body ++ fence ++ post) = Return v
  /\ (forall text before m after w,
        tagged_blocks text = before ++ m :: after ->
        Forall (fun x => Json.loads (strip x) = None) before ->
        Json.loads (strip m) = Some w ->
        parse text = Return w).
Proof.
  intros Hl Hpre Hbody. split.
  - now apply fenced_payload.
  - intros text before m after w. apply first_decoding_block.
Qed.

Lemma fenced_payload_returned_witness :
  parse (py "Sure! " ++ py "```json"
         ++ (10 :: js "{'features':[{'id':1,'name':'Login'}]}" ++ [10])
         ++ fence ++ py " Hope that helps!")
  = Return (JObject [(py "features",
                      JArray [JObject [(py "id", JInt 1);
                                       (py "name", JString (py "Login"))]])]).
Proof.
  apply (fenced_payload_returned (py "Sure! ")
           (10 :: js "{'features':[{'id':1,'name':'Login'}]}" ++ [10])
           (py " Hope that helps!")); reflexivity.
Defined.


(** ** Integers and their decimal text *)

Section NumFacts.

Lemma digits_value_app (a : Z) (x y : str) :
  digits_value a (x ++ y) = digits_value (digits_value a x) y.
Proof.
  revert a. induction x as [|d x IH]; intros a; [reflexivity|].
  simpl. apply IH.
Qed.

Lemma digit_of_mod (n : N) : is_digit (48 + n mod 10) = true.
Proof.
  unfold is_digit.
  pose proof (N.mod_upper_bound n 10 ltac:(discriminate)) as H.
  generalize dependent (n mod 10). intros m H.
  apply andb_true_iff. split; apply N.leb_le; lia.
Qed.

Lemma digits_of_S (fuel : nat) (n : N) (acc : str) :
  digits_of (S fuel) n acc
  = if n / 10 =? 0 then (48 + n mod 10) :: acc
    else digits_of fuel (n / 10) ((48 + n mod 10) :: acc).
Proof. reflexivity. Qed.

(** The digits written for [n]: at least one, all decimal, and read back
    they give [n]. *)
Lemma digits_of_spec (fuel : nat) (n : N) (acc : str) :
  n < 2 ^ N.of_nat (S fuel) ->
  exists ds,
    digits_of (S fuel) n acc = ds ++ acc /\ ds <> [] /\
    Forall (fun d => is_digit d = true) ds /\
    forall a, digits_value a ds
              = (a * 10 ^ Z.of_nat (length ds) + Z.of_N n)%Z.
Proof.
  revert n acc. induction fuel as [|fuel IH]; intros n acc Hn.
  - change (2 ^ N.of_nat 1) with 2 in Hn.
    assert (E : n / 10 = 0) by (apply N.div_small; lia).
    exists [48 + n mod 10]. rewrite digits_of_S, E.
    repeat split; [discriminate | repeat constructor; apply digit_of_mod |].
    intros a. rewrite N.mod_small by lia. cbn [digits_value length].
    replace (48 + n - 48) with n by lia. lia.
  - rewrite digits_of_S. destruct (N.eqb_spec (n / 10) 0) as [E|E].
    + exists [48 + n mod 10].
      repeat split; [discriminate | repeat constructor; apply digit_of_mod |].
      intros a. cbn [digits_value length].
      pose proof (N.div_mod n 10 ltac:(discriminate)) as Hd.
      rewrite E in Hd. generalize dependent (n mod 10). intros m Hd.
      replace (48 + m - 48) with m by lia. lia.
    + assert (Hq : n / 10 < 2 ^ N.of_nat (S fuel)).
      { replace (N.of_nat (S (S fuel))) with (N.succ (N.of_nat (S fuel)))
          in Hn by lia.
        rewrite N.pow_succ_r' in Hn.
        apply N.Div0.div_lt_upper_bound.
        generalize dependent (2 ^ N.of_nat (S fuel)). intros; lia. }
      destruct (IH (n / 10) ((48 + n mod 10) :: acc) Hq)
        as (ds & Hds & Hne & Hall & Hval).
      exists (ds ++ [48 + n mod 10]).
      rewrite Hds, <- app_assoc. split; [reflexivity|].
      split; [destruct ds; discriminate|].
      split.
      { apply Forall_app. split; [exact Hall|].
        repeat constructor. apply digit_of_mod. }
      intros a. rewrite digits_value_app, Hval. cbn [digits_value].
      rewrite length_app. simpl length.
      replace (Z.of_nat (length ds + 1)) with (Z.succ (Z.of_nat (length ds)))
        by lia.
      rewrite Z.pow_succ_r by lia.
      pose proof (N.div_mod n 10 ltac:(discriminate)) as Hd.
      revert Hd. generalize (n mod 10) (n / 10). intros m q Hd.
      replace (48 + m - 48) with m by lia.
      generalize (10 ^ Z.of_nat (length ds))%Z. intros; lia.
Qed.

Lemma str_of_N_spec (n : N) :
  str_of_N n <> [] /\
  Forall (fun d => is_digit d = true) (str_of_N n) /\
  digits_value 0 (str_of_N n) = Z.of_N n.
Proof.
  unfold str_of_N.
  assert (Hn : n < 2 ^ N.of_nat (S (N.to_nat (N.size n)))).
  { replace (N.of_nat (S (N.to_nat (N.size n)))) with (N.succ (N.size n))
      by lia.
    rewrite N.pow_succ_r'. pose proof (N.size_gt n). lia. }
  destruct (digits_of_spec _ n [] Hn) as (ds & -> & Hne & Hall & Hval).
  rewrite app_nil_r. repeat split; try assumption.
  rewrite Hval. lia.
Qed.

Lemma scan_all_digits (ds : str) (acc : Z) (prev : char) :
  ds <> [] -> Forall (fun d => is_digit d = true) ds ->
  scan_digits acc prev ds = Some (digits_value acc ds, []).
Proof.
  revert acc prev. induction ds as [|d ds IH]; intros acc prev Hne Hall;
    [congruence|].
  inversion Hall as [|? ? Hd Hrest]; subst.
  cbn [scan_digits digits_value]. rewrite Hd.
  destruct ds as [|d' ds'].
  - cbn [scan_digits digits_value].
    destruct (N.eqb_spec d 95) as [->|_]; [discriminate Hd | reflexivity].
  - apply IH; [discriminate | exact Hrest].
Qed.

Lemma digit_plain (d : char) :
  is_digit d = true ->
  (d <? 128) = true /\ ascii_space d = false /\ d <> 43 /\ d <> 45 /\ d <> 46.
Proof.
  unfold is_digit, ascii_space. intros H. apply andb_true_iff in H.
  destruct H as [H1 H2]. apply N.leb_le in H1, H2.
  repeat split; try lia.
  - apply N.ltb_lt. lia.
  - apply orb_false_iff. split.
    + apply andb_false_iff. right. apply N.leb_gt. lia.
    + apply N.eqb_neq. lia.
Qed.

Lemma digits_ascii (ds : str) :
  Forall (fun d => is_digit d = true) ds ->
  forallb (fun c => c <? 128) ds = true.
Proof.
  induction 1 as [|d ds Hd _ IH]; [reflexivity|]. simpl.
  destruct (digit_plain d Hd) as [-> _]. exact IH.
Qed.

Lemma int_of_digits (ds : str) :
  ds <> [] -> Forall (fun d => is_digit d = true) ds ->
  int_of_ascii ds = Some (digits_value 0 ds)
  /\ int_of_ascii (45 :: ds) = Some (- digits_value 0 ds)%Z.
Proof.
  intros Hne Hall. destruct ds as [|d ds]; [congruence|].
  inversion Hall as [|? ? Hd Hrest]; subst.
  destruct (digit_plain d Hd) as (_ & Hsp & H43 & H45 & _).
  pose proof (scan_all_digits (d :: ds) 0 0 Hne Hall) as Hscan.
  split.
  - unfold int_of_ascii. cbn [skip_spaces]. rewrite Hsp.
    assert (E : match d :: ds with
                | 43 :: r => (false, r)
                | 45 :: r => (true, r)
                | _ => (false, d :: ds)
                end = (false, d :: ds)).
    { destruct d as [|p]; [reflexivity|].
      do 6 (destruct p as [p|p|]; try reflexivity); congruence. }
    rewrite E. cbn [fst snd]. rewrite Hd, Hscan. reflexivity.
  - unfold int_of_ascii. cbn [skip_spaces].
    change (ascii_space 45) with false. cbv iota.
    cbn [fst snd]. rewrite Hd, Hscan. reflexivity.
Qed.

(** Reading back what [str] writes *)
Lemma int_str_of_int (unicode_decimal : char -> option N) (k : Z) :
  Num.int unicode_decimal (str_of_int k) = Some k.
Proof.
  unfold Num.int. destruct k as [|p|p].
  - reflexivity.
  - destruct (str_of_N_spec (Npos p)) as (Hne & Hall & Hval).
    unfold str_of_int, to_ascii. rewrite (digits_ascii _ Hall).
    destruct (int_of_digits _ Hne Hall) as [-> _]. now rewrite Hval.
  - destruct (str_of_N_spec (Npos p)) as (Hne & Hall & Hval).
    unfold str_of_int, to_ascii. cbn [forallb].
    change (45 <? 128) with true. cbn [andb].
    rewrite (digits_ascii _ Hall).
    destruct (int_of_digits _ Hne Hall) as [_ ->]. now rewrite Hval.
Qed.

Lemma str_of_int_no_dot (k : Z) :
  Forall (fun d => d <> 46) (str_of_int k).
Proof.
  assert (H : forall n, Forall (fun d => d <> 46) (str_of_N n)).
  { intros n. destruct (str_of_N_spec n) as (_ & Hall & _).
    eapply Forall_impl; [|exact Hall]. intros d Hd.
    now destruct (digit_plain d Hd) as (_ & _ & _ & _ & ?). }
  destruct k as [|p|p]; simpl.
  - repeat constructor. discriminate.
  - apply H.
  - constructor; [discriminate | apply H].
Qed.

End NumFacts.

(** ** The recovery parser: texts it rejects, and the repair passes *)

Section RejectFacts.

Variable loads : str -> option json.

Lemma no_pair_brace (text : str) :
  no_pair 123 125 text = true -> brace_strategies loads text = None.
Proof.
  unfold no_pair, brace_strategies.
  destruct (find 123 text) as [i|]; [|reflexivity].
  destruct (rfind 125 text) as [j|]; [|reflexivity].
  intros H. apply negb_true_iff in H. now rewrite H.
Qed.

Lemma no_pair_bracket (text : str) :
  no_pair 91 93 text = true -> bracket_strategy loads text = None.
Proof.
  unfold no_pair, bracket_strategy.
  destruct (find 91 text) as [i|]; [|reflexivity].
  destruct (rfind 93 text) as [j|]; [|reflexivity].
  intros H. apply negb_true_iff in H. now rewrite H.
Qed.

End RejectFacts.

(** X1.  A text that is not blank and holds no code fence, no opening brace
    before its last closing brace and no opening bracket before its last
    closing bracket is rejected with the [json.JSONDecodeError] that carries
    the text and the position 0, whatever the decoder would make of it: a
    reply that is a bare number, string or literal, valid JSON as it is, is
    never returned. *)
Theorem bare_text_is_rejected (loads : str -> option json) (text : str) :
  strip text <> [] -> contains fence text = false ->
  no_pair 123 125 text = true -> no_pair 91 93 text = true ->
  robust_json_parse loads text
  = Raise (JSONDecodeError (extraction_message text) text 0).
Proof.
  intros Hblank Hfence Hbrace Hbracket. unfold robust_json_parse.
  destruct (strip text) as [|c r]; [congruence|].
  destruct (no_fence_no_blocks text Hfence) as [-> ->].
  cbn [first_success].
  now rewrite (no_pair_brace loads text Hbrace),
              (no_pair_bracket loads text Hbracket).
Qed.

Lemma bare_text_is_rejected_witness :
  Json.loads (py "42") = Some (JInt 42) /\
  parse (py "42")
  = Raise (JSONDecodeError (extraction_message (py "42")) (py "42") 0).
Proof.
  split; [reflexivity|].
  apply (bare_text_is_rejected Json.loads (py "42")).
  - vm_compute. discriminate.
  - reflexivity.
  - reflexivity.
  - reflexivity.
Defined.

(** ** Truncated objects *)

Section TruncationFacts.

Lemma split_lines_cons (s : str) : exists l ls, split_lines s = l :: ls.
Proof.
  destruct s as [|c r]; simpl; [eauto|].
  destruct (N.eqb c 10); [eauto|]. destruct (split_lines r); eauto.
Qed.

Lemma join_lines_cons (c : char) (l : str) (ls : list str) :
  join_lines ((c :: l) :: ls) = c :: join_lines (l :: ls).
Proof. destruct ls; reflexivity. Qed.

(** The first [k] lines, joined, are a prefix of the text. *)
Lemma join_firstn_prefix (s : str) (k : nat) :
  (1 <= k)%nat ->
  exists tail, s = join_lines (firstn k (split_lines s)) ++ tail.
Proof.
  revert k. induction s as [|c r IH]; intros k Hk.
  - exists []. destruct k as [|k]; [lia|]. simpl.
    destruct k; reflexivity.
  - destruct k as [|k]; [lia|].
    simpl split_lines. destruct (N.eqb_spec c 10) as [->|Hc].
    + destruct k as [|k].
      * exists (10 :: r). reflexivity.
      * destruct (IH (S k) ltac:(lia)) as [tail Ht].
        destruct (split_lines_cons r) as (l & ls & E).
        rewrite E in *. exists tail.
        transitivity (10 :: (join_lines (firstn (S k) (l :: ls)) ++ tail));
          [f_equal; exact Ht | reflexivity].
    + destruct (IH (S k) ltac:(lia)) as [tail Ht].
      destruct (split_lines_cons r) as (l & ls & E).
      rewrite E in *. exists tail.
      transitivity (c :: (join_lines (firstn (S k) (l :: ls)) ++ tail));
        [f_equal; exact Ht|].
      change (firstn (S k) ((c :: l) :: ls)) with ((c :: l) :: firstn k ls).
      rewrite join_lines_cons. reflexivity.
Qed.

Lemma json_ws_not_brace (c : char) : json_ws c = true -> c <> 125.
Proof. intros H ->. discriminate H. Qed.

(** A prefix that ends with a closing brace and decodes, inside a text that
    decodes too, is followed by whitespace only; the slice from the first
    to the last brace is then that prefix without its trailing
    whitespace. *)
Lemma closed_prefix_is_slice (whole text rest : str) (k : nat) (v : json) :
  whole = text ++ rest ->
  starts_with [123] whole = true ->
  Json.loads whole <> None ->
  (1 <= k)%nat ->
  ends_with_char 125
    (rstrip (join_lines (firstn k (split_lines text)))) = true ->
  Json.loads (join_lines (firstn k (split_lines text))) = Some v ->
  brace_strategies Json.loads text = Some v /\ In 123 text.
Proof.
  intros Hwhole Hstart Hvalid Hk Hend Hloads.
  set (P := join_lines (firstn k (split_lines text))) in *.
  destruct (join_firstn_prefix text k Hk) as [tail Htail]. fold P in Htail.
  destruct (rstrip_split P) as [w [HP Hw]].
  destruct (ends_with_char_split _ _ Hend) as [P1 HP1].
  rewrite HP1 in HP.
  (* the decoder has finished right after the closing brace *)
  assert (Hdone : feed start (P1 ++ [125]) = Done v).
  { unfold Json.loads in Hloads. rewrite HP, feed_app in Hloads.
    apply feed_spaces_accept in Hloads; [|exact Hw].
    rewrite feed_app in Hloads |- *. simpl in Hloads |- *.
    apply step_closer_done in Hloads; [exact Hloads | now left]. }
  (* so what follows in the whole text is whitespace *)
  assert (Hws : Forall (fun c => json_ws c = true) (w ++ tail ++ rest)).
  { assert (Hshape : whole = (P1 ++ [125]) ++ (w ++ tail ++ rest)).
    { rewrite Hwhole, Htail, HP. now rewrite <- !app_assoc. }
    destruct (Json.loads whole) as [v'|] eqn:E; [|congruence].
    unfold Json.loads in E. rewrite Hshape, feed_app, Hdone in E.
    now apply feed_done in E. }
  assert (Hnobrace : rfind 125 (w ++ tail) = None).
  { apply rfind_none_forall. rewrite app_assoc in Hws.
    apply Forall_app in Hws. destruct Hws as [Hws _].
    eapply Forall_impl; [|exact Hws]. intros c. apply json_ws_not_brace. }
  assert (Htext : text = [] ++ (P1 ++ [125]) ++ (w ++ tail)).
  { rewrite Htail, HP. simpl. now rewrite <- !app_assoc. }
  assert (Hs : starts_with [123] (P1 ++ [125]) = true).
  { rewrite Hwhole, Htext in Hstart. simpl in Hstart.
    rewrite <- !app_assoc in Hstart.
    destruct P1 as [|x P1']; simpl in *; [discriminate | exact Hstart]. }
  assert (He : ends_with_char 125 (P1 ++ [125]) = true).
  { unfold ends_with_char. rewrite rev_app_distr. reflexivity. }
  destruct (slice_is_body 123 125 [] (P1 ++ [125]) (w ++ tail)
              ltac:(discriminate) Hs He eq_refl Hnobrace)
    as (i & j & H1 & H2 & H3 & H4).
  rewrite <- Htext in H1, H2, H4. split.
  - unfold brace_strategies. cbv zeta. rewrite H1, H2, H3, H4.
    unfold Json.loads at 1. now rewrite Hdone.
  - rewrite Htext. destruct (starts_with_one _ _ Hs) as [r ->].
    now left.
Qed.

End TruncationFacts.

Section ShrinkFacts.

Variable loads : str -> option json.

Lemma shrink_none (lines : list str) (i : nat) :
  (forall k, (1 <= k <= i)%nat -> loads (join_lines (firstn k lines)) = None) ->
  shrink loads lines i = None.
Proof.
  induction i as [|j IH]; intros H; [reflexivity|].
  cbn [shrink]. cbv zeta. rewrite (H (S j)) by lia.
  rewrite IH; [now destruct (ends_with_char 125 _)|].
  intros k Hk. apply H. lia.
Qed.

(** The loop returns the value of the longest prefix of whole lines that
    ends with a closing brace and decodes. *)
Lemma shrink_longest (lines : list str) (i k : nat) (v : json) :
  (1 <= k <= i)%nat ->
  ends_with_char 125 (rstrip (join_lines (firstn k lines))) = true ->
  loads (join_lines (firstn k lines)) = Some v ->
  (forall k', (k < k' <= i)%nat ->
     ends_with_char 125 (rstrip (join_lines (firstn k' lines))) = true ->
     loads (join_lines (firstn k' lines)) = None) ->
  shrink loads lines i = Some v.
Proof.
  intros Hk Hend Hv. induction i as [|j IH]; intros Hlater; [lia|].
  cbn [shrink]. cbv zeta.
  destruct (Nat.eq_dec k (S j)) as [<-|Hne].
  - now rewrite Hend, Hv.
  - destruct (ends_with_char 125 (rstrip (join_lines (firstn (S j) lines))))
      eqn:E.
    + rewrite (Hlater (S j)) by (lia || exact E).
      apply IH; [lia|]. intros k' Hk'. apply Hlater. lia.
    + apply IH; [lia|]. intros k' Hk'. apply Hlater. lia.
Qed.

Lemma find_in (c : char) (s : str) (i : nat) : find c s = Some i -> In c s.
Proof.
  revert i. induction s as [|d r IH]; intros i; [discriminate|].
  cbn [find]. destruct (N.eqb_spec d c) as [->|_]; [now left|].
  destruct (find c r) as [j|]; [|discriminate].
  intros _. right. now apply (IH j).
Qed.

Lemma brace_slice_found (text s : str) :
  brace_slice text = Some s ->
  In 123 text /\
  brace_strategies loads text
  = match loads s with
    | Some v => Some v
    | None =>
        match loads (repair s) with
        | Some v => Some v
        | None =>
            shrink loads (split_lines (repair s))
              (length (split_lines (repair s)))
        end
    end.
Proof.
  unfold brace_slice, brace_strategies.
  destruct (find 123 text) as [i|] eqn:Ei; [|discriminate].
  destruct (rfind 125 text) as [j|]; [|discriminate].
  destruct (i <? j)%nat; [|discriminate].
  intros H. injection H as <-. split; [now apply (find_in _ _ i)|].
  reflexivity.
Qed.

Lemma brace_slice_none (text : str) :
  brace_slice text = None -> brace_strategies loads text = None.
Proof.
  unfold brace_slice, brace_strategies.
  destruct (find 123 text) as [i|]; [|reflexivity].
  destruct (rfind 125 text) as [j|]; [|reflexivity].
  now destruct (i <? j)%nat.
Qed.

(** Strategy 5 *)
Lemma longest_line_prefix_returned (text s : str) (k : nat) (v : json) :
  contains fence text = false ->
  brace_slice text = Some s ->
  loads s = None -> loads (repair s) = None ->
  (1 <= k <= length (split_lines (repair s)))%nat ->
  closed (first_lines (repair s) k) = true ->
  loads (first_lines (repair s) k) = Some v ->
  (forall k', (k < k' <= length (split_lines (repair s)))%nat ->
              closed (first_lines (repair s) k') = true ->
              loads (first_lines (repair s) k') = None) ->
  robust_json_parse loads text = Return v.
Proof.
  intros Hfence Hs H3 H4 Hk Hend Hv Hlater.
  destruct (brace_slice_found text s Hs) as [Hin Hbrace].
  rewrite (parse_without_fence loads text 123 Hfence Hin eq_refl).
  rewrite Hbrace, H3, H4.
  now rewrite (shrink_longest _ _ k v Hk Hend Hv Hlater).
Qed.

End ShrinkFacts.

Section CutOffFacts.

(** A text that decodes to an object has no proper beginning that decodes,
    whitespace at the end apart. *)
Lemma decoded_prefix_is_whole (p r : str) (v w : json) :
  starts_with [123] (p ++ r) = true ->
  Json.loads (p ++ r) = Some w ->
  Json.loads p = Some v ->
  Forall (fun c => json_ws c = true) r /\ v = w.
Proof.
  intros Hstart Hw Hv.
  destruct p as [|c p']; [discriminate Hv|].
  cbn [app starts_with] in Hstart. rewrite andb_true_r in Hstart.
  apply N.eqb_eq in Hstart. subst c.
  assert (Hdone : feed start (123 :: p') = Done v).
  { unfold Json.loads in Hv.
    change (feed start (123 :: p')) with (feed (step start 123) p') in *.
    pose proof (rooted_feed true (step start 123) p' eq_refl) as Hr.
    destruct (feed (step start 123) p') as [|m stk|u]; simpl in Hv;
      [discriminate| |].
    - destruct m; try discriminate. destruct stk; try discriminate.
      simpl in Hr. contradiction.
    - now injection Hv as ->. }
  unfold Json.loads in Hw. rewrite feed_app, Hdone in Hw.
  apply feed_done in Hw. destruct Hw as [Hws ->]. now split.
Qed.

Variables text rest : str.
Hypothesis opens : starts_with [123] (text ++ rest) = true.
Hypothesis valid : Json.loads (text ++ rest) <> None.

Lemma beginning_decodes (p tail : str) (v : json) :
  text = p ++ tail -> Json.loads p = Some v ->
  Forall (fun c => json_ws c = true) rest /\
  Json.loads (text ++ rest) = Some v.
Proof.
  intros Ht Hv.
  destruct (Json.loads (text ++ rest)) as [w|] eqn:Hw; [|congruence].
  assert (Hshape : text ++ rest = p ++ (tail ++ rest))
    by (rewrite Ht; now rewrite <- app_assoc).
  rewrite Hshape in opens, Hw.
  destruct (decoded_prefix_is_whole p (tail ++ rest) v w opens Hw Hv)
    as [Hws ->].
  apply Forall_app in Hws. now split.
Qed.

Lemma first_lines_prefix (s : str) (k : nat) :
  (1 <= k)%nat -> exists tail, s = first_lines s k ++ tail.
Proof. apply join_firstn_prefix. Qed.

Hypothesis cut_off : ~ Forall (fun c => json_ws c = true) rest.

Lemma beginning_fails (p tail : str) :
  text = p ++ tail -> Json.loads p = None.
Proof.
  intros Ht. destruct (Json.loads p) as [v|] eqn:Hv; [|reflexivity].
  destruct (beginning_decodes p tail v Ht Hv) as [Hws _]. contradiction.
Qed.

Lemma first_lines_fail (k : nat) : Json.loads (first_lines text k) = None.
Proof.
  destruct k as [|k]; [reflexivity|].
  destruct (first_lines_prefix text (S k) ltac:(lia)) as [tail Ht].
  now apply (beginning_fails _ tail).
Qed.

Lemma slice_beginning (s : str) :
  brace_slice text = Some s -> exists tail, text = s ++ tail.
Proof.
  unfold brace_slice.
  destruct text as [|c t] eqn:Et; [discriminate|].
  cbn [app starts_with] in opens. rewrite andb_true_r in opens.
  apply N.eqb_eq in opens. subst c.
  cbn [find N.eqb Pos.eqb].
  destruct (rfind 125 (123 :: t)) as [j|]; [|discriminate].
  destruct (0 <? j)%nat; [|discriminate].
  intros H. injection H as <-. unfold slice.
  exists (skipn (j + 1) (123 :: t)).
  rewrite Nat.sub_0_r. cbn [skipn]. symmetry. apply firstn_skipn.
Qed.

Lemma cut_off_fails :
  (forall s, brace_slice text = Some s -> repair s = s) ->
  brace_strategies Json.loads text = None.
Proof.
  intros Hrepair.
  destruct (brace_slice text) as [s|] eqn:Es;
    [|now apply brace_slice_none].
  destruct (brace_slice_found Json.loads text s Es) as [_ ->].
  destruct (slice_beginning s Es) as [tail Ht].
  rewrite (Hrepair s eq_refl), (beginning_fails s tail Ht).
  apply shrink_none. intros k Hk.
  destruct (first_lines_prefix s k ltac:(lia)) as [tail' Hs].
  apply (beginning_fails _ (tail' ++ tail)).
  rewrite Ht at 1. rewrite Hs at 1. now rewrite <- app_assoc.
Qed.

End CutOffFacts.

(** C4, as stated, fails: the fenced blocks come first, also when the fence
    stands inside a string of the object. *)
Lemma fence_in_string_defeats_truncation :
  ~ (forall whole text v,
       starts_with [123] whole = true -> Json.loads whole <> None ->
       truncated_after_line whole text ->
       longest_closed_prefix Json.loads text = Some v ->
       parse text = Return v).
Proof.
  intros H.
  set (text := js "{" ++ 10 :: js "'a': '```json[1]```'" ++ 10 :: js "}"
               ++ [10]).
  specialize (H (text ++ [10]) text
                (JObject [(py "a", JString (py "```json[1]```"))])).
  assert (E : parse text = Return (JArray [JInt 1]))
    by (vm_compute; reflexivity).
  rewrite E in H.
  assert (Hfalse : Return (JArray [JInt 1])
                   = Return (JObject [(py "a", JString (py "```json[1]```"))])).
  { apply H.
    - reflexivity.
    - vm_compute. discriminate.
    - exists [10]. split; [reflexivity | split; [discriminate | reflexivity]].
    - vm_compute. reflexivity. }
  discriminate Hfalse.
Qed.

(** C4, amended.  For an input that holds no code fence and is a valid
    object text, opening with a brace, cut after one of its line
    boundaries: a prefix of whole lines that ends with a closing brace
    still decodes only if nothing but whitespace was cut off, and then the
    parser returns the object.  If content was cut off, no prefix of whole
    lines decodes, and the parser raises the error of exhausted strategies
    when the repair changes nothing in the brace slice and no bracket
    comes before the last closing bracket.  Strategy 5 serves other
    inputs: when the brace slice of an input without a fence decodes
    neither as it is nor repaired, the parser returns the decoded value of
    the longest prefix of whole lines of the repaired slice that ends with
    a closing brace and decodes, provided there is one. *)
Theorem truncated_object_recovered :
  (forall text rest : str,
     starts_with [123] (text ++ rest) = true ->
     Json.loads (text ++ rest) <> None ->
     truncated_after_line (text ++ rest) text ->
     contains fence text = false ->
     (forall v,
        longest_closed_prefix Json.loads text = Some v ->
        Forall (fun c => json_ws c = true) rest /\
        Json.loads (text ++ rest) = Some v /\
        parse text = Return v)
     /\ (~ Forall (fun c => json_ws c = true) rest ->
         (forall k, Json.loads (first_lines text k) = None) /\
         longest_closed_prefix Json.loads text = None /\
         ((forall s, brace_slice text = Some s -> repair s = s) ->
          no_pair 91 93 text = true ->
          parse text
          = Raise (JSONDecodeError (extraction_message text) text 0))))
  /\ (forall (loads : str -> option json) (text s : str) (k : nat) (v : json),
        contains fence text = false ->
        brace_slice text = Some s ->
        loads s = None -> loads (repair s) = None ->
        (1 <= k <= length (split_lines (repair s)))%nat ->
        closed (first_lines (repair s) k) = true ->
        loads (first_lines (repair s) k) = Some v ->
        (forall k', (k < k' <= length (split_lines (repair s)))%nat ->
                    closed (first_lines (repair s) k') = true ->
                    loads (first_lines (repair s) k') = None) ->
        robust_json_parse loads text = Return v).
Proof.
  split; [|exact longest_line_prefix_returned].
  intros text rest Hstart Hvalid (rest' & Hwhole & Hrest & Hline) Hfence.
  split.
  - intros v Hprefix.
    unfold longest_closed_prefix in Hprefix. cbv zeta in Hprefix.
    apply shrink_some in Hprefix.
    destruct Hprefix as (k & Hk & Hend & Hloads).
    destruct (first_lines_prefix text k ltac:(lia)) as [tail Ht].
    destruct (beginning_decodes text rest Hstart Hvalid _ tail v Ht Hloads)
      as [Hws Hv].
    split; [exact Hws | split; [exact Hv|]].
    destruct (closed_prefix_is_slice (text ++ rest) text rest k v eq_refl
                Hstart Hvalid ltac:(lia) Hend Hloads) as [Hbrace Hin].
    unfold parse.
    rewrite (parse_without_fence Json.loads text 123 Hfence Hin eq_refl).
    now rewrite Hbrace.
  - intros Hcut.
    pose proof (first_lines_fail text rest Hstart Hvalid Hcut) as Hnone.
    split; [exact Hnone | split].
    + unfold longest_closed_prefix. cbv zeta. apply shrink_none.
      intros k _. apply Hnone.
    + intros Hrepair Hpair. unfold parse.
      assert (Hin : In 123 text).
      { destruct text as [|c t]; [discriminate Hline|].
        cbn [app starts_with] in Hstart. rewrite andb_true_r in Hstart.
        apply N.eqb_eq in Hstart. subst c. now left. }
      rewrite (parse_without_fence Json.loads text 123 Hfence Hin eq_refl).
      rewrite (cut_off_fails text rest Hstart Hvalid Hcut Hrepair).
      now rewrite (no_pair_bracket Json.loads text Hpair).
Qed.

Lemma truncated_object_recovered_witness :
  (* nothing but a line break was cut off *)
  parse (js "{" ++ 10 :: js "'a': 1" ++ 10 :: js "}" ++ [10])
  = Return (JObject [(py "a", JInt 1)])
  (* a member was cut off *)
  /\ parse (js "{" ++ 10 :: js "'a': {'b': 1}," ++ [10])
     = Raise (JSONDecodeError
                (extraction_message (js "{" ++ 10 :: js "'a': {'b': 1}," ++ [10]))
                (js "{" ++ 10 :: js "'a': {'b': 1}," ++ [10]) 0)
  (* a complete object, then one that is cut off *)
  /\ parse (js "{'a': 1}" ++ 10 :: js "{'b': {}")
     = Return (JObject [(py "a", JInt 1)]).
Proof.
  destruct truncated_object_recovered as [Hcut Hlines].
  split; [|split].
  - destruct (Hcut (js "{" ++ 10 :: js "'a': 1" ++ 10 :: js "}" ++ [10])
                [10]) as [H _].
    + reflexivity.
    + vm_compute. discriminate.
    + exists [10]. split; [reflexivity | split; [discriminate | reflexivity]].
    + reflexivity.
    + apply H. reflexivity.
  - destruct (Hcut (js "{" ++ 10 :: js "'a': {'b': 1}," ++ [10])
                (js "'c': 2}")) as [_ H].
    + reflexivity.
    + vm_compute. discriminate.
    + exists (js "'c': 2}").
      split; [reflexivity | split; [discriminate | reflexivity]].
    + reflexivity.
    + apply H.
      * intros Hws. inversion Hws as [|c r Hc _]. discriminate Hc.
      * intros s Hs. vm_compute in Hs. injection Hs as <-. reflexivity.
      * reflexivity.
  - apply (Hlines Json.loads (js "{'a': 1}" ++ 10 :: js "{'b': {}")
             (js "{'a': 1}" ++ 10 :: js "{'b': {}") 1%nat).
    + reflexivity.
    + reflexivity.
    + reflexivity.
    + reflexivity.
    + vm_compute. lia.
    + reflexivity.
    + reflexivity.
    + intros k' Hk' _.
      assert (E : k' = 2%nat) by (vm_compute in Hk'; lia).
      subst k'. reflexivity.
Defined.

Section CommentFacts.

Lemma contains_cons (pat : str) (c : char) (s : str) :
  starts_with pat (c :: s) = false -> contains pat s = false ->
  contains pat (c :: s) = false.
Proof.
  unfold contains, cut; fold cut. intros -> H.
  destruct (cut pat s) as [[? ?]|]; [discriminate | reflexivity].
Qed.

Lemma line_comment_start (c : char) (r : str) :
  starts_with (py "//") (c :: r) = N.eqb 47 c && starts_with [47] r.
Proof.
  change (py "//") with [47; 47]. cbn [starts_with].
  destruct r as [|d r]; [now rewrite !andb_false_r|].
  now rewrite andb_true_r.
Qed.

Lemma strip_line_comments_aux_head (r : str) :
  starts_with [47] r = false ->
  starts_with [47] (strip_line_comments_aux false r) = false.
Proof.
  destruct r as [|d r]; [reflexivity|]. intros H.
  cbn [strip_line_comments_aux]. rewrite line_comment_start.
  cbn [starts_with] in H. rewrite andb_true_r in H. rewrite H.
  cbn [andb starts_with]. now rewrite andb_true_r.
Qed.

Lemma strip_line_comments_aux_clean (s : str) :
  contains (py "//") (strip_line_comments_aux false s) = false /\
  contains (py "//") (strip_line_comments_aux true s) = false.
Proof.
  induction s as [|c r [IHf IHt]]; [split; reflexivity|]. split.
  - cbn [strip_line_comments_aux].
    destruct (starts_with (py "//") (c :: r)) eqn:E; [exact IHt|].
    apply contains_cons; [|exact IHf].
    rewrite line_comment_start in E |- *.
    destruct (N.eqb 47 c); [|reflexivity]. cbn [andb] in E |- *.
    now apply strip_line_comments_aux_head.
  - cbn [strip_line_comments_aux].
    destruct (N.eqb_spec c 10) as [->|_]; [|exact IHt].
    apply contains_cons; [reflexivity | exact IHf].
Qed.

Lemma split_lines_length (s : str) :
  length (split_lines s) = S (count_occ N.eq_dec s 10).
Proof.
  induction s as [|c r IH]; [reflexivity|].
  cbn [split_lines count_occ].
  destruct (N.eqb_spec c 10) as [->|Hc].
  - destruct (N.eq_dec 10 10); [|congruence]. simpl. now rewrite IH.
  - destruct (N.eq_dec c 10) as [|_]; [congruence|].
    destruct (split_lines r) as [|l ls]; [discriminate IH | exact IH].
Qed.

Lemma strip_line_comments_aux_breaks (in_comment : bool) (s : str) :
  count_occ N.eq_dec (strip_line_comments_aux in_comment s) 10
  = count_occ N.eq_dec s 10.
Proof.
  revert in_comment. induction s as [|c r IH]; intros in_comment;
    [reflexivity|].
  cbn [strip_line_comments_aux]. destruct in_comment.
  - destruct (N.eqb_spec c 10) as [->|Hc].
    + cbn [count_occ]. destruct (N.eq_dec 10 10); [|congruence].
      now rewrite IH.
    + cbn [count_occ]. destruct (N.eq_dec c 10); [congruence|]. apply IH.
  - destruct (starts_with (py "//") (c :: r)) eqn:E.
    + rewrite line_comment_start in E. apply andb_true_iff in E.
      destruct E as [E _]. apply N.eqb_eq in E. subst c.
      cbn [count_occ]. destruct (N.eq_dec 47 10); [discriminate|]. apply IH.
    + cbn [count_occ]. destruct (N.eq_dec c 10); now rewrite IH.
Qed.

End CommentFacts.

(** X2.  The pass that removes line comments leaves no [//] in the text,
    and it keeps every line break, so that the text has as many lines after
    it as before. *)
Theorem line_comments_removed (s : str) :
  contains (py "//") (strip_line_comments s) = false
  /\ length (split_lines (strip_line_comments s)) = length (split_lines s).
Proof.
  split.
  - apply strip_line_comments_aux_clean.
  - rewrite !split_lines_length. f_equal.
    apply strip_line_comments_aux_breaks.
Qed.

Section DeletionFacts.

Lemma subsequence_refl (s : str) : subsequence s s.
Proof. induction s; constructor; assumption. Qed.

Lemma subsequence_nil (s : str) : subsequence [] s.
Proof. induction s; constructor; assumption. Qed.

Lemma subsequence_trans (a b c : str) :
  subsequence a b -> subsequence b c -> subsequence a c.
Proof.
  intros Hab Hbc. revert a Hab.
  induction Hbc as [|x b c Hbc IH|x b c Hbc IH]; intros a Hab.
  - exact Hab.
  - inversion Hab; subst.
    + apply sub_keep. now apply IH.
    + apply sub_drop. now apply IH.
  - apply sub_drop. now apply IH.
Qed.

Lemma subsequence_app (a b c d : str) :
  subsequence a b -> subsequence c d -> subsequence (a ++ c) (b ++ d).
Proof.
  intros Hab Hcd. induction Hab; simpl;
    [exact Hcd | now apply sub_keep | now apply sub_drop].
Qed.

Lemma subsequence_skip (a b c : str) :
  subsequence a c -> subsequence a (b ++ c).
Proof.
  intros H. induction b as [|x b IH]; [exact H | now apply sub_drop].
Qed.

Lemma subsequence_length (a b : str) :
  subsequence a b -> (length a <= length b)%nat.
Proof. induction 1; simpl; lia. Qed.

Lemma strip_line_comments_deletes (in_comment : bool) (s : str) :
  subsequence (strip_line_comments_aux in_comment s) s.
Proof.
  revert in_comment. induction s as [|c r IH]; intros in_comment;
    [constructor|].
  cbn [strip_line_comments_aux]. destruct in_comment.
  - destruct (N.eqb c 10); [apply sub_keep | apply sub_drop]; apply IH.
  - destruct (starts_with (py "//") (c :: r));
      [apply sub_drop | apply sub_keep]; apply IH.
Qed.

Lemma strip_block_comments_deletes (fuel : nat) (s : str) :
  subsequence (strip_block_comments_aux fuel s) s.
Proof.
  revert s. induction fuel as [|fuel IH]; intros s;
    [apply subsequence_refl|].
  cbn [strip_block_comments_aux].
  destruct (cut (py "/*") s) as [[before inner]|] eqn:E1;
    [|apply subsequence_refl].
  destruct (cut (py "*/") inner) as [[comment rest]|] eqn:E2;
    [|apply subsequence_refl].
  apply cut_sound in E1, E2. subst s inner.
  apply subsequence_app; [apply subsequence_refl|].
  apply (subsequence_skip _ (py "/*")).
  apply (subsequence_skip _ comment).
  apply (subsequence_skip _ (py "*/")). apply IH.
Qed.

Lemma remove_trailing_commas_deletes (s : str) :
  subsequence (remove_trailing_commas s) s.
Proof.
  induction s as [|c r IH]; [constructor|].
  cbn [remove_trailing_commas].
  destruct (N.eqb c 44 && closer_ahead r);
    [apply sub_drop | apply sub_keep]; exact IH.
Qed.

End DeletionFacts.

(** X3.  The repair of strategy 4 only deletes: the repaired text is the
    slice with some characters left out, in the same order, and is never
    longer.  A slice that holds no [//], no [/*] and no comma before a
    closing brace or bracket is left as it is, so that the repaired text
    decodes no better than the slice did. *)
Theorem repair_only_deletes (json_str : str) :
  subsequence (repair json_str) json_str
  /\ (length (repair json_str) <= length json_str)%nat
  /\ (contains (py "//") json_str = false ->
      contains (py "/*") json_str = false ->
      has_trailing_comma json_str = false ->
      repair json_str = json_str).
Proof.
  assert (H : subsequence (repair json_str) json_str).
  { unfold repair.
    eapply subsequence_trans; [apply remove_trailing_commas_deletes|].
    eapply subsequence_trans; [apply strip_block_comments_deletes|].
    apply strip_line_comments_deletes. }
  split; [exact H|]. split; [now apply subsequence_length|].
  intros Hl Hb Hc. unfold repair.
  rewrite (strip_line_comments_fixed json_str Hl).
  rewrite (strip_block_comments_fixed json_str Hb).
  now apply no_trailing_comma_fixed.
Qed.

Lemma repair_only_deletes_witness :
  repair (js "{'a': [1, 2]}") = js "{'a': [1, 2]}".
Proof.
  apply (repair_only_deletes (js "{'a': [1, 2]}")); reflexivity.
Defined.

(** ** The tag of a fenced block *)

Section TagFacts.

Lemma json_tag_shape (tag : str) :
  length tag = 7%nat -> json_tag tag = true ->
  exists j s o n,
    tag = [96; 96; 96; j; s; o; n] /\
    forall rest, json_tag (tag ++ rest) = true.
Proof.
  destruct tag as [|a [|b [|c [|j [|s [|o [|n [|x tag]]]]]]]];
    try discriminate.
  intros _ H. exists j, s, o, n.
  assert (Hshape : a = 96 /\ b = 96 /\ c = 96).
  { unfold json_tag in H.
    destruct (N.eqb_spec a 96), (N.eqb_spec b 96), (N.eqb_spec c 96);
      try discriminate H.
    now repeat split. }
  destruct Hshape as (-> & -> & ->). split; [reflexivity|].
  intros rest. exact H.
Qed.

(** A tag in any letter case is found right after a prefix that holds no
    fence. *)
Lemma cut_at_any_tag (pre tag rest : str) :
  length tag = 7%nat -> json_tag tag = true ->
  contains fence pre = false ->
  cut_at json_tag 7 (pre ++ tag ++ rest) = Some (pre, rest).
Proof.
  intros Hlen Htag.
  destruct (json_tag_shape tag Hlen Htag) as (j & s & o & n & -> & Hall).
  induction pre as [|c pre IH]; intros H.
  - cbn [app]. unfold cut_at; fold cut_at.
    change (96 :: 96 :: 96 :: j :: s :: o :: n :: rest)
      with ([96; 96; 96; j; s; o; n] ++ rest).
    now rewrite Hall.
  - apply contains_cons_false in H. destruct H as [Hsw Hpre].
    assert (Hno : json_tag ((c :: pre) ++ [96; 96; 96; j; s; o; n] ++ rest)
                  = false).
    { destruct pre as [|c2 [|c3 pre]].
      - cbn. destruct (N.eqb c 96); reflexivity.
      - cbn. destruct (N.eqb c 96), (N.eqb c2 96); reflexivity.
      - destruct (json_tag ((c :: c2 :: c3 :: pre)
                            ++ [96; 96; 96; j; s; o; n] ++ rest)) eqn:E;
          [|reflexivity].
        apply json_tag_fence in E. simpl in E, Hsw. congruence. }
    change ((c :: pre) ++ [96; 96; 96; j; s; o; n] ++ rest)
      with (c :: (pre ++ [96; 96; 96; j; s; o; n] ++ rest)) in *.
    unfold cut_at; fold cut_at. rewrite Hno, (IH Hpre). reflexivity.
Qed.

Lemma tagged_blocks_any_tag (pre tag body post : str) :
  length tag = 7%nat -> json_tag tag = true ->
  contains fence pre = false ->
  contains fence (body ++ py "``") = false ->
  exists others,
    tagged_blocks (pre ++ tag ++ body ++ fence ++ post)
    = strip body :: others.
Proof.
  intros Hlen Htag Hpre Hbody. unfold tagged_blocks.
  destruct (length (pre ++ tag ++ body ++ fence ++ post))
    as [|fuel] eqn:El.
  { rewrite !length_app in El. simpl in El. lia. }
  cbn [fenced_groups]. rewrite (cut_at_any_tag pre tag _ Hlen Htag Hpre).
  change fence with (py "``" ++ [96]).
  rewrite (cut_app (py "``") 96 body post Hbody).
  eexists. reflexivity.
Qed.

End TagFacts.

(** X4.  The tag of a fenced block is matched without regard to letter
    case: for every spelling of the seven characters that the pattern
    accepts ([```json], [```JSON], [```Json], ...), a block whose body
    decodes is returned, when the prefix holds no fence and the closing
    fence is the first one after the tag. *)
Theorem tag_case_is_ignored (loads : str -> option json)
  (pre tag body post : str) (v : json) :
  length tag = 7%nat -> json_tag tag = true ->
  loads (strip body) = Some v ->
  contains fence pre = false ->
  contains fence (body ++ py "``") = false ->
  robust_json_parse loads (pre ++ tag ++ body ++ fence ++ post) = Return v.
Proof.
  intros Hlen Htag Hl Hpre Hbody.
  destruct (tagged_blocks_any_tag pre tag body post Hlen Htag Hpre Hbody)
    as [others Hb].
  apply (first_decoding_block loads _ [] others (strip body) v Hb).
  - constructor.
  - now rewrite strip_idem.
Qed.

Lemma tag_case_is_ignored_witness :
  parse (py "Here: " ++ py "```JSON" ++ js " {'a': 1} " ++ fence
         ++ py " bye")
  = Return (JObject [(py "a", JInt 1)]).
Proof.
  apply (tag_case_is_ignored Json.loads (py "Here: ") (py "```JSON")
           (js " {'a': 1} ") (py " bye")); reflexivity.
Defined.

(** ** Prose around a reply *)

Section BlockFacts.

Variable opener : str -> bool.
Variable width : nat.

Hypothesis opener_tick : forall x, opener x = true -> exists r, x = 96 :: r.
Hypothesis opener_long : forall x, opener x = true -> (width <= length x)%nat.
Hypothesis opener_app :
  forall x y, (width <= length x)%nat -> opener (x ++ y) = opener x.

Lemma no_tick_head (c : char) (r : str) :
  c <> 96 -> opener (c :: r) = false.
Proof.
  intros Hc. destruct (opener (c :: r)) eqn:E; [|reflexivity].
  apply opener_tick in E. destruct E as [r' E]. congruence.
Qed.

Lemma cut_at_no_tick (t : str) :
  Forall (fun c => c <> 96) t -> cut_at opener width t = None.
Proof.
  induction 1 as [|c t Hc _ IH]; unfold cut_at; fold cut_at.
  - destruct (opener []) eqn:E; [|reflexivity].
    apply opener_tick in E. destruct E as [r E]. discriminate.
  - now rewrite (no_tick_head c t Hc), IH.
Qed.

Lemma cut_at_prefix (pre s : str) :
  Forall (fun c => c <> 96) pre ->
  cut_at opener width (pre ++ s)
  = match cut_at opener width s with
    | Some (a, b) => Some (pre ++ a, b)
    | None => None
    end.
Proof.
  induction 1 as [|c pre Hc _ IH].
  - cbn [app]. now destruct (cut_at opener width s) as [[a b]|].
  - cbn [app]. unfold cut_at at 1; fold cut_at.
    rewrite (no_tick_head c _ Hc), IH.
    now destruct (cut_at opener width s) as [[a b]|].
Qed.

Lemma cut_at_length (s a b : str) :
  cut_at opener width s = Some (a, b) ->
  (width <= length s)%nat /\ (length b <= length s)%nat.
Proof.
  revert a. induction s as [|c r IH]; intros a; unfold cut_at; fold cut_at.
  - destruct (opener []) eqn:E; [|discriminate].
    intros H. injection H as <- <-. apply opener_long in E.
    rewrite length_skipn. simpl in *. lia.
  - destruct (opener (c :: r)) eqn:E.
    + intros H. injection H as <- <-. apply opener_long in E.
      rewrite length_skipn. lia.
    + destruct (cut_at opener width r) as [[a' b']|] eqn:Er; [|discriminate].
      intros H. injection H as <- <-.
      destruct (IH a' eq_refl). simpl. lia.
Qed.

Lemma cut_at_suffix_some (s post a b : str) :
  cut_at opener width s = Some (a, b) ->
  cut_at opener width (s ++ post) = Some (a, b ++ post).
Proof.
  revert a. induction s as [|c r IH]; intros a Hs.
  - pose proof (cut_at_length [] a b Hs) as [Hw _].
    unfold cut_at in Hs. destruct (opener []) eqn:E; [|discriminate].
    injection Hs as <- <-. cbn [app].
    assert (E' : opener ([] ++ post) = true)
      by (rewrite opener_app; [exact E | exact Hw]).
    cbn [app] in E'. simpl in Hw.
    replace width with 0%nat in * by lia.
    destruct post; unfold cut_at; fold cut_at; now rewrite E'.
  - pose proof (cut_at_length (c :: r) a b Hs) as [Hw _].
    unfold cut_at in Hs; fold cut_at in Hs.
    change ((c :: r) ++ post) with (c :: (r ++ post)).
    unfold cut_at; fold cut_at.
    change (c :: (r ++ post)) with ((c :: r) ++ post).
    rewrite (opener_app (c :: r) post Hw).
    destruct (opener (c :: r)) eqn:E.
    + injection Hs as <- <-. f_equal. f_equal.
      rewrite skipn_app.
      replace (width - length (c :: r))%nat with 0%nat by lia.
      reflexivity.
    + destruct (cut_at opener width r) as [[a' b']|] eqn:Er; [|discriminate].
      injection Hs as <- <-. cbn [app]. now rewrite (IH a' eq_refl).
Qed.

Lemma skipn_no_tick (n : nat) (t : str) :
  Forall (fun c => c <> 96) t -> Forall (fun c => c <> 96) (skipn n t).
Proof.
  intros H. rewrite <- (firstn_skipn n t) in H.
  now apply Forall_app in H.
Qed.

Lemma cut_at_suffix_none (s post : str) :
  Forall (fun c => c <> 96) post ->
  cut_at opener width s = None ->
  match cut_at opener width (s ++ post) with
  | Some (_, b) => Forall (fun c => c <> 96) b
  | None => True
  end.
Proof.
  intros Hpost. induction s as [|c r IH]; intros Hs.
  - cbn [app]. now rewrite (cut_at_no_tick post Hpost).
  - unfold cut_at in Hs; fold cut_at in Hs.
    destruct (opener (c :: r)) eqn:E; [discriminate|].
    destruct (cut_at opener width r) as [[a' b']|] eqn:Er; [discriminate|].
    specialize (IH eq_refl).
    change ((c :: r) ++ post) with (c :: (r ++ post)).
    unfold cut_at; fold cut_at.
    change (c :: (r ++ post)) with ((c :: r) ++ post).
    destruct (opener ((c :: r) ++ post)) eqn:E'.
    + destruct (Nat.le_gt_cases width (length (c :: r))) as [Hw|Hw].
      { rewrite (opener_app _ post Hw) in E'. congruence. }
      rewrite skipn_app.
      rewrite (skipn_all2 (c :: r)) by lia. cbn [app].
      now apply skipn_no_tick.
    + destruct (cut_at opener width (r ++ post)) as [[a b]|];
        [exact IH | exact I].
Qed.

End BlockFacts.

Section ProseFacts.

Lemma starts_with_ticks_suffix (p s post : str) :
  Forall (fun c => c = 96) p -> Forall (fun c => c <> 96) post ->
  starts_with p (s ++ post) = true -> starts_with p s = true.
Proof.
  intros Hp Hpost. revert s. induction Hp as [|x p Hx _ IH]; intros s.
  - reflexivity.
  - destruct s as [|c s]; cbn [app].
    + destruct post as [|y post]; [discriminate|].
      inversion Hpost; subst. cbn [starts_with].
      destruct (N.eqb_spec 96 y); [congruence | discriminate].
    + cbn [starts_with]. intros H. apply andb_true_iff in H.
      destruct H as [-> H]. cbn [andb]. now apply IH.
Qed.

Lemma starts_with_fence_suffix (s post : str) :
  Forall (fun c => c <> 96) post ->
  starts_with fence (s ++ post) = true -> starts_with fence s = true.
Proof.
  apply starts_with_ticks_suffix. repeat constructor.
Qed.

Lemma cut_fence_no_tick (t : str) :
  Forall (fun c => c <> 96) t -> cut fence t = None.
Proof.
  induction 1 as [|c t Hc _ IH]; [reflexivity|].
  unfold cut; fold cut. rewrite IH.
  change fence with [96; 96; 96]. cbn [starts_with].
  destruct (N.eqb_spec 96 c); [congruence | reflexivity].
Qed.

Lemma cut_fence_suffix_none (s post : str) :
  Forall (fun c => c <> 96) post ->
  cut fence s = None -> cut fence (s ++ post) = None.
Proof.
  intros Hpost. induction s as [|c r IH]; intros Hs.
  - now apply cut_fence_no_tick.
  - unfold cut in Hs; fold cut in Hs.
    destruct (starts_with fence (c :: r)) eqn:E; [discriminate|].
    destruct (cut fence r) as [[a b]|] eqn:Er; [discriminate|].
    change ((c :: r) ++ post) with (c :: (r ++ post)).
    unfold cut; fold cut. rewrite (IH eq_refl).
    change (c :: (r ++ post)) with ((c :: r) ++ post).
    destruct (starts_with fence ((c :: r) ++ post)) eqn:E'; [|reflexivity].
    apply (starts_with_fence_suffix _ post Hpost) in E'. congruence.
Qed.

Lemma cut_suffix_some (pat s t a b : str) :
  cut pat s = Some (a, b) -> cut pat (s ++ t) = Some (a, b ++ t).
Proof.
  revert a. induction s as [|c r IH]; intros a Hs.
  - unfold cut in Hs. destruct (starts_with pat []) eqn:E; [|discriminate].
    injection Hs as <- <-. destruct pat; [|discriminate E].
    cbn [app]. destruct t; reflexivity.
  - pose proof (cut_shorter _ _ _ _ Hs) as Hlen.
    unfold cut in Hs; fold cut in Hs.
    change ((c :: r) ++ t) with (c :: (r ++ t)).
    unfold cut; fold cut.
    change (c :: (r ++ t)) with ((c :: r) ++ t).
    rewrite (starts_with_long pat (c :: r) t) by lia.
    destruct (starts_with pat (c :: r)) eqn:E.
    + injection Hs as <- <-. f_equal. f_equal. rewrite skipn_app.
      replace (length pat - length (c :: r))%nat with 0%nat by lia.
      reflexivity.
    + destruct (cut pat r) as [[a' b']|] eqn:Er; [|discriminate].
      injection Hs as <- <-. cbn [app]. now rewrite (IH a' eq_refl).
Qed.

End ProseFacts.

Section GroupFacts.

Variable opener : str -> bool.
Variable width : nat.

Hypothesis opener_tick : forall x, opener x = true -> exists r, x = 96 :: r.
Hypothesis opener_long : forall x, opener x = true -> (width <= length x)%nat.
Hypothesis opener_app :
  forall x y, (width <= length x)%nat -> opener (x ++ y) = opener x.

(** More rounds than the text has characters change nothing. *)
Lemma fenced_groups_more_fuel (fuel : nat) (s : str) :
  (length s <= fuel)%nat ->
  fenced_groups opener width (S fuel) s = fenced_groups opener width fuel s.
Proof.
  revert s. induction fuel as [|fuel IH]; intros s Hlen.
  - destruct s; [|simpl in Hlen; lia]. cbn [fenced_groups].
    destruct (cut_at opener width []) as [[a inner]|] eqn:E; [|reflexivity].
    destruct (cut_at_length opener width opener_long [] a inner E) as [_ Hi].
    destruct inner; [reflexivity | simpl in Hi; lia].
  - cbn [fenced_groups].
    destruct (cut_at opener width s) as [[a inner]|] eqn:E; [|reflexivity].
    destruct (cut fence inner) as [[body rest]|] eqn:Ef; [|reflexivity].
    f_equal.
    destruct (cut_at_length opener width opener_long s a inner E) as [_ Hi].
    pose proof (cut_shorter _ _ _ _ Ef) as Hr. simpl in Hr.
    change (fenced_groups opener width (S fuel) rest
            = fenced_groups opener width fuel rest).
    apply IH. lia.
Qed.

Lemma fenced_groups_fuel (fuel : nat) (s : str) :
  (length s <= fuel)%nat ->
  fenced_groups opener width fuel s
  = fenced_groups opener width (length s) s.
Proof.
  intros H. induction H as [|fuel H IH]; [reflexivity|].
  now rewrite fenced_groups_more_fuel.
Qed.

Lemma fenced_groups_prefix (fuel : nat) (pre s : str) :
  Forall (fun c => c <> 96) pre ->
  fenced_groups opener width fuel (pre ++ s)
  = fenced_groups opener width fuel s.
Proof.
  intros Hpre. destruct fuel as [|fuel]; [reflexivity|].
  cbn [fenced_groups].
  rewrite (cut_at_prefix opener width opener_tick pre s Hpre).
  now destruct (cut_at opener width s) as [[a inner]|].
Qed.

Lemma fenced_groups_suffix (fuel : nat) (s post : str) :
  Forall (fun c => c <> 96) post ->
  fenced_groups opener width fuel (s ++ post)
  = fenced_groups opener width fuel s.
Proof.
  intros Hpost. revert s. induction fuel as [|fuel IH]; intros s;
    [reflexivity|].
  cbn [fenced_groups].
  destruct (cut_at opener width s) as [[a inner]|] eqn:E.
  - rewrite (cut_at_suffix_some opener width opener_long opener_app
               s post a inner E).
    destruct (cut fence inner) as [[body rest]|] eqn:Ef.
    + rewrite (cut_suffix_some fence inner post body rest Ef).
      f_equal. apply IH.
    + now rewrite (cut_fence_suffix_none inner post Hpost Ef).
  - pose proof (cut_at_suffix_none opener width opener_tick opener_app
                  s post Hpost E) as H.
    destruct (cut_at opener width (s ++ post)) as [[a inner]|];
      [|reflexivity].
    now rewrite (cut_fence_no_tick inner H).
Qed.

Lemma groups_ignore_prose (pre text post : str) :
  Forall (fun c => c <> 96) pre -> Forall (fun c => c <> 96) post ->
  fenced_groups opener width (length (pre ++ text ++ post))
    (pre ++ text ++ post)
  = fenced_groups opener width (length text) text.
Proof.
  intros Hpre Hpost.
  rewrite (fenced_groups_prefix _ pre _ Hpre).
  rewrite (fenced_groups_suffix _ text post Hpost).
  apply fenced_groups_fuel. rewrite !length_app. lia.
Qed.

End GroupFacts.

Section SliceFacts.

Lemma json_tag_long (x : str) : json_tag x = true -> (7 <= length x)%nat.
Proof.
  destruct x as [|a [|b [|c [|j [|s [|o [|n x]]]]]]]; try discriminate.
  intros _. simpl. lia.
Qed.

Lemma json_tag_app (x y : str) :
  (7 <= length x)%nat -> json_tag (x ++ y) = json_tag x.
Proof.
  destruct x as [|a [|b [|c [|j [|s [|o [|n x]]]]]]]; simpl; try lia.
  reflexivity.
Qed.

Lemma fence_tick (x : str) :
  starts_with fence x = true -> exists r, x = 96 :: r.
Proof.
  change fence with [96; 96; 96]. destruct x as [|c x]; [discriminate|].
  cbn [starts_with]. intros H. apply andb_true_iff in H.
  destruct H as [H _]. apply N.eqb_eq in H. subst. eauto.
Qed.

Lemma fence_long (x : str) :
  starts_with fence x = true -> (3 <= length x)%nat.
Proof.
  destruct x as [|a [|b [|c x]]]; simpl; try discriminate;
    rewrite ?andb_false_r; try discriminate.
  intros _. lia.
Qed.

Lemma blocks_ignore_prose (pre text post : str) :
  Forall (fun c => c <> 96) pre -> Forall (fun c => c <> 96) post ->
  tagged_blocks (pre ++ text ++ post) = tagged_blocks text /\
  untagged_blocks (pre ++ text ++ post) = untagged_blocks text.
Proof.
  intros Hpre Hpost. unfold tagged_blocks, untagged_blocks. split.
  - apply groups_ignore_prose; try assumption.
    + intros x Hx. apply fence_tick. now apply json_tag_fence.
    + apply json_tag_long.
    + apply json_tag_app.
  - apply groups_ignore_prose; try assumption.
    + apply fence_tick.
    + apply fence_long.
    + intros x y Hx. apply starts_with_long. exact Hx.
Qed.

Lemma find_lt (c : char) (s : str) (i : nat) :
  find c s = Some i -> (i < length s)%nat.
Proof.
  revert i. induction s as [|d r IH]; intros i; [discriminate|].
  cbn [find]. destruct (N.eqb d c).
  - intros H. injection H as <-. simpl. lia.
  - destruct (find c r) as [j|]; [|discriminate].
    intros H. injection H as <-. specialize (IH j eq_refl). simpl. lia.
Qed.

Lemma rfind_lt (c : char) (s : str) (i : nat) :
  rfind c s = Some i -> (i < length s)%nat.
Proof.
  revert i. induction s as [|d r IH]; intros i; [discriminate|].
  cbn [rfind]. destruct (rfind c r) as [j|].
  - intros H. injection H as <-. specialize (IH j eq_refl). simpl. lia.
  - destruct (N.eqb d c); [|discriminate].
    intros H. injection H as <-. simpl. lia.
Qed.

Lemma find_prose (c : char) (pre text post : str) :
  Forall (fun d => d <> c) pre -> Forall (fun d => d <> c) post ->
  find c (pre ++ text ++ post)
  = match find c text with
    | Some i => Some (length pre + i)%nat
    | None => None
    end.
Proof.
  intros Hpre Hpost. induction Hpre as [|d pre Hd _ IH].
  - cbn [app length]. induction text as [|e text IHt].
    + cbn [app find]. now apply find_none_forall.
    + cbn [app find]. destruct (N.eqb e c); [reflexivity|].
      rewrite IHt. now destruct (find c text).
  - cbn [app find length]. destruct (N.eqb_spec d c); [congruence|].
    rewrite IH. now destruct (find c text).
Qed.

Lemma rfind_prose (c : char) (pre text post : str) :
  Forall (fun d => d <> c) pre -> Forall (fun d => d <> c) post ->
  rfind c (pre ++ text ++ post)
  = match rfind c text with
    | Some i => Some (length pre + i)%nat
    | None => None
    end.
Proof.
  intros Hpre Hpost.
  assert (Ht : rfind c (text ++ post) = rfind c text).
  { induction text as [|e text IHt].
    - cbn [app rfind]. now apply rfind_none_forall.
    - cbn [app rfind]. now rewrite IHt. }
  induction Hpre as [|d pre Hd _ IH].
  - cbn [app length]. rewrite Ht. now destruct (rfind c text).
  - cbn [app rfind length]. rewrite IH.
    destruct (rfind c text); [reflexivity|].
    destruct (N.eqb_spec d c); [congruence | reflexivity].
Qed.

Lemma slice_prose (pre text post : str) (i j : nat) :
  (j < length text)%nat ->
  slice (pre ++ text ++ post) (length pre + i) (length pre + j + 1)
  = slice text i (j + 1).
Proof.
  intros Hj. unfold slice.
  replace (length pre + j + 1 - (length pre + i))%nat with (j + 1 - i)%nat
    by lia.
  rewrite skipn_app.
  rewrite (skipn_all2 pre) by lia. cbn [app].
  replace (length pre + i - length pre)%nat with i by lia.
  rewrite skipn_app, firstn_app.
  replace (j + 1 - i - length (skipn i text))%nat with 0%nat
    by (rewrite length_skipn; lia).
  cbn [firstn]. now rewrite app_nil_r.
Qed.

Lemma prose_no (c : char) (s : str) :
  In c [96; 123; 125; 91; 93] ->
  forallb prose_char s = true -> Forall (fun d => d <> c) s.
Proof.
  intros Hc H. rewrite forallb_forall in H. apply Forall_forall.
  intros d Hd ->. apply H in Hd. unfold prose_char in Hd.
  apply negb_true_iff in Hd.
  assert (Hex : existsb (N.eqb c) [96; 123; 125; 91; 93] = true).
  { apply existsb_exists. exists c. split; [exact Hc | apply N.eqb_refl]. }
  congruence.
Qed.

Section Slices.

Variable loads : str -> option json.

Lemma brace_strategies_prose (pre text post : str) :
  forallb prose_char pre = true -> forallb prose_char post = true ->
  brace_strategies loads (pre ++ text ++ post) = brace_strategies loads text.
Proof.
  intros Hpre Hpost. unfold brace_strategies.
  rewrite (find_prose 123 pre text post)
    by (apply prose_no; simpl; tauto).
  rewrite (rfind_prose 125 pre text post)
    by (apply prose_no; simpl; tauto).
  destruct (find 123 text) as [i|]; [|reflexivity].
  destruct (rfind 125 text) as [j|] eqn:Ej; [|reflexivity].
  apply rfind_lt in Ej.
  replace (length pre + i <? length pre + j)%nat with (i <? j)%nat.
  2: { destruct (Nat.ltb_spec i j), (Nat.ltb_spec (length pre + i)
                                                  (length pre + j));
       try reflexivity; lia. }
  destruct (i <? j)%nat; [|reflexivity]. cbv zeta.
  now rewrite (slice_prose pre text post i j Ej).
Qed.

Lemma bracket_strategy_prose (pre text post : str) :
  forallb prose_char pre = true -> forallb prose_char post = true ->
  bracket_strategy loads (pre ++ text ++ post) = bracket_strategy loads text.
Proof.
  intros Hpre Hpost. unfold bracket_strategy.
  rewrite (find_prose 91 pre text post)
    by (apply prose_no; simpl; tauto).
  rewrite (rfind_prose 93 pre text post)
    by (apply prose_no; simpl; tauto).
  destruct (find 91 text) as [i|]; [|reflexivity].
  destruct (rfind 93 text) as [j|] eqn:Ej; [|reflexivity].
  apply rfind_lt in Ej.
  replace (length pre + i <? length pre + j)%nat with (i <? j)%nat.
  2: { destruct (Nat.ltb_spec i j), (Nat.ltb_spec (length pre + i)
                                                  (length pre + j));
       try reflexivity; lia. }
  destruct (i <? j)%nat; [|reflexivity].
  now rewrite (slice_prose pre text post i j Ej).
Qed.

Lemma strategies_prose (pre text post : str) :
  forallb prose_char pre = true -> forallb prose_char post = true ->
  strategies loads (pre ++ text ++ post) = strategies loads text.
Proof.
  intros Hpre Hpost. unfold strategies.
  destruct (blocks_ignore_prose pre text post) as [-> ->];
    try (apply prose_no; [simpl; tauto | assumption]).
  now rewrite brace_strategies_prose, bracket_strategy_prose.
Qed.

(** A blank text offers nothing to the strategies. *)
Lemma strategies_blank (text : str) :
  strip text = [] -> strategies loads text = None.
Proof.
  intros H. apply strip_nil in H. unfold strategies.
  destruct (no_fence_no_blocks text (spaces_no_fence text H)) as [-> ->].
  cbn [first_success].
  assert (Hb : find 123 text = None).
  { apply find_none_forall. eapply Forall_impl; [|exact H].
    intros c Hc. destruct (space_plain c Hc) as (_ & _ & E & _).
    now apply N.eqb_neq. }
  assert (Hk : find 91 text = None).
  { apply find_none_forall. eapply Forall_impl; [|exact H].
    intros c Hc. destruct (space_plain c Hc) as (_ & _ & _ & _ & E & _).
    now apply N.eqb_neq. }
  unfold brace_strategies, bracket_strategy. now rewrite Hb, Hk.
Qed.

Lemma parse_returns (text : str) (v : json) :
  robust_json_parse loads text = Return v <-> strategies loads text = Some v.
Proof.
  split.
  - unfold robust_json_parse, strategies.
    destruct (strip text); [discriminate|].
    destruct (first_success _ _); [now intros H; injection H as ->|].
    destruct (first_success _ _); [now intros H; injection H as ->|].
    destruct (brace_strategies _ _); [now intros H; injection H as ->|].
    destruct (bracket_strategy _ _); [now intros H; injection H as ->|].
    discriminate.
  - intros H. unfold robust_json_parse.
    destruct (strip text) eqn:E.
    { rewrite (strategies_blank text E) in H. discriminate. }
    unfold strategies in H.
    destruct (first_success _ _); [now injection H as ->|].
    destruct (first_success _ _); [now injection H as ->|].
    destruct (brace_strategies _ _); [now injection H as ->|].
    now rewrite H.
Qed.

End Slices.

End SliceFacts.

(** X20.  Prose around a reply does not change what the parser returns:
    when the text before and the text after hold no backtick, no brace and
    no bracket, the parser returns a value for the whole exactly when it
    returns that value for the reply alone. *)
Theorem prose_is_ignored (loads : str -> option json)
  (pre text post : str) (v : json) :
  forallb prose_char pre = true -> forallb prose_char post = true ->
  (robust_json_parse loads (pre ++ text ++ post) = Return v
   <-> robust_json_parse loads text = Return v).
Proof.
  intros Hpre Hpost.
  rewrite !parse_returns, (strategies_prose loads pre text post Hpre Hpost).
  reflexivity.
Qed.

Lemma prose_is_ignored_witness :
  parse (py "Sure, here are the features: "
         ++ js "{'features': [{'id': 1}],}"
         ++ py " Let me know if you need more.")
  = Return (JObject [(py "features", JArray [JObject [(py "id", JInt 1)]])]).
Proof.
  apply (prose_is_ignored Json.loads
           (py "Sure, here are the features: ")
           (js "{'features': [{'id': 1}],}")
           (py " Let me know if you need more.")).
  - reflexivity.
  - reflexivity.
  - reflexivity.
Defined.

(** ** Untagged blocks *)

Section UntaggedFacts.

Lemma cut_at_fence (s : str) :
  cut_at (starts_with fence) 3 s = cut fence s.
Proof.
  induction s as [|c r IH]; [reflexivity|].
  unfold cut_at, cut; fold cut_at; fold cut. now rewrite IH.
Qed.

Lemma untagged_blocks_first (pre body post : str) :
  contains fence (pre ++ py "``") = false ->
  contains fence (body ++ py "``") = false ->
  exists others,
    untagged_blocks (pre ++ fence ++ body ++ fence ++ post)
    = strip body :: others.
Proof.
  intros Hpre Hbody. unfold untagged_blocks.
  destruct (length (pre ++ fence ++ body ++ fence ++ post))
    as [|fuel] eqn:El.
  { rewrite !length_app in El. simpl in El. lia. }
  cbn [fenced_groups]. rewrite cut_at_fence.
  change fence with (py "``" ++ [96]).
  rewrite (cut_app (py "``") 96 pre _ Hpre).
  rewrite (cut_app (py "``") 96 body post Hbody).
  eexists. reflexivity.
Qed.

End UntaggedFacts.

(** X21.  A block between plain fences is recovered by strategy 2: when no
    block tagged [json] decodes, the text before the opening fence neither
    holds a fence nor ends with a backtick, the closing fence is the first
    one after the opening fence, and the body, without the whitespace at
    its ends, opens with a brace or a bracket and decodes, the parser
    returns the decoded body. *)
Theorem untagged_block_returned (loads : str -> option json)
  (pre body post : str) (v : json) :
  let text := pre ++ fence ++ body ++ fence ++ post in
  first_success (try_tagged loads) (tagged_blocks text) = None ->
  contains fence (pre ++ py "``") = false ->
  contains fence (body ++ py "``") = false ->
  starts_with [123] (strip body) || starts_with [91] (strip body) = true ->
  loads (strip body) = Some v ->
  robust_json_parse loads text = Return v.
Proof.
  intros text Htag Hpre Hbody Hopen Hl.
  destruct (untagged_blocks_first pre body post Hpre Hbody)
    as [others Hblocks].
  fold text in Hblocks.
  assert (Htry : try_untagged loads (strip body) = Some v).
  { unfold try_untagged. rewrite strip_idem.
    destruct (strip body) as [|c r] eqn:E; [discriminate Hopen|].
    cbn [starts_with] in Hopen. rewrite !andb_true_r in Hopen.
    rewrite (N.eqb_sym c 123), (N.eqb_sym c 91), Hopen. exact Hl. }
  unfold robust_json_parse.
  destruct (strip text) eqn:E.
  { apply strip_nil, spaces_no_fence, no_fence_no_blocks in E.
    destruct E as [_ E]. rewrite E in Hblocks. discriminate. }
  rewrite Htag, Hblocks. cbn [first_success]. now rewrite Htry.
Qed.

Lemma untagged_block_returned_witness :
  parse (py "Result: " ++ fence ++ (10 :: js "{'a': [1, 2]}" ++ [10]) ++ fence
         ++ py " done")
  = Return (JObject [(py "a", JArray [JInt 1; JInt 2])]).
Proof.
  apply (untagged_block_returned Json.loads (py "Result: ")
           (10 :: js "{'a': [1, 2]}" ++ [10]) (py " done")); reflexivity.
Defined.

(** ** The stage adapters: the replies they accept *)

Section AcceptanceFacts.

Variable loads : str -> option json.
Variable float_nonzero : str -> bool.

Lemma for_each_dicts (items : list json) :
  for_each get_method items = Return tt <-> forallb is_dict items = true.
Proof.
  induction items as [|x items IH]; [split; reflexivity|].
  cbn [for_each forallb].
  destruct x; cbn [get_method bind is_dict andb];
    try (split; discriminate).
  exact IH.
Qed.

Lemma has_key_subscript (key : str) (v : json) :
  has_key key v = true <-> exists x, subscript v key = Return x.
Proof.
  unfold has_key, subscript. destruct v; try (split; [discriminate|]);
    try (intros [x Hx]; discriminate).
  destruct (dict_get members key) as [y|].
  - split; [eauto | reflexivity].
  - split; [discriminate | intros [x Hx]; discriminate].
Qed.

Lemma for_each_feature_records (items : list json) :
  for_each (fun feature =>
              subscript feature (py "id") ;;;
              subscript feature (py "name") ;;;
              Return tt) items = Return tt
  <-> forallb feature_record items = true.
Proof.
  induction items as [|x items IH]; [split; reflexivity|].
  cbn [for_each forallb]. unfold feature_record at 1.
  destruct (has_key (py "id") x) eqn:Ei.
  - apply has_key_subscript in Ei. destruct Ei as [i Ei]. rewrite Ei.
    cbn [bind andb].
    destruct (has_key (py "name") x) eqn:En.
    + apply has_key_subscript in En. destruct En as [n En]. rewrite En.
      cbn [bind]. exact IH.
    + destruct (subscript x (py "name")) as [n|e] eqn:Es.
      * assert (H : has_key (py "name") x = true)
          by (apply has_key_subscript; eauto).
        congruence.
      * cbn [bind]. split; discriminate.
  - destruct (subscript x (py "id")) as [i|e] eqn:Es.
    + assert (H : has_key (py "id") x = true)
        by (apply has_key_subscript; eauto).
      congruence.
    + cbn [bind andb]. split; discriminate.
Qed.

Lemma feature_records_dicts (items : list json) :
  forallb feature_record items = true -> forallb is_dict items = true.
Proof.
  induction items as [|x items IH]; [reflexivity|]. cbn [forallb].
  intros H. apply andb_true_iff in H. destruct H as [Hx Hrest].
  rewrite (IH Hrest), andb_true_r.
  destruct x; try discriminate Hx. reflexivity.
Qed.

Lemma elements_chars_fail (s : str) :
  s <> [] ->
  exists e, for_each get_method (map (fun c => JString [c]) s) = Raise e.
Proof. destruct s; [congruence|]. intros _. simpl. eauto. Qed.

Lemma elements_keys_fail (members : list (str * json)) :
  members <> [] ->
  exists e,
    for_each get_method (map (fun kv => JString (fst kv)) members) = Raise e.
Proof. destruct members; [congruence|]. intros _. simpl. eauto. Qed.

Lemma render_test_case_returns (tc : json) :
  Chain.render_test_case float_nonzero tc = Return tt
  <-> steps_renderable float_nonzero tc = true.
Proof.
  unfold Chain.render_test_case, steps_renderable.
  destruct tc; cbn [get_method bind]; try (split; discriminate).
  unfold get.
  destruct (dict_get members (py "test_steps")) as [steps|];
    cbn [bind]; [|split; reflexivity].
  destruct (truthy float_nonzero steps) eqn:Et; [|split; reflexivity].
  destruct steps; cbn [elements bind]; try (split; discriminate).
  - destruct s as [|c s]; [discriminate Et|].
    destruct (elements_chars_fail (c :: s) ltac:(discriminate)) as [e ->].
    split; discriminate.
  - apply for_each_dicts.
  - destruct members0 as [|kv ms]; [discriminate Et|].
    destruct (elements_keys_fail (kv :: ms) ltac:(discriminate)) as [e ->].
    split; discriminate.
Qed.

Lemma for_each_renderable (items : list json) :
  for_each (Chain.render_test_case float_nonzero) items = Return tt
  <-> forallb (steps_renderable float_nonzero) items = true.
Proof.
  induction items as [|x items IH]; [split; reflexivity|].
  cbn [for_each forallb].
  destruct (steps_renderable float_nonzero x) eqn:Ex.
  - apply render_test_case_returns in Ex. rewrite Ex. cbn [bind andb].
    exact IH.
  - destruct (Chain.render_test_case float_nonzero x) as [[]|e] eqn:Er.
    + apply render_test_case_returns in Er. congruence.
    + cbn [bind andb]. split; discriminate.
Qed.

(** The body of [parse_features] on a reply whose [features] is a
    non-empty array *)
Lemma parse_features_body_on_array (response : str)
  (members : list (str * json)) (recs : list json) :
  robust_json_parse loads response = Return (JObject members) ->
  dict_get members (py "features") = Some (JArray recs) -> recs <> [] ->
  Chain.parse_features_body loads response
  = (for_each get_method recs ;;;
     for_each (fun feature =>
                 subscript feature (py "id") ;;;
                 subscript feature (py "name") ;;;
                 Return tt) recs ;;;
     Return recs).
Proof.
  intros Hp Hk Hne. unfold Chain.parse_features_body. rewrite Hp.
  cbn [bind]. unfold Chain.field. rewrite Hk.
  destruct recs as [|x recs]; [congruence|]. reflexivity.
Qed.

Lemma parse_test_points_body_on_array (feature : json) (response : str)
  (members : list (str * json)) (recs : list json) :
  robust_json_parse loads response = Return (JObject members) ->
  dict_get members (py "test_points") = Some (JArray recs) -> recs <> [] ->
  Chain.parse_test_points_body loads float_nonzero feature response
  = (subscript feature (py "name") ;;;
     for_each get_method recs ;;;
     Return recs).
Proof.
  intros Hp Hk Hne. unfold Chain.parse_test_points_body. rewrite Hp.
  cbn [bind]. unfold Chain.field. rewrite Hk.
  destruct recs as [|x recs]; [congruence|]. reflexivity.
Qed.

Lemma parse_test_cases_body_on_array (feature test_point : json)
  (response : str) (members : list (str * json)) (recs : list json) :
  robust_json_parse loads response = Return (JObject members) ->
  dict_get members (py "test_cases") = Some (JArray recs) -> recs <> [] ->
  Chain.parse_test_cases_body loads float_nonzero response feature test_point
  = (subscript feature (py "name") ;;;
     subscript test_point (py "name") ;;;
     for_each (Chain.render_test_case float_nonzero) recs ;;;
     Return recs).
Proof.
  intros Hp Hk Hne. unfold Chain.parse_test_cases_body. rewrite Hp.
  cbn [bind]. unfold Chain.field. rewrite Hk.
  destruct recs as [|x recs]; [congruence|]. reflexivity.
Qed.

Lemma finish_stage_complete (body : outcome (list json)) (recs : list json) :
  Chain.finish_stage body
  = {| Chain.thinking := Chain.Complete; Chain.records := recs |}
  <-> body = Return recs.
Proof.
  destruct body as [items|e]; cbn [Chain.finish_stage].
  - split; intros H; injection H as ->; reflexivity.
  - split; discriminate.
Qed.

End AcceptanceFacts.

(** X5.  [parse_features] reports completion with the records [recs]
    exactly when the reply parses to a mapping whose entry [features] is a
    non-empty array of mappings that each have the keys [id] and [name],
    and [recs] is that array: one feature without an [id] or a [name] fails
    the whole stage. *)
Theorem parse_features_accepts (loads : str -> option json) (response : str)
  (recs : list json) :
  Chain.parse_features loads response
  = {| Chain.thinking := Chain.Complete; Chain.records := recs |}
  <-> exists members,
        robust_json_parse loads response = Return (JObject members) /\
        dict_get members (py "features") = Some (JArray recs) /\
        recs <> [] /\ forallb feature_record recs = true.
Proof.
  unfold Chain.parse_features. rewrite finish_stage_complete. split.
  - intros Hbody.
    destruct (parse_features_body_returns loads response recs Hbody)
      as (members & Hp & Hk & Hne).
    exists members. repeat split; try assumption.
    rewrite (parse_features_body_on_array loads response members recs
               Hp Hk Hne) in Hbody.
    destruct (for_each get_method recs) as [[]|e]; [|discriminate].
    cbn [bind] in Hbody.
    apply for_each_feature_records.
    destruct (for_each _ recs) as [[]|e]; [reflexivity | discriminate].
  - intros (members & Hp & Hk & Hne & Hall).
    rewrite (parse_features_body_on_array loads response members recs
               Hp Hk Hne).
    pose proof (feature_records_dicts recs Hall) as Hd.
    apply for_each_dicts in Hd. rewrite Hd. cbn [bind].
    apply for_each_feature_records in Hall. now rewrite Hall.
Qed.

(** X6.  [parse_test_points] reports completion with the records [recs]
    exactly when the feature it is given is a mapping with the key [name],
    and the reply parses to a mapping whose entry [test_points] is a
    non-empty array of mappings, which is [recs]; the test points need no
    key of their own. *)
Theorem parse_test_points_accepts (loads : str -> option json)
  (float_nonzero : str -> bool) (feature : json) (response : str)
  (recs : list json) :
  Chain.parse_test_points loads float_nonzero feature response
  = {| Chain.thinking := Chain.Complete; Chain.records := recs |}
  <-> has_key (py "name") feature = true /\
      exists members,
        robust_json_parse loads response = Return (JObject members) /\
        dict_get members (py "test_points") = Some (JArray recs) /\
        recs <> [] /\ forallb is_dict recs = true.
Proof.
  unfold Chain.parse_test_points. rewrite finish_stage_complete. split.
  - intros Hbody.
    destruct (parse_test_points_body_returns loads float_nonzero feature
                response recs Hbody) as (members & Hp & Hk & Hne).
    rewrite (parse_test_points_body_on_array loads float_nonzero feature
               response members recs Hp Hk Hne) in Hbody.
    destruct (subscript feature (py "name")) as [n|e] eqn:En;
      [|discriminate].
    cbn [bind] in Hbody. split.
    + apply has_key_subscript. eauto.
    + exists members. repeat split; try assumption.
      apply for_each_dicts.
      destruct (for_each get_method recs) as [[]|e];
        [reflexivity | discriminate].
  - intros (Hname & members & Hp & Hk & Hne & Hall).
    rewrite (parse_test_points_body_on_array loads float_nonzero feature
               response members recs Hp Hk Hne).
    apply has_key_subscript in Hname. destruct Hname as [n ->].
    apply for_each_dicts in Hall. now rewrite Hall.
Qed.

(** X7.  [parse_test_cases] reports completion with the records [recs]
    exactly when the feature and the test point it is given are mappings
    with the key [name], and the reply parses to a mapping whose entry
    [test_cases] is a non-empty array, which is [recs], of mappings whose
    [test_steps], when present and not empty, is an array of mappings. *)
Theorem parse_test_cases_accepts (loads : str -> option json)
  (float_nonzero : str -> bool) (feature test_point : json) (response : str)
  (recs : list json) :
  Chain.parse_test_cases loads float_nonzero response feature test_point
  = {| Chain.thinking := Chain.Complete; Chain.records := recs |}
  <-> has_key (py "name") feature = true /\
      has_key (py "name") test_point = true /\
      exists members,
        robust_json_parse loads response = Return (JObject members) /\
        dict_get members (py "test_cases") = Some (JArray recs) /\
        recs <> [] /\
        forallb (steps_renderable float_nonzero) recs = true.
Proof.
  unfold Chain.parse_test_cases. rewrite finish_stage_complete. split.
  - intros Hbody.
    destruct (parse_test_cases_body_returns loads float_nonzero feature
                test_point response recs Hbody)
      as (members & Hp & Hk & Hne).
    rewrite (parse_test_cases_body_on_array loads float_nonzero feature
               test_point response members recs Hp Hk Hne) in Hbody.
    destruct (subscript feature (py "name")) as [n|e] eqn:En;
      [|discriminate].
    destruct (subscript test_point (py "name")) as [m|e] eqn:Em;
      [|discriminate].
    cbn [bind] in Hbody. split; [|split].
    + apply has_key_subscript. eauto.
    + apply has_key_subscript. eauto.
    + exists members. repeat split; try assumption.
      apply for_each_renderable.
      destruct (for_each _ recs) as [[]|e]; [reflexivity | discriminate].
  - intros (Hf & Ht & members & Hp & Hk & Hne & Hall).
    rewrite (parse_test_cases_body_on_array loads float_nonzero feature
               test_point response members recs Hp Hk Hne).
    apply has_key_subscript in Hf, Ht.
    destruct Hf as [n ->], Ht as [m ->].
    apply for_each_renderable in Hall. now rewrite Hall.
Qed.

(** ** The streaming collaborator and the reply it ends with *)

Section SnapshotFacts.

Lemma stream_from_closed (content : str) (chunks : list (option str)) :
  Model.stream_from content chunks
  = map (fun k => content ++ snapshot chunks k)
        (seq 1 (length (contents chunks))).
Proof.
  unfold snapshot. revert content.
  induction chunks as [|[c|] chunks IH]; intros content;
    [reflexivity| |apply IH].
  change (Model.stream_from content (Some c :: chunks))
    with ((content ++ c) :: Model.stream_from (content ++ c) chunks).
  change (contents (Some c :: chunks)) with (c :: contents chunks).
  cbn [length seq map firstn concat]. rewrite app_nil_r. f_equal.
  rewrite IH, <- (seq_shift (length (contents chunks)) 1), map_map.
  apply map_ext. intros k. cbn [firstn concat]. now rewrite app_assoc.
Qed.

Lemma blank_reply_fails (loads : str -> option json) (response : str) :
  strip response = [] ->
  Chain.parse_features loads response
  = {| Chain.thinking := Chain.Failed (ValueError empty_message);
       Chain.records := [] |}.
Proof.
  intros H. unfold Chain.parse_features, Chain.parse_features_body,
    robust_json_parse.
  now rewrite H.
Qed.

End SnapshotFacts.

(** X8.  The streaming collaborator yields one snapshot for each chunk that
    carries content (an empty text counts, [None] does not), and the
    snapshot number [k] is the first [k] contents joined. *)
Theorem snapshots_are_joined_contents (chunks : list (option str)) :
  Model.generate_response_vllm_stream chunks
  = map (snapshot chunks) (seq 1 (length (contents chunks))).
Proof.
  unfold Model.generate_response_vllm_stream.
  rewrite stream_from_closed. apply map_ext. reflexivity.
Qed.

(** X9.  When the streamed reply ends blank (no chunk carried content, or
    only whitespace came), the features stage still shows every snapshot,
    calls the parser once on the blank text and ends with the failure of
    the empty input, with no records. *)
Theorem blank_stream_fails_features_stage (loads : str -> option json)
  (prd_text : str) (chunks : list (option str)) :
  strip prd_text <> [] -> strip (concat (contents chunks)) = [] ->
  Stream.generate_features_for_gradio_stream loads prd_text chunks
  = map (fun p => Stream.Yield (Stream.Progress p))
        (Model.generate_response_vllm_stream chunks)
    ++ [Stream.CallParser (concat (contents chunks));
        Stream.Yield
          (Stream.Result
             {| Chain.thinking := Chain.Failed (ValueError empty_message);
                Chain.records := [] |})].
Proof.
  intros Hprd Hblank. unfold Stream.generate_features_for_gradio_stream.
  destruct (strip prd_text); [congruence|].
  rewrite stream_loop_trace.
  unfold Model.generate_response_vllm_stream at 2 3.
  rewrite (stream_from_last [] chunks). cbn [app].
  now rewrite (blank_reply_fails loads _ Hblank).
Qed.

Lemma blank_stream_fails_features_stage_witness :
  Stream.generate_features_for_gradio_stream Json.loads (py "doc")
    [None; Some (py " "); None]
  = [Stream.Yield (Stream.Progress (py " "));
     Stream.CallParser (py " ");
     Stream.Yield
       (Stream.Result
          {| Chain.thinking := Chain.Failed (ValueError empty_message);
             Chain.records := [] |})].
Proof.
  apply (blank_stream_fails_features_stage Json.loads (py "doc")
           [None; Some (py " "); None]).
  - vm_compute. discriminate.
  - reflexivity.
Defined.

(** ** The endpoints: the replies they accept, and the limits of the
    pipeline *)

Section EndpointFacts.

Variable loads : str -> option json.

Lemma list_of_dict_returns (v : json) (items : list json) :
  Api.list_of_dict v = Return items
  <-> v = JArray items /\ forallb is_dict items = true.
Proof.
  unfold Api.list_of_dict. destruct v;
    try (split; [discriminate | intros [H _]; discriminate H]).
  destruct (forallb is_dict items0) eqn:E.
  - split.
    + intros H. injection H as ->. now split.
    + intros [H _]. injection H as ->. reflexivity.
  - split; [discriminate|]. intros [H Hd]. injection H as ->. congruence.
Qed.

Lemma get_entry (members : list (str * json)) (key : str) :
  get (JObject members) key (JArray [])
  = Return (entry_or_empty members key).
Proof.
  unfold get, entry_or_empty. now destruct (dict_get members key).
Qed.

(** The response of an endpoint to a reply that parses to a mapping whose
    entry is an array of mappings *)
Lemma respond_accepts (key text : str) (members : list (str * json))
  (items : list json) :
  robust_json_parse loads text = Return (JObject members) ->
  entry_or_empty members key = JArray items ->
  forallb is_dict items = true ->
  Api.respond loads key (Return text)
  = {| Api.success := true; Api.records := items;
       Api.raw_response := Some text; Api.error := None |}.
Proof.
  intros Hp He Hd. unfold Api.respond. cbn [bind]. rewrite Hp. cbn [bind].
  rewrite get_entry, He. cbn [bind Api.list_of_dict]. now rewrite Hd.
Qed.

Lemma respond_success (key : str) (reply : outcome str) :
  Api.success (Api.respond loads key reply) = true ->
  exists text members items,
    reply = Return text /\
    robust_json_parse loads text = Return (JObject members) /\
    entry_or_empty members key = JArray items /\
    forallb is_dict items = true.
Proof.
  unfold Api.respond. destruct reply as [text|e]; [|discriminate].
  cbn [bind].
  destruct (robust_json_parse loads text) as [result|e] eqn:Hp;
    [|discriminate].
  cbn [bind]. destruct result; try discriminate.
  rewrite get_entry. cbn [bind].
  destruct (Api.list_of_dict (entry_or_empty members key)) as [items|e]
    eqn:El; [|discriminate].
  apply list_of_dict_returns in El. destruct El as [He Hd].
  intros _. exists text, members, items. now repeat split.
Qed.

Lemma respond_failure (key : str) (reply : outcome str) :
  Api.success (Api.respond loads key reply) = false ->
  Api.records (Api.respond loads key reply) = [] /\
  Api.raw_response (Api.respond loads key reply) = None /\
  exists e, Api.error (Api.respond loads key reply) = Some e.
Proof.
  unfold Api.respond.
  destruct (response <- reply ;;
            result <- robust_json_parse loads response ;;
            value <- get result key (JArray []) ;;
            items <- Api.list_of_dict value ;;
            Return {| Api.success := true; Api.records := items;
                      Api.raw_response := Some response;
                      Api.error := None |}) as [r|e] eqn:E.
  - assert (Hs : Api.success r = true).
    { destruct reply as [text|]; [|discriminate]. cbn [bind] in E.
      destruct (robust_json_parse loads text); [|discriminate].
      cbn [bind] in E. destruct (get v key (JArray [])); [|discriminate].
      cbn [bind] in E. destruct (Api.list_of_dict v0); [|discriminate].
      cbn [bind] in E. injection E as <-. reflexivity. }
    congruence.
  - intros _. cbn. eauto.
Qed.

End EndpointFacts.

(** X10.  An endpoint of [api.py] answers HTTP 400 while the client is not
    set.  With the client set it always returns a response; the response
    reports success with the records [items] and the raw reply [text]
    exactly when the collaborators returned [text], [text] parses to a
    mapping, and the entry of the stage's key in it (an empty array when
    the key is missing) is the array [items] whose elements are all
    mappings.  A response that reports failure has no records and no raw
    reply, and carries the error. *)
Theorem endpoint_accepts (loads : str -> option json) (key : str)
  (reply : outcome str) :
  Api.stage loads key false reply = Raise (HTTPException 400)
  /\ Api.stage loads key true reply = Return (Api.respond loads key reply)
  /\ (forall text items,
        Api.respond loads key reply
        = {| Api.success := true; Api.records := items;
             Api.raw_response := Some text; Api.error := None |}
        <-> reply = Return text /\
            exists members,
              robust_json_parse loads text = Return (JObject members) /\
              entry_or_empty members key = JArray items /\
              forallb is_dict items = true)
  /\ (Api.success (Api.respond loads key reply) = false ->
      Api.records (Api.respond loads key reply) = [] /\
      Api.raw_response (Api.respond loads key reply) = None /\
      exists e, Api.error (Api.respond loads key reply) = Some e).
Proof.
  split; [reflexivity|]. split; [reflexivity|]. split.
  - intros text items. split.
    + intros H.
      assert (Hs : Api.success (Api.respond loads key reply) = true)
        by now rewrite H.
      destruct (respond_success loads key reply Hs)
        as (text' & members & items' & -> & Hp & He & Hd).
      rewrite (respond_accepts loads key text' members items' Hp He Hd) in H.
      injection H as -> ->. split; [reflexivity|].
      exists members. now repeat split.
    + intros (-> & members & Hp & He & Hd).
      now apply (respond_accepts loads key text members items).
  - apply respond_failure.
Qed.

Lemma endpoint_accepts_witness :
  Api.success
    (Api.respond Json.loads (py "features")
       (Return (js "{'features': [1]}"))) = false /\
  Api.records
    (Api.respond Json.loads (py "features")
       (Return (js "{'features': [1]}"))) = [].
Proof.
  assert (H : Api.success
                (Api.respond Json.loads (py "features")
                   (Return (js "{'features': [1]}"))) = false)
    by (vm_compute; reflexivity).
  split; [exact H|].
  destruct (endpoint_accepts Json.loads (py "features")
              (Return (js "{'features': [1]}")))
    as (_ & _ & _ & Hfail).
  exact (proj1 (Hfail H)).
Defined.

Section AgreementFacts.

Variable loads : str -> option json.
Variable float_nonzero : str -> bool.

Lemma renderable_dicts (items : list json) :
  forallb (steps_renderable float_nonzero) items = true ->
  forallb is_dict items = true.
Proof.
  induction items as [|x items IH]; [reflexivity|]. cbn [forallb].
  intros H. apply andb_true_iff in H. destruct H as [Hx Hrest].
  rewrite (IH Hrest), andb_true_r.
  destruct x; try discriminate Hx. reflexivity.
Qed.

Lemma entry_present (members : list (str * json)) (key : str) (v : json) :
  dict_get members key = Some v -> entry_or_empty members key = v.
Proof. unfold entry_or_empty. now intros ->. Qed.

Lemma features_body_dicts (response : str) (recs : list json) :
  Chain.parse_features_body loads response = Return recs ->
  forallb is_dict recs = true.
Proof.
  intros Hbody.
  destruct (parse_features_body_returns loads response recs Hbody)
    as (members & Hp & Hk & Hne).
  rewrite (parse_features_body_on_array loads response members recs
             Hp Hk Hne) in Hbody.
  apply for_each_dicts.
  destruct (for_each get_method recs) as [[]|e];
    [reflexivity | discriminate].
Qed.

Lemma test_points_body_dicts (feature : json) (response : str)
  (recs : list json) :
  Chain.parse_test_points_body loads float_nonzero feature response
  = Return recs ->
  forallb is_dict recs = true.
Proof.
  intros Hbody.
  destruct (parse_test_points_body_returns loads float_nonzero feature
              response recs Hbody) as (members & Hp & Hk & Hne).
  rewrite (parse_test_points_body_on_array loads float_nonzero feature
             response members recs Hp Hk Hne) in Hbody.
  destruct (subscript feature (py "name")); [|discriminate].
  cbn [bind] in Hbody. apply for_each_dicts.
  destruct (for_each get_method recs) as [[]|e];
    [reflexivity | discriminate].
Qed.

Lemma test_cases_body_dicts (feature test_point : json) (response : str)
  (recs : list json) :
  Chain.parse_test_cases_body loads float_nonzero response feature test_point
  = Return recs ->
  forallb is_dict recs = true.
Proof.
  intros Hbody.
  destruct (parse_test_cases_body_returns loads float_nonzero feature
              test_point response recs Hbody)
    as (members & Hp & Hk & Hne).
  rewrite (parse_test_cases_body_on_array loads float_nonzero feature
             test_point response members recs Hp Hk Hne) in Hbody.
  destruct (subscript feature (py "name")); [|discriminate].
  destruct (subscript test_point (py "name")); [|discriminate].
  cbn [bind] in Hbody. apply renderable_dicts, for_each_renderable.
  destruct (for_each _ recs) as [[]|e]; [reflexivity | discriminate].
Qed.

End AgreementFacts.

(** X11.  Whatever a stage adapter of [generate_chain.py] accepts, the
    endpoint of [api.py] for the same stage accepts too, with the same
    records: the endpoints are the more lenient of the two families. *)
Theorem adapter_acceptance_implies_endpoint (loads : str -> option json)
  (float_nonzero : str -> bool) (feature test_point : json)
  (response : str) :
  let agrees (r : Chain.stage_result) (key : str) :=
    Chain.succeeded r = true ->
    Api.respond loads key (Return response)
    = {| Api.success := true; Api.records := Chain.records r;
         Api.raw_response := Some response; Api.error := None |} in
  agrees (Chain.parse_features loads response) (py "features")
  /\ agrees (Chain.parse_test_points loads float_nonzero feature response)
       (py "test_points")
  /\ agrees (Chain.parse_test_cases loads float_nonzero response feature
               test_point) (py "test_cases").
Proof.
  cbv zeta. repeat split; intros Hs; apply finish_stage_succeeded in Hs.
  - pose proof (features_body_dicts loads response _ Hs) as Hd.
    destruct (parse_features_body_returns loads response _ Hs)
      as (members & Hp & Hk & _).
    apply (respond_accepts loads _ response members _ Hp);
      [now apply entry_present | exact Hd].
  - pose proof (test_points_body_dicts loads float_nonzero feature
                  response _ Hs) as Hd.
    destruct (parse_test_points_body_returns loads float_nonzero feature
                response _ Hs) as (members & Hp & Hk & _).
    apply (respond_accepts loads _ response members _ Hp);
      [now apply entry_present | exact Hd].
  - pose proof (test_cases_body_dicts loads float_nonzero feature
                  test_point response _ Hs) as Hd.
    destruct (parse_test_cases_body_returns loads float_nonzero feature
                test_point response _ Hs) as (members & Hp & Hk & _).
    apply (respond_accepts loads _ response members _ Hp);
      [now apply entry_present | exact Hd].
Qed.

Lemma adapter_acceptance_implies_endpoint_witness :
  Api.respond Json.loads (py "features")
    (Return (js "{'features': [{'id': 1, 'name': 'Login'}]}"))
  = {| Api.success := true;
       Api.records := [JObject [(py "id", JInt 1);
                                (py "name", JString (py "Login"))]];
       Api.raw_response :=
         Some (js "{'features': [{'id': 1, 'name': 'Login'}]}");
       Api.error := None |}.
Proof.
  destruct (adapter_acceptance_implies_endpoint Json.loads (fun _ => true)
              JNull JNull (js "{'features': [{'id': 1, 'name': 'Login'}]}"))
    as (H & _ & _).
  apply H. reflexivity.
Defined.

Section LimitFacts.

Lemma cap_prefix {A : Type} (limit : option Z) (l : list A) :
  prefix_of (Api.cap limit l) l.
Proof.
  assert (H : forall k, prefix_of (firstn k l) l).
  { intros k. exists (skipn k l). symmetry. apply firstn_skipn. }
  unfold Api.cap, slice_to. destruct limit as [n|]; [|exists []].
  - destruct (Z.eqb n 0); [exists []; now rewrite app_nil_r|].
    destruct (0 <=? n)%Z; apply H.
  - now rewrite app_nil_r.
Qed.

Lemma cap_length {A : Type} (n : Z) (l : list A) :
  (0 < n)%Z -> (length (Api.cap (Some n) l) <= Z.to_nat n)%nat.
Proof.
  intros Hn. unfold Api.cap, slice_to.
  destruct (Z.eqb_spec n 0); [lia|].
  destruct (Z.leb_spec 0 n); [|lia].
  apply firstn_le_length.
Qed.

Lemma cap_unlimited {A : Type} (limit : option Z) (l : list A) :
  limit = None \/ limit = Some 0%Z -> Api.cap limit l = l.
Proof. intros [-> | ->]; reflexivity. Qed.

Lemma lookup_feature_in (d : list (nat * list json)) (i : nat)
  (v : list json) :
  NoDup (map fst d) -> In (i, v) d -> lookup_feature i d = Some v.
Proof.
  induction d as [|[k w] d IH]; intros Hnd Hin; [contradiction|].
  inversion Hnd as [|? ? Hfresh Hnd']; subst. cbn [lookup_feature].
  destruct Hin as [Heq | Hin].
  - injection Heq as -> ->. now rewrite Nat.eqb_refl.
  - destruct (Nat.eqb_spec k i) as [->|_]; [|now apply IH].
    exfalso. apply Hfresh. apply in_map_iff. now exists (i, v).
Qed.

End LimitFacts.

(** X12.  The features a pipeline run reports are the first ones of those
    the feature stage extracted: all of them when [max_features] is absent
    or 0, at most [max_features] when it is positive.  Each list of test
    points it reports holds at most [max_test_points_per_feature] entries
    when that limit is positive. *)
Theorem pipeline_respects_limits (loads : str -> option json)
  (req : Api.request) (env : Api.replies) (r : Api.pipeline_response) :
  Api.run_full_pipeline loads req env true = Return r ->
  let extracted :=
    Api.records (Api.respond loads (py "features") (Api.features_reply env)) in
  prefix_of (Api.p_features r) extracted
  /\ (Api.p_success r = true ->
      Api.max_features req = None \/ Api.max_features req = Some 0%Z ->
      Api.p_features r = extracted)
  /\ (forall n, Api.max_features req = Some n -> (0 < n)%Z ->
        (length (Api.p_features r) <= Z.to_nat n)%nat)
  /\ (forall m i stored,
        Api.max_test_points_per_feature req = Some m -> (0 < m)%Z ->
        In (i, stored) (Api.p_test_points r) ->
        (length stored <= Z.to_nat m)%nat).
Proof.
  intros Hrun extracted. revert Hrun.
  unfold Api.run_full_pipeline, Api.extract_features, Api.stage.
  simpl negb. cbv iota. simpl bind. fold extracted.
  destruct (Api.success (Api.respond loads (py "features")
                           (Api.features_reply env))) eqn:Es;
    simpl negb; cbv iota.
  2: { intros H. injection H as <-. cbn.
       split; [now exists extracted|]. split; [discriminate|].
       split; [intros; lia | intros ? ? ? _ _ []]. }
  set (features := Api.cap (Api.max_features req) extracted).
  destruct (test_points_loop_spec loads req env features 0)
    as (all_tp & Htp & Hlook & Hkeys & Hnd).
  assert (Hkeys' : Forall (fun kv => (fst kv < length features)%nat) all_tp).
  { eapply Forall_impl; [|exact Hkeys]. simpl. intros kv Hkv. lia. }
  destruct (test_cases_loop_spec loads env features all_tp Hkeys' Hnd)
    as (all_tc & Htc & _).
  rewrite Htp. simpl bind. rewrite Htc. simpl bind.
  intros H. injection H as <-. cbn.
  split; [apply cap_prefix|]. split; [intros _; apply cap_unlimited|].
  split.
  - intros n Hn Hpos. unfold features. rewrite Hn. now apply cap_length.
  - intros m i stored Hm Hpos Hin.
    pose proof (lookup_feature_in all_tp i stored Hnd Hin) as Hl.
    rewrite Hlook in Hl.
    destruct ((0 <=? i)%nat && (i <? 0 + length features)%nat);
      [|discriminate].
    unfold test_points_slot in Hl. cbv zeta in Hl.
    match type of Hl with
    | (if ?b then _ else _) = _ => destruct b; [|discriminate]
    end.
    injection Hl as <-. rewrite Hm. now apply cap_length.
Qed.

Lemma pipeline_respects_limits_witness :
  exists r,
    Api.run_full_pipeline Json.loads
      {| Api.max_features := Some 1%Z;
         Api.max_test_points_per_feature := Some 1%Z |}
      {| Api.features_reply :=
           Return (js "{'features': [{'id': 1}, {'id': 2}]}");
         Api.test_points_reply := fun _ =>
           Return (js "{'test_points': [{'id': 1}, {'id': 2}]}");
         Api.test_cases_reply := fun _ _ =>
           Return (js "{'test_cases': [{'case_id': 'TC1'}]}") |} true
    = Return r /\
    (length (Api.p_features r) <= 1)%nat.
Proof.
  eexists. split; [vm_compute; reflexivity|].
  match goal with
  | |- (length (Api.p_features ?r) <= _)%nat =>
      assert (H : Api.run_full_pipeline Json.loads
                    {| Api.max_features := Some 1%Z;
                       Api.max_test_points_per_feature := Some 1%Z |}
                    {| Api.features_reply :=
                         Return (js "{'features': [{'id': 1}, {'id': 2}]}");
                       Api.test_points_reply := fun _ =>
                         Return (js "{'test_points': [{'id': 1}, {'id': 2}]}");
                       Api.test_cases_reply := fun _ _ =>
                         Return (js "{'test_cases': [{'case_id': 'TC1'}]}") |}
                    true = Return r)
        by (vm_compute; reflexivity)
  end.
  destruct (pipeline_respects_limits Json.loads _ _ _ H) as (_ & _ & Hn & _).
  apply (Hn 1%Z); reflexivity.
Defined.

(** ** The stages behind the UI *)

Section UiFacts.

Variable loads : str -> option json.
Variable float_nonzero : str -> bool.
Variable unicode_decimal : char -> option N.
Variable repr_of : json -> str.

Lemma cut_char (c : char) (a b : str) :
  Forall (fun d => d <> c) a -> cut [c] (a ++ c :: b) = Some (a, b).
Proof.
  induction 1 as [|d a Hd _ IH].
  - cbn [app]. unfold cut; fold cut. cbn [starts_with].
    now rewrite N.eqb_refl.
  - cbn [app]. unfold cut; fold cut. cbn [starts_with].
    destruct (N.eqb_spec c d) as [->|_]; [congruence|].
    cbn [andb]. now rewrite IH.
Qed.

Lemma before_dot_choice (k : Z) (rest : str) :
  Ui.before_dot (str_of_int k ++ py ". " ++ rest) = str_of_int k.
Proof.
  unfold Ui.before_dot. change (py ". " ++ rest) with (46 :: 32 :: rest).
  now rewrite (cut_char 46 _ _ (str_of_int_no_dot k)).
Qed.

Lemma ui_stream_loop (response_text : str) (partials : list str) :
  Ui.stream_loop response_text partials
  = (map (fun p => Ui.Yield (Ui.Progress p)) partials,
     last partials response_text).
Proof.
  revert response_text. induction partials as [|p rest IH];
    intros response_text; [reflexivity|].
  cbn [Ui.stream_loop]. rewrite IH, last_cons. reflexivity.
Qed.

Lemma ui_streamed (chunks : list (option str)) :
  Ui.stream_loop [] (Model.generate_response_vllm_stream chunks)
  = (map (fun p => Ui.Yield (Ui.Progress p))
         (Model.generate_response_vllm_stream chunks),
     concat (contents chunks)).
Proof.
  rewrite ui_stream_loop. f_equal. apply (stream_from_last [] chunks).
Qed.

Lemma ui_progress_only (partials : list str) :
  Ui.parser_calls (map (fun p => Ui.Yield (Ui.Progress p)) partials) = []
  /\ Ui.snapshots_shown (map (fun p => Ui.Yield (Ui.Progress p)) partials)
     = partials
  /\ Ui.warnings_shown (map (fun p => Ui.Yield (Ui.Progress p)) partials)
     = [].
Proof.
  induction partials as [|p rest (IH1 & IH2 & IH3)];
    [repeat split; reflexivity|].
  repeat split; simpl; [exact IH1 | now rewrite IH2 | exact IH3].
Qed.

(** What a trace that shows the snapshots and then calls the parser (and
    may yield a result) lets one observe *)
Lemma ui_trace_observed (partials : list str) (text : str)
  (tail : list Ui.event) :
  Ui.parser_calls tail = [] -> Ui.snapshots_shown tail = [] ->
  Ui.warnings_shown tail = [] ->
  let t := map (fun p => Ui.Yield (Ui.Progress p)) partials
           ++ Ui.CallParser text :: tail in
  Ui.parser_calls t = [text] /\ Ui.snapshots_shown t = partials
  /\ Ui.warnings_shown t = [].
Proof.
  intros Hc Hs Hw t. destruct (ui_progress_only partials) as (H1 & H2 & H3).
  unfold t, Ui.parser_calls, Ui.snapshots_shown, Ui.warnings_shown in *.
  rewrite !flat_map_app. cbn [flat_map].
  rewrite H1, H2, H3, Hc, Hs, Hw. cbn [app]. now rewrite app_nil_r.
Qed.

Section DictFacts.

Context {K V : Type}.
Variable eqb : K -> K -> bool.
Hypothesis eqb_eq : forall a b, eqb a b = true <-> a = b.

Lemma getitem_setitem_same (d : list (K * V)) (k : K) (v : V) :
  Ui.getitem eqb (Ui.setitem eqb d k v) k = Some v.
Proof.
  assert (Hrefl : eqb k k = true) by now apply eqb_eq.
  induction d as [|[k' v'] d IH]; cbn [Ui.setitem Ui.getitem].
  - now rewrite Hrefl.
  - destruct (eqb k' k) eqn:E; cbn [Ui.getitem]; rewrite E;
      [reflexivity | exact IH].
Qed.

Lemma getitem_setitem_other (d : list (K * V)) (k j : K) (v : V) :
  j <> k ->
  Ui.getitem eqb (Ui.setitem eqb d k v) j = Ui.getitem eqb d j.
Proof.
  intros Hj.
  assert (Hkj : eqb k j = false).
  { destruct (eqb k j) eqn:E; [|reflexivity].
    apply eqb_eq in E. congruence. }
  induction d as [|[k' v'] d IH]; cbn [Ui.setitem Ui.getitem].
  - now rewrite Hkj.
  - destruct (eqb k' k) eqn:E; cbn [Ui.getitem].
    + apply eqb_eq in E. subst k'. now rewrite Hkj.
    + destruct (eqb k' j); [reflexivity | exact IH].
Qed.

End DictFacts.

Lemma pair_eqb_eq (a b : Z * Z) : Ui.pair_eqb a b = true <-> a = b.
Proof.
  destruct a as [a1 a2], b as [b1 b2]. unfold Ui.pair_eqb. cbn [fst snd].
  rewrite andb_true_iff, !Z.eqb_eq. split.
  - intros [-> ->]. reflexivity.
  - intros H. injection H as -> ->. now split.
Qed.

Lemma item_in_range {A : Type} (l : list A) (i : Z) :
  (0 <= i < Z.of_nat (length l))%Z ->
  exists x, Ui.item l i = Return x /\ nth_error l (Z.to_nat i) = Some x.
Proof.
  intros Hi. unfold Ui.item.
  destruct (Z.ltb_spec i 0); [lia|].
  destruct (Z.ltb_spec i 0); [lia|].
  destruct (Z.leb_spec (Z.of_nat (length l)) i); [lia|]. cbn [orb].
  destruct (nth_error l (Z.to_nat i)) as [x|] eqn:E; [eauto|].
  apply nth_error_None in E. lia.
Qed.

Lemma item_raises {A : Type} (l : list A) (i : Z) (e : exn) :
  Ui.item l i = Raise e -> e = IndexError.
Proof.
  unfold Ui.item.
  destruct (_ || _); [now intros H; injection H|].
  destruct (nth_error _ _); [discriminate | now intros H; injection H].
Qed.

Lemma item_empty {A : Type} (i : Z) : Ui.item (@nil A) i = Raise IndexError.
Proof.
  unfold Ui.item. cbn [length Z.of_nat].
  destruct (Z.ltb_spec i 0).
  - replace (i + 0 <? 0)%Z with true by (symmetry; apply Z.ltb_lt; lia).
    reflexivity.
  - destruct (Z.ltb_spec i 0); [lia|].
    replace (0 <=? i)%Z with true by (symmetry; apply Z.leb_le; lia).
    reflexivity.
Qed.

Lemma leading_int_raises (choice : str) (e : exn) :
  Ui.leading_int unicode_decimal repr_of choice = Raise e ->
  is_lookup_error e = true.
Proof.
  unfold Ui.leading_int. destruct (Num.int _ _); [discriminate|].
  intros H. injection H as <-. reflexivity.
Qed.

Lemma subscript_raises (v : json) (key : str) (e : exn) :
  subscript v key = Raise e -> is_lookup_error e = true.
Proof.
  unfold subscript. destruct v; try (intros H; injection H as <-; reflexivity).
  destruct (dict_get members key); [discriminate|].
  intros H. injection H as <-. reflexivity.
Qed.

Lemma choice_text_raises (record : json) (e : exn) :
  Ui.choice_text repr_of record = Raise e -> is_lookup_error e = true.
Proof.
  unfold Ui.choice_text.
  destruct (subscript record (py "id")) as [i|e1] eqn:Ei; cbn [bind].
  - destruct (subscript record (py "name")) as [n|e2] eqn:En; cbn [bind];
      [discriminate|].
    intros H. injection H as <-. eapply subscript_raises; eauto.
  - intros H. injection H as <-. eapply subscript_raises; eauto.
Qed.

Lemma collect_raises {A B : Type} (f : A -> outcome B) (l : list A)
  (e : exn) :
  (forall x e', f x = Raise e' -> is_lookup_error e' = true) ->
  Ui.collect f l = Raise e -> is_lookup_error e = true.
Proof.
  intros Hf. induction l as [|x l IH]; [discriminate|].
  cbn [Ui.collect]. destruct (f x) as [y|e1] eqn:E; cbn [bind].
  - destruct (Ui.collect f l) as [ys|e2]; cbn [bind]; [discriminate|].
    intros H. injection H as <-. now apply IH.
  - intros H. injection H as <-. eapply Hf; eauto.
Qed.

Lemma get_test_point_choices_raises (gd : Ui.global_data)
  (choice : option str) (e : exn) :
  Ui.get_test_point_choices unicode_decimal repr_of gd choice = Raise e ->
  is_lookup_error e = true.
Proof.
  unfold Ui.get_test_point_choices.
  destruct choice as [[|c cs]|]; try discriminate.
  destruct (Ui.leading_int unicode_decimal repr_of (c :: cs)) as [k|e1]
    eqn:Ek; cbn [bind].
  - destruct (Ui.getitem Z.eqb (Ui.test_points gd) (k - 1)%Z);
      [|discriminate].
    apply collect_raises. apply choice_text_raises.
  - intros H. injection H as <-. eapply leading_int_raises; eauto.
Qed.

(** The prompt of the test-point stage reads [name] and [description]. *)
Lemma test_points_prompt (features : list json) (idx : Z) (feature : json) :
  (0 <= idx < Z.of_nat (length features))%Z ->
  nth_error features (Z.to_nat idx) = Some feature ->
  has_keys [py "name"; py "description"] feature = true ->
  (feature <- Ui.item features idx ;;
   subscript feature (py "name") ;;;
   subscript feature (py "description") ;;;
   Return feature) = Return feature.
Proof.
  intros Hi Hn Hk. destruct (item_in_range features idx Hi) as (x & -> & Hx).
  assert (x = feature) by congruence. subst x. cbn [bind].
  unfold has_keys in Hk. cbn [forallb] in Hk.
  apply andb_true_iff in Hk. destruct Hk as [H1 Hk].
  apply andb_true_iff in Hk. destruct Hk as [H2 _].
  apply has_key_subscript in H1, H2.
  destruct H1 as [a ->], H2 as [b ->]. reflexivity.
Qed.

(** The run of the test-point stage once its checks have passed *)
Lemma test_points_run (gd : Ui.global_data) (choice : str)
  (current : option str) (chunks : list (option str)) (k : Z)
  (feature : json) :
  choice <> [] ->
  Ui.leading_int unicode_decimal repr_of choice = Return k ->
  (1 <= k <= Z.of_nat (length (Ui.features gd)))%Z ->
  nth_error (Ui.features gd) (Z.to_nat (k - 1)) = Some feature ->
  has_keys [py "name"; py "description"] feature = true ->
  let final := concat (contents chunks) in
  let r := Chain.parse_test_points loads float_nonzero feature final in
  let gd' :=
    {| Ui.prd_text := Ui.prd_text gd;
       Ui.features := Ui.features gd;
       Ui.test_points :=
         Ui.setitem Z.eqb (Ui.test_points gd) (k - 1)%Z (Chain.records r);
       Ui.test_cases := Ui.test_cases gd |} in
  let parsed :=
    map (fun p => Ui.Yield (Ui.Progress p))
        (Model.generate_response_vllm_stream chunks)
    ++ [Ui.CallParser final] in
  Ui.generate_test_points_for_gradio_stream loads float_nonzero
    unicode_decimal repr_of gd (Some choice) current chunks
  = if Ui.same_choice current choice then
      match Ui.get_test_point_choices unicode_decimal repr_of gd'
              (Some choice) with
      | Return choices =>
          {| Ui.trace := parsed ++ [Ui.Yield (Ui.Result r (Some choices))];
             Ui.raised := None; Ui.after := gd' |}
      | Raise e =>
          {| Ui.trace := parsed; Ui.raised := Some e; Ui.after := gd' |}
      end
    else {| Ui.trace := parsed ++ [Ui.Yield (Ui.Result r None)];
            Ui.raised := None; Ui.after := gd' |}.
Proof.
  intros Hne Hk Hrange Hnth Hkeys final r gd' parsed.
  destruct choice as [|c cs]; [congruence|].
  unfold Ui.generate_test_points_for_gradio_stream. rewrite Hk.
  destruct (Z.ltb_spec (k - 1) 0); [lia|].
  destruct (Z.leb_spec (Z.of_nat (length (Ui.features gd))) (k - 1)); [lia|].
  cbn [orb]. cbv zeta.
  rewrite (test_points_prompt (Ui.features gd) (k - 1)%Z feature
             ltac:(lia) Hnth Hkeys).
  rewrite ui_streamed. cbn [fst snd]. reflexivity.
Qed.

End UiFacts.

(** X13.  The choice text built for a record whose [id] is the integer [k]
    is read back as [k]: a stage that is given this choice works on the
    position [k - 1] of the list, which is the record's own position only
    when the ids count the records from 1. *)
Theorem choice_selects_by_id (unicode_decimal : char -> option N)
  (repr_of : json -> str) (record : json) (k : Z) :
  subscript record (py "id") = Return (JInt k) ->
  has_key (py "name") record = true ->
  exists choice,
    Ui.choice_text repr_of record = Return choice /\
    Ui.leading_int unicode_decimal repr_of choice = Return k.
Proof.
  intros Hid Hname. apply has_key_subscript in Hname.
  destruct Hname as [name Hname].
  exists (str_of_int k ++ py ". " ++ text_of repr_of name). split.
  - unfold Ui.choice_text. rewrite Hid, Hname. reflexivity.
  - unfold Ui.leading_int. cbv zeta.
    now rewrite before_dot_choice, int_str_of_int.
Qed.

Lemma choice_selects_by_id_witness :
  exists choice,
    Ui.choice_text (fun _ => [])
      (JObject [(py "id", JInt 12); (py "name", JString (py "Login"))])
    = Return choice /\
    Ui.leading_int (fun _ => None) (fun _ => []) choice = Return 12%Z.
Proof.
  apply (choice_selects_by_id (fun _ => None) (fun _ => [])
           (JObject [(py "id", JInt 12); (py "name", JString (py "Login"))])
           12%Z); reflexivity.
Defined.

(** X14.  When the choice names a feature of the session that has a [name]
    and a [description], the test-point stage shows every snapshot in
    order, calls the parser once, on the final text, and stores the records
    of [parse_test_points] under the feature's index, whether or not the
    parse succeeded: a failed parse leaves an empty list there.  The
    entries of the other features, the features, the PRD text and the test
    cases are left as they were. *)
Theorem test_points_stage_stores (loads : str -> option json)
  (float_nonzero : str -> bool) (unicode_decimal : char -> option N)
  (repr_of : json -> str) (gd : Ui.global_data) (choice : str)
  (current : option str) (chunks : list (option str)) (k : Z)
  (feature : json) :
  choice <> [] ->
  Ui.leading_int unicode_decimal repr_of choice = Return k ->
  (1 <= k <= Z.of_nat (length (Ui.features gd)))%Z ->
  nth_error (Ui.features gd) (Z.to_nat (k - 1)) = Some feature ->
  has_keys [py "name"; py "description"] feature = true ->
  let run :=
    Ui.generate_test_points_for_gradio_stream loads float_nonzero
      unicode_decimal repr_of gd (Some choice) current chunks in
  let final := concat (contents chunks) in
  let r := Chain.parse_test_points loads float_nonzero feature final in
  Ui.parser_calls (Ui.trace run) = [final]
  /\ Ui.snapshots_shown (Ui.trace run)
     = Model.generate_response_vllm_stream chunks
  /\ Ui.getitem Z.eqb (Ui.test_points (Ui.after run)) (k - 1)%Z
     = Some (Chain.records r)
  /\ (Chain.succeeded r = false ->
      Ui.getitem Z.eqb (Ui.test_points (Ui.after run)) (k - 1)%Z = Some [])
  /\ (forall j, j <> (k - 1)%Z ->
        Ui.getitem Z.eqb (Ui.test_points (Ui.after run)) j
        = Ui.getitem Z.eqb (Ui.test_points gd) j)
  /\ Ui.prd_text (Ui.after run) = Ui.prd_text gd
  /\ Ui.features (Ui.after run) = Ui.features gd
  /\ Ui.test_cases (Ui.after run) = Ui.test_cases gd.
Proof.
  intros Hne Hk Hrange Hnth Hkeys run final r.
  pose proof (test_points_run loads float_nonzero unicode_decimal repr_of
                gd choice current chunks k feature Hne Hk Hrange Hnth Hkeys)
    as Hrun.
  cbv zeta in Hrun. fold final in Hrun. fold r in Hrun. fold run in Hrun.
  set (gd' := {| Ui.prd_text := Ui.prd_text gd;
                 Ui.features := Ui.features gd;
                 Ui.test_points :=
                   Ui.setitem Z.eqb (Ui.test_points gd) (k - 1)%Z
                     (Chain.records r);
                 Ui.test_cases := Ui.test_cases gd |}) in Hrun.
  assert (Hafter : Ui.after run = gd').
  { rewrite Hrun. destruct (Ui.same_choice current choice); [|reflexivity].
    now destruct (Ui.get_test_point_choices _ _ gd' (Some choice)). }
  assert (Hobs : Ui.parser_calls (Ui.trace run) = [final] /\
                 Ui.snapshots_shown (Ui.trace run)
                 = Model.generate_response_vllm_stream chunks).
  { assert (H : exists tail,
               Ui.trace run
               = map (fun p => Ui.Yield (Ui.Progress p))
                     (Model.generate_response_vllm_stream chunks)
                 ++ Ui.CallParser final :: tail /\
               Ui.parser_calls tail = [] /\ Ui.snapshots_shown tail = [] /\
               Ui.warnings_shown tail = []).
    { rewrite Hrun. destruct (Ui.same_choice current choice).
      - destruct (Ui.get_test_point_choices _ _ gd' (Some choice));
          cbn [Ui.trace]; rewrite <- ?app_assoc; eexists;
          (split; [reflexivity | repeat split; reflexivity]).
      - cbn [Ui.trace]. rewrite <- app_assoc. eexists.
        split; [reflexivity | repeat split; reflexivity]. }
    destruct H as (tail & -> & Hc & Hs & Hw).
    destruct (ui_trace_observed (Model.generate_response_vllm_stream chunks)
                final tail Hc Hs Hw) as (H1 & H2 & _).
    now split. }
  destruct Hobs as [Hcalls Hshown].
  assert (Hslot : Ui.getitem Z.eqb (Ui.test_points (Ui.after run)) (k - 1)%Z
                  = Some (Chain.records r)).
  { rewrite Hafter. cbn [Ui.test_points].
    apply getitem_setitem_same. apply Z.eqb_eq. }
  repeat split; try assumption; try (rewrite Hafter; reflexivity).
  - intros Hfail. rewrite Hslot. f_equal.
    unfold r, Chain.parse_test_points in *.
    now apply finish_stage_failed.
  - intros j Hj. rewrite Hafter. cbn [Ui.test_points].
    apply getitem_setitem_other; [apply Z.eqb_eq | exact Hj].
Qed.

Lemma test_points_stage_stores_witness :
  Ui.getitem Z.eqb
    (Ui.test_points
       (Ui.after
          (Ui.generate_test_points_for_gradio_stream Json.loads
             (fun _ => true) (fun _ => None) (fun _ => [])
             {| Ui.prd_text := py "doc";
                Ui.features :=
                  [JObject [(py "id", JInt 1);
                            (py "name", JString (py "Login"));
                            (py "description", JString (py "Sign in"))]];
                Ui.test_points := [(0%Z, [JObject [(py "id", JInt 1)]])];
                Ui.test_cases := [] |}
             (Some (py "1. Login")) None [Some (py "Sorry, no JSON")])))
    0%Z
  = Some [].
Proof.
  refine (proj1 (proj2 (proj2 (proj2
            (test_points_stage_stores Json.loads (fun _ => true)
               (fun _ => None) (fun _ => []) _ (py "1. Login") None
               [Some (py "Sorry, no JSON")] 1%Z _ _ _ _ _ _)))) _).
  - discriminate.
  - reflexivity.
  - cbn. lia.
  - reflexivity.
  - reflexivity.
  - reflexivity.
Defined.

(** X15.  The test-point stage never indexes the features out of range: an
    exception that ends it is a [ValueError] (a choice that does not start
    with a number), a [KeyError] or a [TypeError] (a feature or a stored
    test point without a field the stage reads), never an [IndexError].  A
    run that shows a warning raises nothing, and a run that does not reach
    the parser leaves the session data as they were. *)
Theorem test_points_stage_errors (loads : str -> option json)
  (float_nonzero : str -> bool) (unicode_decimal : char -> option N)
  (repr_of : json -> str) (gd : Ui.global_data)
  (feature_choice current : option str) (chunks : list (option str)) :
  let run :=
    Ui.generate_test_points_for_gradio_stream loads float_nonzero
      unicode_decimal repr_of gd feature_choice current chunks in
  (forall e, Ui.raised run = Some e -> is_lookup_error e = true)
  /\ (Ui.warnings_shown (Ui.trace run) <> [] -> Ui.raised run = None)
  /\ (Ui.parser_calls (Ui.trace run) = [] -> Ui.after run = gd).
Proof.
  intros run. unfold run, Ui.generate_test_points_for_gradio_stream.
  destruct feature_choice as [[|c cs]|];
    try (repeat split; [discriminate]).
  destruct (Ui.leading_int unicode_decimal repr_of (c :: cs)) as [k|e0]
    eqn:Ek.
  2: { repeat split; try (intros H; exfalso; now apply H).
       intros e H. injection H as <-. eapply leading_int_raises; eauto. }
  destruct ((k - 1 <? 0)%Z
            || (Z.of_nat (length (Ui.features gd)) <=? k - 1)%Z) eqn:Eg;
    [repeat split; discriminate|].
  apply orb_false_iff in Eg. destruct Eg as [Eg1 Eg2].
  apply Z.ltb_ge in Eg1. apply Z.leb_gt in Eg2.
  destruct (item_in_range (Ui.features gd) (k - 1)%Z ltac:(lia))
    as (feature & Hitem & _).
  cbv zeta. rewrite Hitem. cbn [bind].
  destruct (subscript feature (py "name")) as [n|e1] eqn:En; cbn [bind].
  2: { repeat split; try (intros H; exfalso; now apply H).
       intros e H. injection H as <-. eapply subscript_raises; eauto. }
  destruct (subscript feature (py "description")) as [d|e2] eqn:Ed;
    cbn [bind].
  2: { repeat split; try (intros H; exfalso; now apply H).
       intros e H. injection H as <-. eapply subscript_raises; eauto. }
  rewrite ui_streamed. cbn [fst snd].
  set (final := concat (contents chunks)).
  set (partials := Model.generate_response_vllm_stream chunks).
  assert (Hobs : forall tail,
            Ui.parser_calls tail = [] -> Ui.snapshots_shown tail = [] ->
            Ui.warnings_shown tail = [] ->
            Ui.parser_calls
              ((map (fun p => Ui.Yield (Ui.Progress p)) partials
                ++ [Ui.CallParser final]) ++ tail) = [final] /\
            Ui.warnings_shown
              ((map (fun p => Ui.Yield (Ui.Progress p)) partials
                ++ [Ui.CallParser final]) ++ tail) = []).
  { intros tail Hc Hs Hw. rewrite <- app_assoc.
    destruct (ui_trace_observed partials final tail Hc Hs Hw)
      as (H1 & _ & H3).
    now split. }
  destruct (Ui.same_choice current (c :: cs)).
  - destruct (Ui.get_test_point_choices _ _ _ (Some (c :: cs))) as [cs'|e3]
      eqn:Ec; cbn [Ui.trace Ui.raised Ui.after].
    + destruct (Hobs [Ui.Yield (Ui.Result
                         (Chain.parse_test_points loads float_nonzero
                            feature final) (Some cs'))]
                  eq_refl eq_refl eq_refl) as [H1 H3].
      rewrite H1, H3. repeat split; discriminate.
    + destruct (Hobs [] eq_refl eq_refl eq_refl) as [H1 H3].
      rewrite app_nil_r in H1, H3. rewrite H1, H3.
      split; [|split; [intros H; exfalso; now apply H | discriminate]].
      intros e H. injection H as <-.
      eapply get_test_point_choices_raises; eauto.
  - cbn [Ui.trace Ui.raised Ui.after].
    destruct (Hobs [Ui.Yield (Ui.Result
                       (Chain.parse_test_points loads float_nonzero
                          feature final) None)]
                eq_refl eq_refl eq_refl) as [H1 H3].
    rewrite H1, H3. repeat split; discriminate.
Qed.

(** ** The test-case stage, and stages in sequence *)

Section TestCaseStageFacts.

Variable loads : str -> option json.
Variable float_nonzero : str -> bool.
Variable unicode_decimal : char -> option N.
Variable repr_of : json -> str.

(** The checks of the test-case stage, up to the stored test points *)
Lemma test_cases_checked (gd : Ui.global_data) (fc tc : str)
  (chunks : list (option str)) (fk tk : Z) (stored : list json) :
  fc <> [] -> tc <> [] ->
  Ui.leading_int unicode_decimal repr_of fc = Return fk ->
  Ui.leading_int unicode_decimal repr_of tc = Return tk ->
  Ui.getitem Z.eqb (Ui.test_points gd) (fk - 1)%Z = Some stored ->
  Ui.generate_test_cases_for_gradio_stream loads float_nonzero
    unicode_decimal repr_of gd (Some fc) (Some tc) chunks
  = if ((tk - 1 <? 0) || (Z.of_nat (length stored) <=? tk - 1))%Z
    then Ui.warned Ui.InvalidTestPointIndex gd
    else
      match (feature <- Ui.item (Ui.features gd) (fk - 1)%Z ;;
             test_point <- Ui.item stored (tk - 1)%Z ;;
             subscript feature (py "name") ;;;
             subscript test_point (py "name") ;;;
             subscript test_point (py "description") ;;;
             subscript test_point (py "type") ;;;
             subscript test_point (py "priority") ;;;
             subscript test_point (py "precondition") ;;;
             subscript test_point (py "expected_result") ;;;
             Return (feature, test_point)) with
      | Raise e => Ui.crashed e gd
      | Return (feature, test_point) =>
          let final := concat (contents chunks) in
          let r := Chain.parse_test_cases loads float_nonzero final
                     feature test_point in
          {| Ui.trace :=
               map (fun p => Ui.Yield (Ui.Progress p))
                   (Model.generate_response_vllm_stream chunks)
               ++ [Ui.CallParser final; Ui.Yield (Ui.Result r None)];
             Ui.raised := None;
             Ui.after :=
               {| Ui.prd_text := Ui.prd_text gd;
                  Ui.features := Ui.features gd;
                  Ui.test_points := Ui.test_points gd;
                  Ui.test_cases :=
                    Ui.setitem Ui.pair_eqb (Ui.test_cases gd)
                      ((fk - 1)%Z, (tk - 1)%Z) (Chain.records r) |} |}
      end.
Proof.
  intros Hfc Htc Hfk Htk Hstored.
  destruct fc as [|c1 fc]; [congruence|].
  destruct tc as [|c2 tc]; [congruence|].
  unfold Ui.generate_test_cases_for_gradio_stream.
  rewrite Hfk, Htk. cbn [bind]. cbv zeta. rewrite Hstored.
  destruct ((tk - 1 <? 0) || (Z.of_nat (length stored) <=? tk - 1))%Z;
    [reflexivity|].
  rewrite ui_streamed. cbn [fst snd]. reflexivity.
Qed.

Lemma test_cases_prompt (features stored : list json) (fi ti : Z)
  (feature test_point : json) :
  Ui.item features fi = Return feature ->
  Ui.item stored ti = Return test_point ->
  has_key (py "name") feature = true ->
  has_keys [py "name"; py "description"; py "type"; py "priority";
            py "precondition"; py "expected_result"] test_point = true ->
  (feature <- Ui.item features fi ;;
   test_point <- Ui.item stored ti ;;
   subscript feature (py "name") ;;;
   subscript test_point (py "name") ;;;
   subscript test_point (py "description") ;;;
   subscript test_point (py "type") ;;;
   subscript test_point (py "priority") ;;;
   subscript test_point (py "precondition") ;;;
   subscript test_point (py "expected_result") ;;;
   Return (feature, test_point)) = Return (feature, test_point).
Proof.
  intros -> -> Hf Ht. cbn [bind].
  apply has_key_subscript in Hf. destruct Hf as [a ->]. cbn [bind].
  unfold has_keys in Ht. cbn [forallb] in Ht.
  repeat (apply andb_true_iff in Ht; destruct Ht as [?H Ht]).
  repeat match goal with
         | H : has_key _ test_point = true |- _ =>
             apply has_key_subscript in H; destruct H as [? ->]
         end.
  reflexivity.
Qed.

Lemma features_after (gd : Ui.global_data) (prd_text : str)
  (chunks : list (option str)) :
  strip prd_text <> [] ->
  Ui.after (Ui.generate_features_for_gradio_stream loads repr_of gd
              prd_text chunks)
  = {| Ui.prd_text := prd_text;
       Ui.features :=
         Chain.records
           (Chain.parse_features loads (concat (contents chunks)));
       Ui.test_points := Ui.test_points gd;
       Ui.test_cases := Ui.test_cases gd |}.
Proof.
  intros Hprd. unfold Ui.generate_features_for_gradio_stream.
  destruct (strip prd_text); [congruence|].
  rewrite ui_streamed. reflexivity.
Qed.

End TestCaseStageFacts.

(** X16.  The features stage replaces the features of the session and
    keeps the test points stored for the earlier ones.  After a features
    stage that failed the list of features is empty, and the test-case
    stage, asked for a test point that is still stored, passes its two
    checks and then ends with an [IndexError] on the features, before any
    output and before the parser is called. *)
Theorem failed_features_break_test_cases (loads : str -> option json)
  (float_nonzero : str -> bool) (unicode_decimal : char -> option N)
  (repr_of : json -> str) (gd : Ui.global_data) (prd_text : str)
  (chunks chunks' : list (option str)) (fc tc : str) (fk tk : Z)
  (stored : list json) :
  strip prd_text <> [] ->
  Chain.succeeded (Chain.parse_features loads (concat (contents chunks)))
  = false ->
  fc <> [] -> tc <> [] ->
  Ui.leading_int unicode_decimal repr_of fc = Return fk ->
  Ui.leading_int unicode_decimal repr_of tc = Return tk ->
  Ui.getitem Z.eqb (Ui.test_points gd) (fk - 1)%Z = Some stored ->
  (1 <= tk <= Z.of_nat (length stored))%Z ->
  let gd' :=
    Ui.after (Ui.generate_features_for_gradio_stream loads repr_of gd
                prd_text chunks) in
  Ui.features gd' = [] /\ Ui.test_points gd' = Ui.test_points gd
  /\ Ui.generate_test_cases_for_gradio_stream loads float_nonzero
       unicode_decimal repr_of gd' (Some fc) (Some tc) chunks'
     = {| Ui.trace := []; Ui.raised := Some IndexError; Ui.after := gd' |}.
Proof.
  intros Hprd Hfail Hfc Htc Hfk Htk Hstored Hrange gd'.
  assert (Hgd : gd' = {| Ui.prd_text := prd_text;
                         Ui.features := [];
                         Ui.test_points := Ui.test_points gd;
                         Ui.test_cases := Ui.test_cases gd |}).
  { unfold gd'. rewrite (features_after loads repr_of gd prd_text chunks Hprd).
    f_equal. unfold Chain.parse_features in *.
    now apply finish_stage_failed. }
  split; [now rewrite Hgd|]. split; [now rewrite Hgd|].
  rewrite (test_cases_checked loads float_nonzero unicode_decimal repr_of
             gd' fc tc chunks' fk tk stored Hfc Htc Hfk Htk)
    by (rewrite Hgd; exact Hstored).
  destruct (Z.ltb_spec (tk - 1) 0); [lia|].
  destruct (Z.leb_spec (Z.of_nat (length stored)) (tk - 1)); [lia|].
  cbn [orb]. rewrite Hgd at 1. cbn [Ui.features].
  rewrite item_empty. reflexivity.
Qed.

Lemma failed_features_break_test_cases_witness :
  Ui.raised
    (Ui.generate_test_cases_for_gradio_stream Json.loads (fun _ => true)
       (fun _ => None) (fun _ => [])
       (Ui.after
          (Ui.generate_features_for_gradio_stream Json.loads (fun _ => [])
             {| Ui.prd_text := py "doc";
                Ui.features := [JObject [(py "id", JInt 1)]];
                Ui.test_points := [(0%Z, [JObject [(py "id", JInt 1)]])];
                Ui.test_cases := [] |}
             (py "doc") [Some (py "Sorry, no JSON")]))
       (Some (py "1. Login")) (Some (py "1. Valid login")) [])
  = Some IndexError.
Proof.
  pose proof (failed_features_break_test_cases Json.loads (fun _ => true)
                (fun _ => None) (fun _ => [])
                {| Ui.prd_text := py "doc";
                   Ui.features := [JObject [(py "id", JInt 1)]];
                   Ui.test_points := [(0%Z, [JObject [(py "id", JInt 1)]])];
                   Ui.test_cases := [] |}
                (py "doc") [Some (py "Sorry, no JSON")] []
                (py "1. Login") (py "1. Valid login") 1%Z 1%Z
                [JObject [(py "id", JInt 1)]]) as H.
  cbv zeta in H.
  destruct H as (_ & _ & H).
  - vm_compute. discriminate.
  - reflexivity.
  - discriminate.
  - discriminate.
  - reflexivity.
  - reflexivity.
  - reflexivity.
  - cbn. lia.
  - now rewrite H.
Defined.

(** X17.  After a test-point stage whose parse failed, the feature has an
    empty list of test points: it offers no test-point choice any more, and
    the test-case stage answers every test-point choice for it with the
    warning of an invalid index, whatever was stored for the feature
    before. *)
Theorem failed_test_points_clear_choices (loads : str -> option json)
  (float_nonzero : str -> bool) (unicode_decimal : char -> option N)
  (repr_of : json -> str) (gd : Ui.global_data) (choice : str)
  (current : option str) (chunks : list (option str)) (k : Z)
  (feature : json) :
  choice <> [] ->
  Ui.leading_int unicode_decimal repr_of choice = Return k ->
  (1 <= k <= Z.of_nat (length (Ui.features gd)))%Z ->
  nth_error (Ui.features gd) (Z.to_nat (k - 1)) = Some feature ->
  has_keys [py "name"; py "description"] feature = true ->
  Chain.succeeded
    (Chain.parse_test_points loads float_nonzero feature
       (concat (contents chunks))) = false ->
  let gd' :=
    Ui.after (Ui.generate_test_points_for_gradio_stream loads float_nonzero
                unicode_decimal repr_of gd (Some choice) current chunks) in
  Ui.get_test_point_choices unicode_decimal repr_of gd' (Some choice)
  = Return []
  /\ forall tc tk chunks',
       tc <> [] ->
       Ui.leading_int unicode_decimal repr_of tc = Return tk ->
       Ui.generate_test_cases_for_gradio_stream loads float_nonzero
         unicode_decimal repr_of gd' (Some choice) (Some tc) chunks'
       = Ui.warned Ui.InvalidTestPointIndex gd'.
Proof.
  intros Hne Hk Hrange Hnth Hkeys Hfail gd'.
  assert (Hslot : Ui.getitem Z.eqb (Ui.test_points gd') (k - 1)%Z = Some []).
  { unfold gd'.
    rewrite (test_points_run loads float_nonzero unicode_decimal repr_of
               gd choice current chunks k feature Hne Hk Hrange Hnth Hkeys).
    cbv zeta.
    assert (Hrec : Chain.records
                     (Chain.parse_test_points loads float_nonzero feature
                        (concat (contents chunks))) = []).
    { unfold Chain.parse_test_points in *. now apply finish_stage_failed. }
    rewrite Hrec.
    destruct (Ui.same_choice current choice);
      [destruct (Ui.get_test_point_choices _ _ _ (Some choice))|];
      cbn [Ui.after Ui.test_points];
      apply getitem_setitem_same; apply Z.eqb_eq. }
  split.
  - unfold Ui.get_test_point_choices.
    destruct choice as [|c cs]; [congruence|].
    rewrite Hk. cbn [bind]. cbv zeta. now rewrite Hslot.
  - intros tc tk chunks' Htc Htk.
    rewrite (test_cases_checked loads float_nonzero unicode_decimal repr_of
               gd' choice tc chunks' k tk [] Hne Htc Hk Htk Hslot).
    cbn [length Z.of_nat].
    destruct (Z.ltb_spec (tk - 1) 0); [reflexivity|].
    destruct (Z.leb_spec 0 (tk - 1)); [reflexivity | lia].
Qed.

Lemma failed_test_points_clear_choices_witness :
  Ui.get_test_point_choices (fun _ => None) (fun _ => [])
    (Ui.after
       (Ui.generate_test_points_for_gradio_stream Json.loads
          (fun _ => true) (fun _ => None) (fun _ => [])
          {| Ui.prd_text := py "doc";
             Ui.features :=
               [JObject [(py "id", JInt 1);
                         (py "name", JString (py "Login"));
                         (py "description", JString (py "Sign in"))]];
             Ui.test_points :=
               [(0%Z, [JObject [(py "id", JInt 1);
                                (py "name", JString (py "Valid login"))]])];
             Ui.test_cases := [] |}
          (Some (py "1. Login")) None [Some (py "Sorry, no JSON")]))
    (Some (py "1. Login"))
  = Return [].
Proof.
  refine (proj1 (failed_test_points_clear_choices Json.loads (fun _ => true)
                   (fun _ => None) (fun _ => []) _ (py "1. Login") None
                   [Some (py "Sorry, no JSON")] 1%Z _ _ _ _ _ _ _)).
  - discriminate.
  - reflexivity.
  - cbn. lia.
  - reflexivity.
  - reflexivity.
  - reflexivity.
Defined.

(** X18.  When the two choices name a stored test point and a feature of
    the session, and these have the fields the prompt reads, the test-case
    stage raises nothing: it shows every snapshot in order, calls the
    parser once, on the final text, yields the result of
    [parse_test_cases], and stores its records under the pair of indexes,
    an empty list when the parse failed.  The entries of the other pairs
    and the rest of the session data are left as they were. *)
Theorem test_cases_stage_stores (loads : str -> option json)
  (float_nonzero : str -> bool) (unicode_decimal : char -> option N)
  (repr_of : json -> str) (gd : Ui.global_data) (fc tc : str)
  (chunks : list (option str)) (fk tk : Z) (stored : list json)
  (feature test_point : json) :
  fc <> [] -> tc <> [] ->
  Ui.leading_int unicode_decimal repr_of fc = Return fk ->
  Ui.leading_int unicode_decimal repr_of tc = Return tk ->
  Ui.getitem Z.eqb (Ui.test_points gd) (fk - 1)%Z = Some stored ->
  (1 <= tk <= Z.of_nat (length stored))%Z ->
  nth_error stored (Z.to_nat (tk - 1)) = Some test_point ->
  Ui.item (Ui.features gd) (fk - 1)%Z = Return feature ->
  has_key (py "name") feature = true ->
  has_keys [py "name"; py "description"; py "type"; py "priority";
            py "precondition"; py "expected_result"] test_point = true ->
  let run :=
    Ui.generate_test_cases_for_gradio_stream loads float_nonzero
      unicode_decimal repr_of gd (Some fc) (Some tc) chunks in
  let final := concat (contents chunks) in
  let r := Chain.parse_test_cases loads float_nonzero final feature
             test_point in
  Ui.raised run = None
  /\ Ui.trace run
     = map (fun p => Ui.Yield (Ui.Progress p))
           (Model.generate_response_vllm_stream chunks)
       ++ [Ui.CallParser final; Ui.Yield (Ui.Result r None)]
  /\ Ui.parser_calls (Ui.trace run) = [final]
  /\ Ui.getitem Ui.pair_eqb (Ui.test_cases (Ui.after run))
       ((fk - 1)%Z, (tk - 1)%Z) = Some (Chain.records r)
  /\ (forall pair, pair <> ((fk - 1)%Z, (tk - 1)%Z) ->
        Ui.getitem Ui.pair_eqb (Ui.test_cases (Ui.after run)) pair
        = Ui.getitem Ui.pair_eqb (Ui.test_cases gd) pair)
  /\ Ui.prd_text (Ui.after run) = Ui.prd_text gd
  /\ Ui.features (Ui.after run) = Ui.features gd
  /\ Ui.test_points (Ui.after run) = Ui.test_points gd.
Proof.
  intros Hfc Htc Hfk Htk Hstored Hrange Hnth Hfeature Hname Hkeys run final r.
  assert (Hrun : run
            = {| Ui.trace :=
                   map (fun p => Ui.Yield (Ui.Progress p))
                       (Model.generate_response_vllm_stream chunks)
                   ++ [Ui.CallParser final; Ui.Yield (Ui.Result r None)];
                 Ui.raised := None;
                 Ui.after :=
                   {| Ui.prd_text := Ui.prd_text gd;
                      Ui.features := Ui.features gd;
                      Ui.test_points := Ui.test_points gd;
                      Ui.test_cases :=
                        Ui.setitem Ui.pair_eqb (Ui.test_cases gd)
                          ((fk - 1)%Z, (tk - 1)%Z) (Chain.records r) |} |}).
  { unfold run.
    rewrite (test_cases_checked loads float_nonzero unicode_decimal repr_of
               gd fc tc chunks fk tk stored Hfc Htc Hfk Htk Hstored).
    destruct (Z.ltb_spec (tk - 1) 0); [lia|].
    destruct (Z.leb_spec (Z.of_nat (length stored)) (tk - 1)); [lia|].
    cbn [orb].
    destruct (item_in_range stored (tk - 1)%Z ltac:(lia))
      as (x & Hitem & Hx).
    assert (x = test_point) by congruence. subst x.
    now rewrite (test_cases_prompt (Ui.features gd) stored (fk - 1)%Z
                   (tk - 1)%Z feature test_point Hfeature Hitem Hname Hkeys). }
  rewrite Hrun. cbn [Ui.trace Ui.raised Ui.after Ui.test_cases Ui.prd_text
                     Ui.features Ui.test_points].
  split; [reflexivity|]. split; [reflexivity|]. split.
  { destruct (ui_trace_observed (Model.generate_response_vllm_stream chunks)
                final [Ui.Yield (Ui.Result r None)] eq_refl eq_refl eq_refl)
      as (H1 & _). exact H1. }
  split; [apply getitem_setitem_same; apply pair_eqb_eq|].
  split; [|repeat split].
  intros pair Hpair. apply getitem_setitem_other;
    [apply pair_eqb_eq | exact Hpair].
Qed.

Lemma test_cases_stage_stores_witness :
  Ui.parser_calls
    (Ui.trace
       (Ui.generate_test_cases_for_gradio_stream Json.loads (fun _ => true)
          (fun _ => None) (fun _ => [])
          {| Ui.prd_text := py "doc";
             Ui.features :=
               [JObject [(py "id", JInt 1);
                         (py "name", JString (py "Login"))]];
             Ui.test_points :=
               [(0%Z, [JObject [(py "id", JInt 1);
                                (py "name", JString (py "Valid login"));
                                (py "description", JString (py "d"));
                                (py "type", JString (py "Functional"));
                                (py "priority", JString (py "High"));
                                (py "precondition", JString (py "p"));
                                (py "expected_result", JString (py "e"))]])];
             Ui.test_cases := [] |}
          (Some (py "1. Login")) (Some (py "1. Valid login"))
          [Some (js "{'test_cases': "); Some (js "[{'case_id': 'TC1'}]}")]))
  = [js "{'test_cases': [{'case_id': 'TC1'}]}"].
Proof.
  refine (proj1 (proj2 (proj2
            (test_cases_stage_stores Json.loads (fun _ => true)
               (fun _ => None) (fun _ => []) _ (py "1. Login")
               (py "1. Valid login") _ 1%Z 1%Z _ _ _ _ _ _ _ _ _ _ _ _ _)))).
  - discriminate.
  - discriminate.
  - reflexivity.
  - reflexivity.
  - reflexivity.
  - cbn. lia.
  - reflexivity.
  - reflexivity.
  - reflexivity.
  - reflexivity.
Defined.

(** ** Streaming and plain stages *)

Section PlainFacts.

Variable loads : str -> option json.
Variable float_nonzero : str -> bool.
Variable unicode_decimal : char -> option N.
Variable repr_of : json -> str.

Lemma ends_like_value (s : Ui.shown) (gd : Ui.global_data)
  (before : list Ui.event) :
  ends_like {| Ui.returns := Return s; Ui.leaves := gd |}
            {| Ui.trace := before ++ [Ui.Yield s]; Ui.raised := None;
               Ui.after := gd |}.
Proof. split; [reflexivity|]. split; [reflexivity|]. now exists before. Qed.

Lemma ends_like_error (e : exn) (gd : Ui.global_data)
  (t : list Ui.event) :
  ends_like {| Ui.returns := Raise e; Ui.leaves := gd |}
            {| Ui.trace := t; Ui.raised := Some e; Ui.after := gd |}.
Proof. split; reflexivity. Qed.

Lemma features_ends_like (gd : Ui.global_data) (prd_text : str)
  (chunks : list (option str)) :
  strip prd_text <> [] ->
  ends_like
    (Ui.generate_features_for_gradio loads repr_of gd prd_text
       (concat (contents chunks)))
    (Ui.generate_features_for_gradio_stream loads repr_of gd prd_text chunks).
Proof.
  intros Hprd.
  unfold Ui.generate_features_for_gradio_stream,
    Ui.generate_features_for_gradio.
  destruct (strip prd_text); [congruence|].
  rewrite ui_streamed. cbn [fst snd]. cbv zeta.
  change [Ui.CallParser (concat (contents chunks));
          Ui.Yield ?s]
    with ([Ui.CallParser (concat (contents chunks))] ++ [Ui.Yield s]).
  rewrite app_assoc. apply ends_like_value.
Qed.

Lemma test_points_ends_like (gd : Ui.global_data) (choice : str)
  (current : option str) (chunks : list (option str)) :
  choice <> [] ->
  (forall k, Ui.leading_int unicode_decimal repr_of choice = Return k ->
             (0 <= k - 1 < Z.of_nat (length (Ui.features gd)))%Z) ->
  ends_like
    (Ui.generate_test_points_for_gradio loads float_nonzero unicode_decimal
       repr_of gd (Some choice) current (concat (contents chunks)))
    (Ui.generate_test_points_for_gradio_stream loads float_nonzero
       unicode_decimal repr_of gd (Some choice) current chunks).
Proof.
  intros Hne Hrange. destruct choice as [|c cs]; [congruence|].
  unfold Ui.generate_test_points_for_gradio_stream,
    Ui.generate_test_points_for_gradio, Ui.generate_test_points.
  destruct (Ui.leading_int unicode_decimal repr_of (c :: cs)) as [k|e];
    [|apply ends_like_error].
  specialize (Hrange k eq_refl).
  destruct ((k - 1 <? 0)%Z
            || (Z.of_nat (length (Ui.features gd)) <=? k - 1)%Z) eqn:Eout.
  { apply orb_true_iff in Eout. destruct Eout as [E|E];
      [apply Z.ltb_lt in E | apply Z.leb_le in E]; lia. }
  cbv zeta.
  destruct (Ui.item (Ui.features gd) (k - 1)%Z) as [feature|e]; cbn [bind];
    [|apply ends_like_error].
  destruct (subscript feature (py "name")) as [n|e]; cbn [bind];
    [|apply ends_like_error].
  destruct (subscript feature (py "description")) as [d|e]; cbn [bind];
    [|apply ends_like_error].
  rewrite ui_streamed. cbn [fst snd].
  destruct (Ui.same_choice current (c :: cs)).
  - destruct (Ui.get_test_point_choices _ _ _ (Some (c :: cs)));
      [apply ends_like_value | apply ends_like_error].
  - apply ends_like_value.
Qed.

Lemma test_cases_ends_like (gd : Ui.global_data)
  (feature_choice tp_choice : option str) (chunks : list (option str)) :
  ends_like
    (Ui.generate_test_cases_for_gradio loads float_nonzero unicode_decimal
       repr_of gd feature_choice tp_choice (concat (contents chunks)))
    (Ui.generate_test_cases_for_gradio_stream loads float_nonzero
       unicode_decimal repr_of gd feature_choice tp_choice chunks).
Proof.
  unfold Ui.generate_test_cases_for_gradio_stream,
    Ui.generate_test_cases_for_gradio, Ui.generate_test_cases.
  destruct feature_choice as [[|c1 fc]|];
    try apply (ends_like_value _ gd []).
  destruct tp_choice as [[|c2 tc]|];
    try apply (ends_like_value _ gd []).
  destruct (Ui.leading_int unicode_decimal repr_of (c1 :: fc)) as [fk|e];
    cbn [bind]; [|apply ends_like_error].
  destruct (Ui.leading_int unicode_decimal repr_of (c2 :: tc)) as [tk|e];
    cbn [bind]; [|apply ends_like_error].
  cbv zeta.
  destruct (Ui.getitem Z.eqb (Ui.test_points gd) (fk - 1)%Z) as [stored|];
    [|apply (ends_like_value _ gd [])].
  destruct ((tk - 1 <? 0)%Z || (Z.of_nat (length stored) <=? tk - 1)%Z);
    [apply (ends_like_value _ gd [])|].
  destruct (Ui.item (Ui.features gd) (fk - 1)%Z) as [feature|e]; cbn [bind];
    [|apply ends_like_error].
  destruct (Ui.item stored (tk - 1)%Z) as [test_point|e]; cbn [bind];
    [|apply ends_like_error].
  destruct (subscript feature (py "name")) as [n|e]; cbn [bind];
    [|apply ends_like_error].
  repeat match goal with
         | |- context [subscript test_point ?key] =>
             destruct (subscript test_point key) as [?|?]; cbn [bind];
             [|apply ends_like_error]
         end.
  rewrite ui_streamed. cbn [fst snd].
  change [Ui.CallParser (concat (contents chunks)); Ui.Yield ?s]
    with ([Ui.CallParser (concat (contents chunks))] ++ [Ui.Yield s]).
  rewrite app_assoc. apply ends_like_value.
Qed.

(** For a feature number out of range the two test-point stages differ in
    what they give: the plain stage a pair, the streaming stage a triple. *)
Lemma test_points_out_of_range (gd : Ui.global_data) (choice : str)
  (current : option str) (chunks : list (option str)) (k : Z) :
  choice <> [] ->
  Ui.leading_int unicode_decimal repr_of choice = Return k ->
  (k - 1 < 0 \/ Z.of_nat (length (Ui.features gd)) <= k - 1)%Z ->
  Ui.generate_test_points_for_gradio loads float_nonzero unicode_decimal
    repr_of gd (Some choice) current (concat (contents chunks))
  = {| Ui.returns := Return (Ui.WarnPair Ui.InvalidFeatureIndex);
       Ui.leaves := gd |}
  /\ Ui.generate_test_points_for_gradio_stream loads float_nonzero
       unicode_decimal repr_of gd (Some choice) current chunks
     = Ui.warned Ui.InvalidFeatureIndex gd.
Proof.
  intros Hne Hk Hout. destruct choice as [|c cs]; [congruence|].
  unfold Ui.generate_test_points_for_gradio_stream,
    Ui.generate_test_points_for_gradio.
  rewrite Hk. cbv zeta.
  assert (E : (k - 1 <? 0)%Z
              || (Z.of_nat (length (Ui.features gd)) <=? k - 1)%Z = true).
  { apply orb_true_iff. destruct Hout as [H|H];
      [left; now apply Z.ltb_lt | right; now apply Z.leb_le]. }
  rewrite E. split; reflexivity.
Qed.

End PlainFacts.

(** X19.  Each streaming stage ends like the stage without streaming that
    is given the complete reply: it leaves the same session data, and its
    last output is what the plain stage returns, or it ends with the
    exception the plain stage raises.  This holds for the features stage
    when the PRD text is not blank, for the test-point stage when a feature
    is chosen whose number, if the choice has one, is in the range of the
    features, and for the test-case stage always.  For a feature number out
    of range the test-point stages both leave the session data as they are,
    but the plain stage returns the warning as a pair where the streaming
    stage yields it as a triple. *)
Theorem streaming_ends_like_plain (loads : str -> option json)
  (float_nonzero : str -> bool) (unicode_decimal : char -> option N)
  (repr_of : json -> str) (gd : Ui.global_data) (prd_text choice : str)
  (current feature_choice tp_choice : option str)
  (chunks : list (option str)) :
  let response := concat (contents chunks) in
  let plain_test_points :=
    Ui.generate_test_points_for_gradio loads float_nonzero unicode_decimal
      repr_of gd (Some choice) current response in
  let stream_test_points :=
    Ui.generate_test_points_for_gradio_stream loads float_nonzero
      unicode_decimal repr_of gd (Some choice) current chunks in
  (strip prd_text <> [] ->
   ends_like
     (Ui.generate_features_for_gradio loads repr_of gd prd_text response)
     (Ui.generate_features_for_gradio_stream loads repr_of gd prd_text
        chunks))
  /\ (choice <> [] ->
      (forall k, Ui.leading_int unicode_decimal repr_of choice = Return k ->
                 (0 <= k - 1 < Z.of_nat (length (Ui.features gd)))%Z) ->
      ends_like plain_test_points stream_test_points)
  /\ (choice <> [] ->
      forall k, Ui.leading_int unicode_decimal repr_of choice = Return k ->
                (k - 1 < 0 \/ Z.of_nat (length (Ui.features gd)) <= k - 1)%Z ->
                plain_test_points
                = {| Ui.returns := Return (Ui.WarnPair Ui.InvalidFeatureIndex);
                     Ui.leaves := gd |}
                /\ stream_test_points
                   = {| Ui.trace := [Ui.Yield (Ui.Warn Ui.InvalidFeatureIndex)];
                        Ui.raised := None;
                        Ui.after := gd |})
  /\ ends_like
       (Ui.generate_test_cases_for_gradio loads float_nonzero
          unicode_decimal repr_of gd feature_choice tp_choice response)
       (Ui.generate_test_cases_for_gradio_stream loads float_nonzero
          unicode_decimal repr_of gd feature_choice tp_choice chunks).
Proof.
  cbv zeta. split; [|split; [|split]].
  - apply features_ends_like.
  - apply test_points_ends_like.
  - intros Hne k Hk Hout.
    apply (test_points_out_of_range loads float_nonzero unicode_decimal
             repr_of gd choice current chunks k Hne Hk Hout).
  - apply test_cases_ends_like.
Qed.

(** ** The keys of an exported file *)

Section ExportFacts.

Variable unicode_decimal : char -> option N.
Variable repr_of : json -> str.

Lemma str_eqb_true (a b : str) : str_eqb a b = true -> a = b.
Proof.
  revert b. induction a as [|x a IH]; intros [|y b] H;
    try discriminate; [reflexivity|].
  cbn [str_eqb] in H. apply andb_true_iff in H. destruct H as [H1 H2].
  apply N.eqb_eq in H1. apply IH in H2. congruence.
Qed.

Lemma setitem_fresh {K V : Type} (eqb : K -> K -> bool)
  (d : list (K * V)) (k : K) (v : V) :
  (forall a b, eqb a b = true -> a = b) ->
  ~ In k (map fst d) ->
  Ui.setitem eqb d k v = d ++ [(k, v)].
Proof.
  intros Heq. induction d as [|[k' v'] d IH]; intros Hk; [reflexivity|].
  cbn [Ui.setitem]. destruct (eqb k' k) eqn:E.
  - apply Heq in E. subst. exfalso. apply Hk. now left.
  - cbn [app]. rewrite IH; [reflexivity|]. intros Hin. apply Hk. now right.
Qed.

(** Writing the entries of a mapping under new keys keeps them all, in
    their order, when the new keys of different entries differ. *)
Lemma rekeyed {K K' V : Type} (eqb : K' -> K' -> bool) (f : K -> K')
  (d : list (K * V)) (out : list (K' * V)) :
  (forall a b, eqb a b = true -> a = b) ->
  (forall a b, f a = f b -> a = b) ->
  NoDup (map fst d) ->
  (forall k, In k (map fst d) -> ~ In (f k) (map fst out)) ->
  fold_left (fun out entry => Ui.setitem eqb out (f (fst entry)) (snd entry))
    d out
  = out ++ map (fun entry => (f (fst entry), snd entry)) d.
Proof.
  intros Heq Hinj. revert out.
  induction d as [|[k v] d IH]; intros out Hnd Hout; cbn [fold_left map].
  - now rewrite app_nil_r.
  - cbn [map fst] in Hnd. inversion Hnd as [|? ? Hk Hnd']; subst.
    cbn [fst snd]. rewrite (setitem_fresh eqb out (f k) v Heq).
    2:{ apply Hout. now left. }
    rewrite IH; [now rewrite <- app_assoc | exact Hnd' |].
    intros j Hj Hin. rewrite map_app, in_app_iff in Hin.
    destruct Hin as [Hin | [Hin | []]].
    + apply (Hout j); [now right | exact Hin].
    + cbn [fst] in Hin. apply Hinj in Hin. subst. contradiction.
Qed.

Lemma str_of_int_inj (a b : Z) : str_of_int a = str_of_int b -> a = b.
Proof.
  intros H.
  pose proof (int_str_of_int unicode_decimal a) as Ha.
  pose proof (int_str_of_int unicode_decimal b) as Hb.
  rewrite H in Ha. congruence.
Qed.

Lemma str_of_int_no_comma (k : Z) :
  Forall (fun d => d <> 44) (str_of_int k).
Proof.
  assert (H : forall n, Forall (fun d => d <> 44) (str_of_N n)).
  { intros n. destruct (str_of_N_spec n) as (_ & Hall & _).
    eapply Forall_impl; [|exact Hall]. intros d Hd.
    unfold is_digit in Hd. apply andb_true_iff in Hd.
    destruct Hd as [Hd _]. apply N.leb_le in Hd. lia. }
  destruct k as [|p|p]; simpl.
  - repeat constructor. discriminate.
  - apply H.
  - constructor; [discriminate | apply H].
Qed.

Lemma split_commas_plain (s : str) :
  Forall (fun d => d <> 44) s -> ExportUtil.split_commas s = [s].
Proof.
  induction 1 as [|c r Hc _ IH]; [reflexivity|].
  cbn [ExportUtil.split_commas]. apply N.eqb_neq in Hc. now rewrite Hc, IH.
Qed.

Lemma split_commas_pair (a b : str) :
  Forall (fun d => d <> 44) a -> Forall (fun d => d <> 44) b ->
  ExportUtil.split_commas (a ++ [44] ++ b) = [a; b].
Proof.
  intros Ha Hb. induction Ha as [|c r Hc _ IH].
  - cbn [app ExportUtil.split_commas N.eqb Pos.eqb].
    now rewrite (split_commas_plain b Hb).
  - cbn [app ExportUtil.split_commas] in *. apply N.eqb_neq in Hc.
    now rewrite Hc, IH.
Qed.

Lemma split_pair_key (key : Z * Z) :
  ExportUtil.split_commas (ExportUtil.pair_key key)
  = [str_of_int (fst key); str_of_int (snd key)].
Proof.
  apply split_commas_pair; apply str_of_int_no_comma.
Qed.

Lemma pair_key_inj (a b : Z * Z) :
  ExportUtil.pair_key a = ExportUtil.pair_key b -> a = b.
Proof.
  intros H. pose proof (split_pair_key a) as Ha.
  rewrite H, split_pair_key in Ha. injection Ha as H1 H2.
  apply str_of_int_inj in H1, H2. destruct a, b. cbn in *. congruence.
Qed.

Lemma to_int_str (k : Z) :
  ExportUtil.to_int unicode_decimal repr_of (str_of_int k) = Return k.
Proof.
  unfold ExportUtil.to_int. now rewrite int_str_of_int.
Qed.

Lemma load_test_points_rekeyed (d out : list (Z * list json)) :
  NoDup (map fst d) ->
  (forall k, In k (map fst d) -> ~ In k (map fst out)) ->
  ExportUtil.load_test_points_from unicode_decimal repr_of out
    (map (fun entry => (str_of_int (fst entry), snd entry)) d)
  = Return (out ++ d).
Proof.
  revert out. induction d as [|[k v] d IH]; intros out Hnd Hout;
    cbn [map ExportUtil.load_test_points_from].
  - now rewrite app_nil_r.
  - cbn [map fst] in Hnd. inversion Hnd as [|? ? Hk Hnd']; subst.
    cbn [fst snd]. rewrite to_int_str. cbn [bind].
    rewrite (setitem_fresh Z.eqb out k v).
    2:{ intros a b. apply Z.eqb_eq. }
    2:{ apply Hout. now left. }
    rewrite IH; [now rewrite <- app_assoc | exact Hnd' |].
    intros j Hj Hin. rewrite map_app, in_app_iff in Hin.
    destruct Hin as [Hin | [Hin | []]].
    + apply (Hout j); [now right | exact Hin].
    + cbn [fst] in Hin. subst. contradiction.
Qed.

Lemma load_test_cases_rekeyed (d out : list ((Z * Z) * list json)) :
  NoDup (map fst d) ->
  (forall k, In k (map fst d) -> ~ In k (map fst out)) ->
  ExportUtil.load_test_cases_from unicode_decimal repr_of out
    (map (fun entry => (ExportUtil.pair_key (fst entry), snd entry)) d)
  = Return (out ++ d).
Proof.
  revert out. induction d as [|[k v] d IH]; intros out Hnd Hout;
    cbn [map ExportUtil.load_test_cases_from].
  - now rewrite app_nil_r.
  - cbn [map fst] in Hnd. inversion Hnd as [|? ? Hk Hnd']; subst.
    cbn [fst snd]. rewrite split_pair_key, !to_int_str. cbn [bind].
    rewrite <- surjective_pairing.
    rewrite (setitem_fresh Ui.pair_eqb out k v).
    2:{ intros a b. apply pair_eqb_eq. }
    2:{ apply Hout. now left. }
    rewrite IH; [now rewrite <- app_assoc | exact Hnd' |].
    intros j Hj Hin. rewrite map_app, in_app_iff in Hin.
    destruct Hin as [Hin | [Hin | []]].
    + apply (Hout j); [now right | exact Hin].
    + cbn [fst] in Hin. subst. contradiction.
Qed.

End ExportFacts.

(** X22.  The keys of an export can be read back: for the session's two
    mappings (their keys are distinct, as the keys of a mapping are), the
    keys that [export_data_to_dict] writes as texts are turned by
    [load_export_handler] into the same integers and pairs, with the same
    values in the same order, and no key is passed over or makes [int]
    fail. *)
Theorem exported_keys_read_back (unicode_decimal : char -> option N)
  (repr_of : json -> str) (test_points : list (Z * list json))
  (test_cases : list ((Z * Z) * list json)) :
  NoDup (map fst test_points) -> NoDup (map fst test_cases) ->
  ExportUtil.load_test_points unicode_decimal repr_of
    (ExportUtil.export_test_points test_points) = Return test_points /\
  ExportUtil.load_test_cases unicode_decimal repr_of
    (ExportUtil.export_test_cases test_cases) = Return test_cases.
Proof.
  intros Hp Hc. split.
  - unfold ExportUtil.load_test_points, ExportUtil.export_test_points.
    rewrite (rekeyed str_eqb str_of_int test_points [] str_eqb_true
               (str_of_int_inj unicode_decimal) Hp);
      [|intros k _ []].
    cbn [app]. now rewrite load_test_points_rekeyed; [|exact Hp | intros k _ []].
  - unfold ExportUtil.load_test_cases, ExportUtil.export_test_cases.
    rewrite (rekeyed str_eqb ExportUtil.pair_key test_cases [] str_eqb_true
               (pair_key_inj unicode_decimal) Hc);
      [|intros k _ []].
    cbn [app]. now rewrite load_test_cases_rekeyed; [|exact Hc | intros k _ []].
Qed.

Lemma exported_keys_read_back_witness :
  let test_points := [(0%Z, [JInt 1]); (12%Z, [])] in
  let test_cases := [((0%Z, 3%Z), [JNull]); ((12%Z, (-1)%Z), [])] in
  ExportUtil.load_test_points (fun _ => None) (fun _ => [])
    (ExportUtil.export_test_points test_points) = Return test_points /\
  ExportUtil.load_test_cases (fun _ => None) (fun _ => [])
    (ExportUtil.export_test_cases test_cases) = Return test_cases.
Proof.
  apply (exported_keys_read_back (fun _ => None) (fun _ => []));
    repeat constructor; cbn; intuition (try discriminate; congruence).
Defined.
